(** * Theme-catalog wire-protocol client: decoder and frame reader

    Shallow embedding of [tools/theme_library/get_block_stocks.py]:
    [parse_varint], [parse_theme_list], [_extract_theme_list_from_packet]
    and [receive_packet], followed by the properties stated about them.

    Conventions of the embedding.
    - A Python [bytes] object is a [list byte]; the value of a byte is read
      with [byte_val] (an integer in 0..255).
    - A Python [int] is a [Z]: Python integers do not wrap around.  Indices
      and lengths, which the code keeps non-negative, are [nat].
    - A Python [str] is the list of its code points.
    - A function that may raise returns a [result]; [Raise] carries the
      exception class. *)

From Stdlib Require Import List ZArith NArith Bool Arith Lia.
From Stdlib Require Import Init.Byte Strings.Byte.
Import ListNotations.

(* ================================================================== *)
(** ** Bytes, integers and exceptions *)

Definition bytes := list byte.

Definition byte_val (b : byte) : Z := Z.of_N (Byte.to_N b).

(** [bytes([z])] for an integer already known to be in range. *)
Definition byte_of_Z (z : Z) : byte :=
  match Byte.of_N (Z.to_N z) with
  | Some b => b
  | None => x00
  end.

Inductive exn : Type :=
| ValueError
| IndexError.

(** The outcome of a call.  [OutOfFuel] belongs to the embedding only: the
    loops that are not structural are run with a bound on their number of
    iterations, and the theorems show that the bound is never reached. *)
Inductive result (A : Type) : Type :=
| Ok (a : A)
| Raise (e : exn)
| OutOfFuel.

Arguments Ok {A} a.
Arguments Raise {A} e.
Arguments OutOfFuel {A}.

Definition bind {A B : Type} (m : result A) (k : A -> result B) : result B :=
  match m with
  | Ok a => k a
  | Raise e => Raise e
  | OutOfFuel => OutOfFuel
  end.

Declare Scope result_scope.
Delimit Scope result_scope with result.
Notation "x <- m ;; k" := (bind m (fun x => k))
  (at level 61, m at next level, right associativity) : result_scope.
Notation "' pat <- m ;; k" := (bind m (fun x => match x with pat => k end))
  (at level 61, pat pattern, m at next level, right associativity) : result_scope.

(** [data[i]]: raises [IndexError] past the end. *)
Definition getitem (data : bytes) (i : nat) : result byte :=
  match nth_error data i with
  | Some b => Ok b
  | None => Raise IndexError
  end.

(** [data[lo:hi]] for [0 <= lo]; a slice never raises. *)
Definition slice (data : bytes) (lo hi : nat) : bytes :=
  firstn (hi - lo) (skipn lo data).

(* ================================================================== *)
(** ** parse_varint *)

(** The [while pos < len(data)] loop of [parse_varint].  [rest] is
    [data[pos:]], so the loop test is the test for a non-empty [rest]. *)
Fixpoint varint_loop (rest : bytes) (start_index : nat)
         (result0 shift : Z) (pos : nat) : result (Z * nat) :=
  match rest with
  | [] => Ok (result0, pos - start_index)
  | b :: rest' =>
      let result1 :=
        Z.lor result0 (Z.shiftl (Z.land (byte_val b) 0x7F) shift) in
      let pos := S pos in
      if (Z.land (byte_val b) 0x80 =? 0)%Z then Ok (result1, pos - start_index)
      else
        let shift := (shift + 7)%Z in
        if (64 <=? shift)%Z then Raise ValueError
        else varint_loop rest' start_index result1 shift pos
  end.

Definition parse_varint (data : bytes) (start_index : nat) : result (Z * nat) :=
  varint_loop (skipn start_index data) start_index 0 0 start_index.

(** The unsigned LEB128 encoder the decoder is compared with: seven bits
    per byte, least significant group first, bit [0x80] set on every byte
    but the last.  [fuel] bounds the number of bytes. *)
Fixpoint encode_varint_fuel (fuel : nat) (v : Z) : bytes :=
  match fuel with
  | O => []
  | S fuel' =>
      if (v <? 128)%Z then [byte_of_Z v]
      else byte_of_Z (Z.lor (Z.land v 0x7F) 0x80)
             :: encode_varint_fuel fuel' (Z.shiftr v 7)
  end.

Definition encode_varint (v : Z) : bytes :=
  encode_varint_fuel (S (Z.to_nat (Z.log2 v))) v.

(** The bit [0x80] of a byte. *)
Definition has_continuation (b : byte) : bool :=
  negb (Z.land (byte_val b) 0x80 =? 0)%Z.

(** The value accumulated from a run of bytes, seven bits from each. *)
Fixpoint varint_value (bs : bytes) : Z :=
  match bs with
  | [] => 0
  | b :: bs' => Z.lor (Z.land (byte_val b) 0x7F) (Z.shiftl (varint_value bs') 7)
  end%Z.

(** A byte with its bit [0x80] cleared. *)
Definition clear_continuation (b : byte) : byte :=
  byte_of_Z (Z.land (byte_val b) 0x7F).

Fixpoint clear_last (bs : bytes) : bytes :=
  match bs with
  | [] => []
  | [b] => [clear_continuation b]
  | b :: bs' => b :: clear_last bs'
  end.

(* ================================================================== *)
(** ** Python strings: decode, strip, isdigit, find *)

(** A [str] is the list of its code points. *)
Definition pystr := list Z.

(** Truth value of a string: [not s] holds for the empty string only. *)
Definition truthy (s : pystr) : bool :=
  match s with
  | [] => false
  | _ :: _ => true
  end.

(** Truth value of [d.get(key)] for a string-valued key. *)
Definition get_truthy (v : option pystr) : bool :=
  match v with
  | Some s => truthy s
  | None => false
  end.

Definition is_continuation_byte (b : byte) : bool :=
  ((0x80 <=? byte_val b) && (byte_val b <=? 0xBF))%Z.

(** [s.decode("utf-8", errors="ignore")], after CPython's decoder: a
    well-formed sequence gives its code point; an ill-formed one is dropped
    up to its last acceptable byte (one byte for a bad lead byte or a bad
    second byte, two or three bytes when a later continuation byte is bad,
    everything that is left when the data ends inside a sequence) and
    decoding resumes behind it.  Overlong forms, surrogates and code points
    above U+10FFFF are ill-formed. *)
Fixpoint decode_utf8_ignore (s : bytes) : pystr :=
  match s with
  | [] => []
  | b1 :: r1 =>
      let ch := byte_val b1 in
      if (ch <? 0x80)%Z then ch :: decode_utf8_ignore r1
      else if (ch <? 0xC2)%Z then decode_utf8_ignore r1
      else if (ch <? 0xE0)%Z then
        match r1 with
        | [] => []
        | b2 :: r2 =>
            if is_continuation_byte b2
            then (Z.shiftl (Z.land ch 0x1F) 6 + Z.land (byte_val b2) 0x3F)%Z
                   :: decode_utf8_ignore r2
            else decode_utf8_ignore r1
        end
      else if (ch <? 0xF0)%Z then
        match r1 with
        | [] => []
        | b2 :: r2 =>
            let ch2 := byte_val b2 in
            if negb (is_continuation_byte b2)
               || (if (ch2 <? 0xA0)%Z then (ch =? 0xE0)%Z else (ch =? 0xED)%Z)
            then decode_utf8_ignore r1
            else
              match r2 with
              | [] => []
              | b3 :: r3 =>
                  if is_continuation_byte b3
                  then (Z.shiftl (Z.land ch 0x0F) 12
                        + Z.shiftl (Z.land ch2 0x3F) 6
                        + Z.land (byte_val b3) 0x3F)%Z
                         :: decode_utf8_ignore r3
                  else decode_utf8_ignore r2
              end
        end
      else if (ch <? 0xF5)%Z then
        match r1 with
        | [] => []
        | b2 :: r2 =>
            let ch2 := byte_val b2 in
            if negb (is_continuation_byte b2)
               || (if (ch2 <? 0x90)%Z then (ch =? 0xF0)%Z else (ch =? 0xF4)%Z)
            then decode_utf8_ignore r1
            else
              match r2 with
              | [] => []
              | b3 :: r3 =>
                  if negb (is_continuation_byte b3) then decode_utf8_ignore r2
                  else
                    match r3 with
                    | [] => []
                    | b4 :: r4 =>
                        if is_continuation_byte b4
                        then (Z.shiftl (Z.land ch 0x07) 18
                              + Z.shiftl (Z.land ch2 0x3F) 12
                              + Z.shiftl (Z.land (byte_val b3) 0x3F) 6
                              + Z.land (byte_val b4) 0x3F)%Z
                               :: decode_utf8_ignore r4
                        else decode_utf8_ignore r3
                    end
              end
        end
      else decode_utf8_ignore r1
  end.

Definition in_ranges (ranges : list (Z * Z)) (c : Z) : bool :=
  existsb (fun r => ((fst r <=? c) && (c <=? snd r))%Z) ranges.

(** The code points [str.isspace] accepts, which are those [str.strip]
    removes. *)
Definition space_ranges : list (Z * Z) :=
  [(9, 13); (28, 32); (133, 133); (160, 160); (5760, 5760); (8192, 8202);
   (8232, 8233); (8239, 8239); (8287, 8287); (12288, 12288)]%Z.

Definition isspace_char : Z -> bool := in_ranges space_ranges.

Fixpoint lstrip (s : pystr) : pystr :=
  match s with
  | [] => []
  | c :: s' => if isspace_char c then lstrip s' else s
  end.

(** [s.strip()] *)
Definition strip (s : pystr) : pystr := rev (lstrip (rev (lstrip s))).

(** The code points [str.isdigit] accepts: those whose Unicode property
    Numeric_Type is Digit or Decimal (Unicode 14), as inclusive ranges.
    The ASCII digits are the first range; the others are the superscript
    digits and the digits of other scripts. *)
Definition digit_ranges : list (Z * Z) :=
  [(48, 57); (178, 179); (185, 185); (1632, 1641); (1776, 1785);
   (1984, 1993); (2406, 2415); (2534, 2543); (2662, 2671); (2790, 2799);
   (2918, 2927); (3046, 3055); (3174, 3183); (3302, 3311); (3430, 3439);
   (3558, 3567); (3664, 3673); (3792, 3801); (3872, 3881); (4160, 4169);
   (4240, 4249); (4969, 4977); (6112, 6121); (6160, 6169); (6470, 6479);
   (6608, 6618); (6784, 6793); (6800, 6809); (6992, 7001); (7088, 7097);
   (7232, 7241); (7248, 7257); (8304, 8304); (8308, 8313); (8320, 8329);
   (9312, 9320); (9332, 9340); (9352, 9360); (9450, 9450); (9461, 9469);
   (9471, 9471); (10102, 10110); (10112, 10120); (10122, 10130);
   (42528, 42537); (43216, 43225); (43264, 43273); (43472, 43481);
   (43504, 43513); (43600, 43609); (44016, 44025); (65296, 65305);
   (66720, 66729); (68160, 68163); (68912, 68921); (69216, 69224);
   (69714, 69722); (69734, 69743); (69872, 69881); (69942, 69951);
   (70096, 70105); (70384, 70393); (70736, 70745); (70864, 70873);
   (71248, 71257); (71360, 71369); (71472, 71481); (71904, 71913);
   (72016, 72025); (72784, 72793); (73040, 73049); (73120, 73129);
   (92768, 92777); (92864, 92873); (93008, 93017); (120782, 120831);
   (123200, 123209); (123632, 123641); (125264, 125273); (127232, 127242);
   (130032, 130041)]%Z.

Definition isdigit_char : Z -> bool := in_ranges digit_ranges.

(** [s.isdigit()]: at least one character, and every character a digit. *)
Definition isdigit (s : pystr) : bool := truthy s && forallb isdigit_char s.

Definition is_ascii_digit (c : Z) : bool := ((48 <=? c) && (c <=? 57))%Z.

Fixpoint pystr_eqb (s t : pystr) : bool :=
  match s, t with
  | [], [] => true
  | c :: s', d :: t' => (c =? d)%Z && pystr_eqb s' t'
  | _, _ => false
  end.

(** [sub] is a prefix of [data]. *)
Fixpoint starts_with (sub data : bytes) : bool :=
  match sub, data with
  | [], _ => true
  | _ :: _, [] => false
  | a :: sub', b :: data' => Byte.eqb a b && starts_with sub' data'
  end.

Fixpoint find_from (sub rest : bytes) (pos : nat) : option nat :=
  if starts_with sub rest then Some pos
  else
    match rest with
    | [] => None
    | _ :: rest' => find_from sub rest' (S pos)
    end.

(** [data.find(sub, start)] for [0 <= start]; [None] stands for [-1]. *)
Definition find (sub data : bytes) (start : nat) : option nat :=
  if length data <? start then None
  else find_from sub (skipn start data) start.

(* ================================================================== *)
(** ** The record under construction: the [theme_data] dictionary *)

(** One entry of the [all_fields] debugging list. *)
Inductive field_entry : Type :=
| VarintEntry (field_num value : Z)
| LengthDelimitedEntry (field_num : Z) (length : nat).

(** The dictionary [theme_data], one optional field per key the code
    writes; [None] is an absent key. *)
Record theme_data : Type := ThemeData {
  td_id : option pystr;
  td_name : option pystr;
  td_code : option pystr;
  td_raw_data : option bytes;
  td_field5 : option Z;
  td_field6 : option Z;
  td_field7 : option Z;
  td_field8 : option Z;
  td_field9 : option Z;
  td_field10 : option Z;
  td_field11 : option Z;
  td_limit_up_count : option Z;
  td_all_fields : option (list field_entry)
}.

Definition empty_theme_data : theme_data :=
  ThemeData None None None None None None None None None None None None None.

Definition set_id (v : pystr) (d : theme_data) : theme_data :=
  ThemeData (Some v) (td_name d) (td_code d) (td_raw_data d) (td_field5 d)
    (td_field6 d) (td_field7 d) (td_field8 d) (td_field9 d) (td_field10 d)
    (td_field11 d) (td_limit_up_count d) (td_all_fields d).

Definition set_name (v : pystr) (d : theme_data) : theme_data :=
  ThemeData (td_id d) (Some v) (td_code d) (td_raw_data d) (td_field5 d)
    (td_field6 d) (td_field7 d) (td_field8 d) (td_field9 d) (td_field10 d)
    (td_field11 d) (td_limit_up_count d) (td_all_fields d).

Definition set_code (v : pystr) (d : theme_data) : theme_data :=
  ThemeData (td_id d) (td_name d) (Some v) (td_raw_data d) (td_field5 d)
    (td_field6 d) (td_field7 d) (td_field8 d) (td_field9 d) (td_field10 d)
    (td_field11 d) (td_limit_up_count d) (td_all_fields d).

Definition set_raw_data (v : bytes) (d : theme_data) : theme_data :=
  ThemeData (td_id d) (td_name d) (td_code d) (Some v) (td_field5 d)
    (td_field6 d) (td_field7 d) (td_field8 d) (td_field9 d) (td_field10 d)
    (td_field11 d) (td_limit_up_count d) (td_all_fields d).

Definition set_field5 (v : Z) (d : theme_data) : theme_data :=
  ThemeData (td_id d) (td_name d) (td_code d) (td_raw_data d) (Some v)
    (td_field6 d) (td_field7 d) (td_field8 d) (td_field9 d) (td_field10 d)
    (td_field11 d) (td_limit_up_count d) (td_all_fields d).

Definition set_field6 (v : Z) (d : theme_data) : theme_data :=
  ThemeData (td_id d) (td_name d) (td_code d) (td_raw_data d) (td_field5 d)
    (Some v) (td_field7 d) (td_field8 d) (td_field9 d) (td_field10 d)
    (td_field11 d) (td_limit_up_count d) (td_all_fields d).

Definition set_field7 (v : Z) (d : theme_data) : theme_data :=
  ThemeData (td_id d) (td_name d) (td_code d) (td_raw_data d) (td_field5 d)
    (td_field6 d) (Some v) (td_field8 d) (td_field9 d) (td_field10 d)
    (td_field11 d) (td_limit_up_count d) (td_all_fields d).

Definition set_field8 (v : Z) (d : theme_data) : theme_data :=
  ThemeData (td_id d) (td_name d) (td_code d) (td_raw_data d) (td_field5 d)
    (td_field6 d) (td_field7 d) (Some v) (td_field9 d) (td_field10 d)
    (td_field11 d) (td_limit_up_count d) (td_all_fields d).

Definition set_field9 (v : Z) (d : theme_data) : theme_data :=
  ThemeData (td_id d) (td_name d) (td_code d) (td_raw_data d) (td_field5 d)
    (td_field6 d) (td_field7 d) (td_field8 d) (Some v) (td_field10 d)
    (td_field11 d) (td_limit_up_count d) (td_all_fields d).

Definition set_field10 (v : Z) (d : theme_data) : theme_data :=
  ThemeData (td_id d) (td_name d) (td_code d) (td_raw_data d) (td_field5 d)
    (td_field6 d) (td_field7 d) (td_field8 d) (td_field9 d) (Some v)
    (td_field11 d) (td_limit_up_count d) (td_all_fields d).

Definition set_field11 (v : Z) (d : theme_data) : theme_data :=
  ThemeData (td_id d) (td_name d) (td_code d) (td_raw_data d) (td_field5 d)
    (td_field6 d) (td_field7 d) (td_field8 d) (td_field9 d) (td_field10 d)
    (Some v) (td_limit_up_count d) (td_all_fields d).

Definition set_limit_up_count (v : Z) (d : theme_data) : theme_data :=
  ThemeData (td_id d) (td_name d) (td_code d) (td_raw_data d) (td_field5 d)
    (td_field6 d) (td_field7 d) (td_field8 d) (td_field9 d) (td_field10 d)
    (td_field11 d) (Some v) (td_all_fields d).

Definition set_all_fields (v : list field_entry) (d : theme_data) : theme_data :=
  ThemeData (td_id d) (td_name d) (td_code d) (td_raw_data d) (td_field5 d)
    (td_field6 d) (td_field7 d) (td_field8 d) (td_field9 d) (td_field10 d)
    (td_field11 d) (td_limit_up_count d) (Some v).

(** ["limit_up_count" in theme_data] *)
Definition has_limit_up_count (d : theme_data) : bool :=
  match td_limit_up_count d with
  | Some _ => true
  | None => false
  end.

(** The [if field_num == 5 ... elif field_num == 11] chain that stores a
    decoded varint. *)
Definition store_field (field_num value : Z) (d : theme_data) : theme_data :=
  if (field_num =? 5)%Z then set_field5 value d
  else if (field_num =? 6)%Z then set_field6 value d
  else if (field_num =? 7)%Z then
    let d := set_field7 value d in
    if (value <=? 100)%Z then set_limit_up_count value d else d
  else if (field_num =? 8)%Z then
    let d := set_field8 value d in
    if (value <=? 100)%Z && negb (has_limit_up_count d)
    then set_limit_up_count value d else d
  else if (field_num =? 9)%Z then set_field9 value d
  else if (field_num =? 10)%Z then set_field10 value d
  else if (field_num =? 11)%Z then set_field11 value d
  else d.

(* ================================================================== *)
(** ** parse_theme_list *)

Local Open Scope result_scope.

(** The inner [while current_pos < theme_end] loop: the scan of the fields
    that follow the name and the code.  It returns [theme_data] and
    [all_fields] as they are when the loop is left. *)
Fixpoint field_loop (fuel : nat) (theme_body : bytes) (theme_end current_pos : nat)
         (theme_data0 : theme_data) (all_fields : list field_entry)
  : result (theme_data * list field_entry) :=
  if current_pos <? theme_end then
    match fuel with
    | O => OutOfFuel
    | S fuel' =>
        if length theme_body <=? current_pos then Ok (theme_data0, all_fields)
        else
          field_tag <- getitem theme_body current_pos ;;
          let field_num := Z.shiftr (byte_val field_tag) 3 in
          let wire_type := Z.land (byte_val field_tag) 0x07 in
          let current_pos := current_pos + 1 in
          if (wire_type =? 0)%Z then
            match parse_varint theme_body current_pos with
            | Ok (value, consumed) =>
                let current_pos := current_pos + consumed in
                let all_fields := all_fields ++ [VarintEntry field_num value] in
                field_loop fuel' theme_body theme_end current_pos
                           (store_field field_num value theme_data0) all_fields
            | Raise _ => Ok (theme_data0, all_fields)
            | OutOfFuel => OutOfFuel
            end
          else if (wire_type =? 2)%Z then
            if length theme_body <=? current_pos then Ok (theme_data0, all_fields)
            else
              length_byte <- getitem theme_body current_pos ;;
              let length0 := Byte.to_nat length_byte in
              let current_pos := current_pos + 1 in
              if length theme_body <? current_pos + length0
              then Ok (theme_data0, all_fields)
              else
                field_loop fuel' theme_body theme_end (current_pos + length0)
                           theme_data0
                           (all_fields ++ [LengthDelimitedEntry field_num length0])
          else Ok (theme_data0, all_fields)
    end
  else Ok (theme_data0, all_fields).

(** How one pass through the body of the outer [while] ends: [break], or
    back to the loop test ([continue], or the end of the body). *)
Inductive loop_ctl : Type :=
| Break (theme_list : list theme_data)
| Continue (index : nat) (theme_list : list theme_data).

(** [if theme_data.get("id"): theme_list.append(theme_data)] *)
Definition append_if_id (theme_list : list theme_data) (d : theme_data)
  : list theme_data :=
  if get_truthy (td_id d) then theme_list ++ [d] else theme_list.

(** The optional code field (tag [0x22]).  The length byte is read without
    a bounds test: [theme_body[index + 1]] raises [IndexError] when the tag
    is the last byte of the window. *)
Definition parse_code (theme_body : bytes) (index : nat) (d : theme_data)
  : result (nat * theme_data) :=
  if index <? length theme_body then
    tag <- getitem theme_body index ;;
    if (byte_val tag =? 0x22)%Z then
      code_byte <- getitem theme_body (index + 1) ;;
      let code_len := Byte.to_nat code_byte in
      if index + 2 + code_len <=? length theme_body then
        let theme_code :=
          decode_utf8_ignore (slice theme_body (index + 2) (index + 2 + code_len)) in
        Ok (index + 2 + code_len, set_code theme_code d)
      else Ok (index, d)
    else Ok (index, d)
  else Ok (index, d).

(** The part of the loop body behind the name: code, trailing fields,
    the append and the move to the next record. *)
Definition finish_theme (theme_body : bytes) (theme_start index : nat)
           (d : theme_data) (theme_list : list theme_data) : result loop_ctl :=
  '(index, d) <- parse_code theme_body index d ;;
  let next_theme_start :=
    match find [x0a] theme_body index with
    | Some p => p
    | None => length theme_body
    end in
  let d := set_raw_data (slice theme_body index next_theme_start) d in
  let theme_end := next_theme_start in
  '(d, all_fields) <-
    field_loop (theme_end - index) theme_body theme_end index d [] ;;
  let d := set_all_fields all_fields d in
  let index := next_theme_start in
  let theme_list :=
    if get_truthy (td_id d) && get_truthy (td_name d)
    then theme_list ++ [d] else theme_list in
  let index := if index <=? theme_start then index + 1 else index in
  if length theme_body <=? index then Ok (Break theme_list)
  else Ok (Continue index theme_list).

(** One pass through the body of [while index < len(theme_body)]. *)
Definition scan_iteration (theme_body : bytes) (index : nat)
           (theme_list : list theme_data) : result loop_ctl :=
  let theme_start := index in
  match find [x0a] theme_body index with
  | None => Ok (Break theme_list)
  | Some next_id =>
      if length theme_body <=? next_id + 2 then Ok (Break theme_list)
      else
        id_byte <- getitem theme_body (next_id + 1) ;;
        let id_len := Byte.to_nat id_byte in
        if length theme_body <? next_id + 2 + id_len
        then Ok (Continue (next_id + 1) theme_list)
        else if 20 <? id_len then Ok (Continue (next_id + 1) theme_list)
        else
          let theme_id_bytes :=
            slice theme_body (next_id + 2) (next_id + 2 + id_len) in
          let theme_id_str := decode_utf8_ignore theme_id_bytes in
          if negb (truthy theme_id_str) || negb (isdigit (strip theme_id_str))
          then Ok (Continue (next_id + 1) theme_list)
          else
            let theme_id_str := strip theme_id_str in
            if 10 <? length theme_id_str
            then Ok (Continue (next_id + 1) theme_list)
            else
              let d := set_id theme_id_str empty_theme_data in
              let index := next_id + 2 + id_len in
              if length theme_body - 1 <=? index
              then Ok (Break (append_if_id theme_list d))
              else
                tag <- getitem theme_body index ;;
                if (byte_val tag =? 0x12)%Z then
                  name_byte <- getitem theme_body (index + 1) ;;
                  let name_len := Byte.to_nat name_byte in
                  if length theme_body <? index + 2 + name_len
                  then Ok (Break (append_if_id theme_list d))
                  else
                    let theme_name :=
                      decode_utf8_ignore
                        (slice theme_body (index + 2) (index + 2 + name_len)) in
                    let d := set_name theme_name d in
                    let index := index + 2 + name_len in
                    finish_theme theme_body theme_start index d theme_list
                else Ok (Continue (next_id + 1) theme_list)
  end.

(** The outer [while index < len(theme_body)] loop, for at most [fuel]
    passes. *)
Fixpoint scan_loop (fuel : nat) (theme_body : bytes) (index : nat)
         (theme_list : list theme_data) : result (list theme_data) :=
  if index <? length theme_body then
    match fuel with
    | O => OutOfFuel
    | S fuel' =>
        ctl <- scan_iteration theme_body index theme_list ;;
        match ctl with
        | Break theme_list => Ok theme_list
        | Continue index theme_list => scan_loop fuel' theme_body index theme_list
        end
    end
  else Ok theme_list.

Definition start_marker_bytes : bytes := [x0b; xc1; x00; x00; x00].

(** Where the scan starts: behind the first start marker, if there is one. *)
Definition initial_index (theme_body : bytes) : nat :=
  match find start_marker_bytes theme_body 0 with
  | Some start_marker => start_marker + 5
  | None => 0
  end.

Definition parse_theme_list (theme_body : bytes) : result (list theme_data) :=
  scan_loop (length theme_body) theme_body (initial_index theme_body) [].

(* ================================================================== *)
(** ** _extract_theme_list_from_packet *)

Definition chunk_size : nat := 4096.

(** The body of [for chunk_idx in range(total_chunks)], over the indices
    that are left. *)
Fixpoint chunk_loop (chunk_idxs : list nat) (message_body : bytes)
         (themes : list theme_data) : result (list theme_data) :=
  match chunk_idxs with
  | [] => Ok themes
  | chunk_idx :: chunk_idxs' =>
      let start_pos := chunk_idx * chunk_size in
      let end_pos := Nat.min (start_pos + chunk_size) (length message_body) in
      let chunk_data := slice message_body start_pos end_pos in
      chunk_themes <- parse_theme_list chunk_data ;;
      chunk_loop chunk_idxs' message_body (themes ++ chunk_themes)
  end.

(** The raw candidates of a message body: every window scanned in turn. *)
Definition scan_chunks (message_body : bytes) : result (list theme_data) :=
  let total_chunks := (length message_body + chunk_size - 1) / chunk_size in
  chunk_loop (seq 0 total_chunks) message_body [].

(** A record of the catalog handed to the caller. *)
Record theme_record : Type := ThemeRecord {
  rec_id : pystr;
  rec_name : pystr;
  rec_code : option pystr;
  rec_limit_up_count : Z
}.

(** [ord(c) < 32 and c not in "\t\n\r"] *)
Definition invalid_char (c : Z) : bool :=
  ((c <? 32) && negb ((c =? 9) || (c =? 10) || (c =? 13)))%Z.

(** [theme_id in seen_ids] *)
Definition seen (theme_id : pystr) (seen_ids : list pystr) : bool :=
  existsb (pystr_eqb theme_id) seen_ids.

(** [theme.get("limit_up_count", 0)] *)
Definition get_limit_up_count_or_0 (theme : theme_data) : Z :=
  match td_limit_up_count theme with
  | Some v => v
  | None => 0%Z
  end.

(** The body of [for theme in themes], on the pair of [simplified] and
    [seen_ids]. *)
Definition simplify_step (st : list theme_record * list pystr)
           (theme : theme_data) : list theme_record * list pystr :=
  let '(simplified, seen_ids) := st in
  match td_id theme, td_name theme with
  | Some theme_id, Some theme_name =>
      if negb (truthy theme_id) || negb (truthy theme_name) then st
      else
        let theme_id := strip theme_id in
        if negb (isdigit theme_id) then st
        else if (length theme_id =? 0) || (10 <? length theme_id) then st
        else if (length theme_name =? 0) || (100 <? length theme_name) then st
        else if existsb invalid_char theme_name then st
        else if seen theme_id seen_ids then st
        else
          (simplified
             ++ [ThemeRecord theme_id theme_name (td_code theme)
                             (get_limit_up_count_or_0 theme)],
           theme_id :: seen_ids)
  | _, _ => st
  end.

Definition simplify (themes : list theme_data) : list theme_record :=
  fst (fold_left simplify_step themes ([], [])).

(** The 16-bit big-endian body length of a header. *)
Definition unpack_be16 (hi lo : byte) : nat :=
  256 * Byte.to_nat hi + Byte.to_nat lo.

Definition _extract_theme_list_from_packet (packet : bytes)
  : result (list theme_record) :=
  match packet with
  | packet_type :: hi :: lo :: message_body =>
      if negb ((byte_val packet_type =? 0x40) || (byte_val packet_type =? 0x60))%Z
      then Ok []
      else
        let packet_body_length := unpack_be16 hi lo in
        if length packet <? 3 + packet_body_length then Ok []
        else
          themes <- scan_chunks message_body ;;
          Ok (simplify themes)
  | _ => Ok []
  end.

(* ================================================================== *)
(** ** receive_packet *)

(** The receiving side of the socket: the segments the transport is still
    to deliver, in order; when none is left the peer has closed. *)
Definition socket := list bytes.

(** [sock.recv(bufsize)]: at most [bufsize] bytes of what arrives next;
    the empty result means that the peer has closed. *)
Fixpoint recv (sock : socket) (bufsize : nat) : bytes * socket :=
  match sock with
  | [] => ([], [])
  | [] :: sock' => recv sock' bufsize
  | segment :: sock' =>
      if length segment <=? bufsize then (segment, sock')
      else (firstn bufsize segment, skipn bufsize segment :: sock')
  end.

(** [while len(buf) < want: chunk = sock.recv(want - len(buf)); ...]: the
    shape of both loops of [receive_packet].  [None] is the early
    [return None]. *)
Fixpoint recv_loop (fuel : nat) (want : nat) (buf : bytes) (sock : socket)
  : result (option bytes * socket) :=
  if length buf <? want then
    match fuel with
    | O => OutOfFuel
    | S fuel' =>
        let '(chunk, sock) := recv sock (want - length buf) in
        match chunk with
        | [] => Ok (None, sock)
        | _ :: _ => recv_loop fuel' want (buf ++ chunk) sock
        end
    end
  else Ok (Some buf, sock).

(** [receive_packet(sock)]: the returned value ([None] or the packet) and
    the socket as it is left.  The header returned by the first loop has
    three bytes, so the branch for a shorter one is never taken. *)
Definition receive_packet (sock : socket) : result (option bytes * socket) :=
  '(header, sock) <- recv_loop 3 3 [] sock ;;
  match header with
  | None => Ok (None, sock)
  | Some header =>
      match header with
      | packet_type :: hi :: lo :: _ =>
          let packet_body_length := unpack_be16 hi lo in
          '(body, sock) <- recv_loop packet_body_length packet_body_length [] sock ;;
          match body with
          | None => Ok (None, sock)
          | Some body => Ok (Some (header ++ body), sock)
          end
      | _ => Raise IndexError
      end
  end.

(* ================================================================== *)
(** ** Notions used to state the properties *)

(** The first [n] bytes of [rest] exist and all carry the bit [0x80]. *)
Fixpoint continuation_run (n : nat) (rest : bytes) : bool :=
  match n with
  | O => true
  | S n' =>
      match rest with
      | [] => false
      | b :: rest' => has_continuation b && continuation_run n' rest'
      end
  end.

(** [next_theme_start] in [finish_theme]: the next anchor at or behind
    [index1], the end of the window when there is none. *)
Definition next_theme_start_of (theme_body : bytes) (index1 : nat) : nat :=
  match find [x0a] theme_body index1 with
  | Some p => p
  | None => length theme_body
  end.

(** The test the scanner applies to the bytes of an id: decoded and
    stripped they are a non-empty string of digits of at most ten
    characters. *)
Definition accepted_id (payload : bytes) : bool :=
  let s := decode_utf8_ignore payload in
  truthy s && isdigit (strip s) && (length (strip s) <=? 10).

(** A varint entry of field [n] whose value is at most 100. *)
Definition qualifying (n : Z) (e : field_entry) : option Z :=
  match e with
  | VarintEntry field_num value =>
      if ((field_num =? n) && (value <=? 100))%Z then Some value else None
  | LengthDelimitedEntry _ _ => None
  end.

Fixpoint first_qualifying (n : Z) (fields : list field_entry) : option Z :=
  match fields with
  | [] => None
  | e :: fields' =>
      match qualifying n e with
      | Some v => Some v
      | None => first_qualifying n fields'
      end
  end.

Definition last_qualifying (n : Z) (fields : list field_entry) : option Z :=
  first_qualifying n (rev fields).

(** What the field scan leaves in [limit_up_count]: the last field 7 with
    a value of at most 100 when there is one, otherwise the first field 8
    with such a value. *)
Definition limit_up_count_of (fields : list field_entry) : option Z :=
  match last_qualifying 7 fields with
  | Some v => Some v
  | None => first_qualifying 8 fields
  end.

(** The other reading: the first entry among fields 7 and 8 with a value
    of at most 100. *)
Fixpoint first_of_7_or_8 (fields : list field_entry) : option Z :=
  match fields with
  | [] => None
  | e :: fields' =>
      match qualifying 7 e, qualifying 8 e with
      | Some v, _ => Some v
      | None, Some v => Some v
      | None, None => first_of_7_or_8 fields'
      end
  end.

(** The fields a record was scanned with; none for a record cut short
    before the field scan. *)
Definition fields_of (d : theme_data) : list field_entry :=
  match td_all_fields d with
  | Some fields => fields
  | None => []
  end.

(** The checks of the filter loop, without the test for duplicates: the
    catalog record of a candidate that passes them. *)
Definition valid_candidate (theme : theme_data) : option theme_record :=
  match td_id theme, td_name theme with
  | Some theme_id, Some theme_name =>
      let theme_id' := strip theme_id in
      if truthy theme_id && truthy theme_name
         && isdigit theme_id'
         && negb ((length theme_id' =? 0) || (10 <? length theme_id'))
         && negb ((length theme_name =? 0) || (100 <? length theme_name))
         && negb (existsb invalid_char theme_name)
      then Some (ThemeRecord theme_id' theme_name (td_code theme)
                             (get_limit_up_count_or_0 theme))
      else None
  | _, _ => None
  end.

(** The first valid candidate of a list that carries a given id. *)
Fixpoint first_with_id (theme_id : pystr) (themes : list theme_data)
  : option theme_record :=
  match themes with
  | [] => None
  | theme :: themes' =>
      match valid_candidate theme with
      | Some r =>
          if pystr_eqb theme_id (rec_id r) then Some r
          else first_with_id theme_id themes'
      | None => first_with_id theme_id themes'
      end
  end.

(** The window with a given number: 4096 bytes from 4096 times the
    number on, fewer at the end of the body. *)
Definition window (message_body : bytes) (chunk_idx : nat) : bytes :=
  firstn chunk_size (skipn (chunk_idx * chunk_size) message_body).

(** The windows of a message body, in order. *)
Definition windows (message_body : bytes) : list bytes :=
  map (window message_body)
      (seq 0 ((length message_body + chunk_size - 1) / chunk_size)).

(** A list of windows scanned one after the other, each on its own. *)
Fixpoint scan_windows (windows : list bytes) : result (list theme_data) :=
  match windows with
  | [] => Ok []
  | w :: windows' =>
      chunk_themes <- parse_theme_list w ;;
      themes <- scan_windows windows' ;;
      Ok (chunk_themes ++ themes)
  end.

(** The list a pass of the outer loop hands on. *)
Definition ctl_list (ctl : loop_ctl) : list theme_data :=
  match ctl with
  | Break theme_list => theme_list
  | Continue _ theme_list => theme_list
  end.

(** The records the scan of a window can append: a record with an id only
    (the window ends behind the id, or inside the name), or a record with
    id and name, possibly a code, and what the field scan added. *)
Definition scanned (theme_body : bytes) (d : theme_data) : Prop :=
  (exists theme_id, d = set_id theme_id empty_theme_data)
  \/ (exists theme_id theme_name d1 raw fuel theme_end pos df af,
         let d0 := set_name theme_name (set_id theme_id empty_theme_data) in
         (d1 = d0 \/ exists code, d1 = set_code code d0)
         /\ theme_end - pos <= fuel
         /\ field_loop fuel theme_body theme_end pos (set_raw_data raw d1) []
            = Ok (df, af)
         /\ d = set_all_fields af df).

(* ================================================================== *)
(** ** parse_packet_40, parse_packet_60 *)

(** [parse_packet_40] and [parse_packet_60] are the same code up to the
    packet type they expect.  Every exception raised inside, their own
    [ValueError] for a short, mistyped or truncated packet and whatever
    the scan raises, is caught and turned into [None]; the console output
    is left out.  The windows are scanned as in [scan_chunks]: extending
    the list only when a window gave records is extending it always. *)
Definition parse_packet (expected_type : Z) (data : bytes)
  : result (option (list theme_data)) :=
  match data with
  | packet_type :: hi :: lo :: message_body =>
      if negb (byte_val packet_type =? expected_type)%Z then Ok None
      else if length data <? 3 + unpack_be16 hi lo then Ok None
      else
        match scan_chunks message_body with
        | Ok all_themes => Ok (Some all_themes)
        | Raise _ => Ok None
        | OutOfFuel => OutOfFuel
        end
  | _ => Ok None
  end.

Definition parse_packet_40 : bytes -> result (option (list theme_data)) :=
  parse_packet 0x40.

Definition parse_packet_60 : bytes -> result (option (list theme_data)) :=
  parse_packet 0x60.

(* ================================================================== *)
(** ** fetch_theme_list *)

(** The session of [fetch_theme_list] once the connection is up.  The
    server side is the stream of the socket, fixed in advance: it
    delivers its segments and closes; a read that times out is not part of
    the model.  What the client sends is collected in order. *)

Inductive session_exn : Type :=
| RuntimeError
| Propagated (e : exn).

Inductive outcome (A : Type) : Type :=
| Returns (a : A)
| Fails (e : session_exn)
| NoFuel.

Arguments Returns {A} a.
Arguments Fails {A} e.
Arguments NoFuel {A}.

Definition THEME_CMD : bytes :=
  [x40; x00; x0a; x00; x0b; x0b; xc1; x00; x00; x03; x02; x0b; xc1].

(** The bytes [send_heartbeat] sends. *)
Definition heartbeat_cmd : bytes := [x10; x00; x00].

(** The login loop: [for _ in range(max_wait_packets)] until a packet of
    type 0x30 or 0x60 arrives.  The result is [logged_in]. *)
Fixpoint login_loop (attempts : nat) (sock : socket) : result (bool * socket) :=
  match attempts with
  | O => Ok (false, sock)
  | S attempts' =>
      '(packet, sock) <- receive_packet sock ;;
      match packet with
      | None => login_loop attempts' sock
      | Some [] => login_loop attempts' sock
      | Some (packet_type :: _) =>
          if ((byte_val packet_type =? 0x30) || (byte_val packet_type =? 0x60))%Z
          then Ok (true, sock)
          else login_loop attempts' sock
      end
  end.

(** The loop that waits for the catalog: the first packet of type 0x40 or
    0x60 with a non-empty catalog ends it. *)
Fixpoint wait_loop (attempts : nat) (sock : socket)
         (theme_list : list theme_record)
  : result (list theme_record * socket) :=
  match attempts with
  | O => Ok (theme_list, sock)
  | S attempts' =>
      '(packet, sock) <- receive_packet sock ;;
      match packet with
      | None => wait_loop attempts' sock theme_list
      | Some [] => wait_loop attempts' sock theme_list
      | Some ((packet_type :: _) as packet) =>
          if ((byte_val packet_type =? 0x40) || (byte_val packet_type =? 0x60))%Z
          then
            theme_list <- _extract_theme_list_from_packet packet ;;
            match theme_list with
            | _ :: _ => Ok (theme_list, sock)
            | [] => wait_loop attempts' sock theme_list
            end
          else wait_loop attempts' sock theme_list
      end
  end.

Definition to_outcome {A} (r : result A) : outcome A :=
  match r with
  | Ok a => Returns a
  | Raise e => Fails (Propagated e)
  | OutOfFuel => NoFuel
  end.

(** [fetch_theme_list(max_wait_packets)]: what it returns or raises, and
    the messages sent.  [login_cmd] is the content of [LOGIN_CMD], read
    from a file when the module is loaded. *)
Definition fetch_theme_list (login_cmd : bytes) (max_wait_packets : nat)
           (sock : socket) : outcome (list theme_record) * list bytes :=
  let sent := [login_cmd] in
  match login_loop max_wait_packets sock with
  | Ok (logged_in, sock) =>
      if negb logged_in then (Fails RuntimeError, sent)
      else
        let sent := sent ++ [heartbeat_cmd] in
        let sent := sent ++ [THEME_CMD] in
        match wait_loop max_wait_packets sock [] with
        | Ok (theme_list, _) => (Returns theme_list, sent)
        | Raise e => (Fails (Propagated e), sent)
        | OutOfFuel => (NoFuel, sent)
        end
  | Raise e => (Fails (Propagated e), sent)
  | OutOfFuel => (NoFuel, sent)
  end.

(* ================================================================== *)
(** ** fetch_theme_list over a transport that can fail *)

(** The exceptions the transport raises, all of them subclasses of
    [OSError]: [TimeoutError], raised by a call that waits longer than the
    time set with [sock.settimeout(timeout)]; [ConnectionError] (reset,
    broken pipe, refused); [ssl.SSLError]; and the others. *)
Inductive os_error : Type :=
| TimeoutError
| ConnectionError
| SSLError
| OtherOSError.

Module Transport.

(** What a call of [recv] meets next: bytes that have arrived, or an
    exception of the transport (after [timeout] seconds without a byte,
    [TimeoutError]). *)
Inductive arrival : Type :=
| Segment (data : bytes)
| RecvRaises (e : os_error).

(** The connection as the client meets it: what the calls of [recv] find,
    in order (nothing left: the peer has closed); for each coming call of
    [sendall], the exception it raises, if any (nothing left: the call
    succeeds); and the messages sent so far. *)
Record wire : Type := Wire {
  incoming : list arrival;
  send_faults : list (option os_error);
  sent : list bytes
}.

(** The exceptions that leave [fetch_theme_list]. *)
Inductive raised : Type :=
| RuntimeError
| ScanError (e : exn)
| OSError (e : os_error).

Inductive io_result (A : Type) : Type :=
| Done (a : A)
| Throws (e : raised)
| NoFuel.

Arguments Done {A} a.
Arguments Throws {A} e.
Arguments NoFuel {A}.

(** Code that uses the connection: the result and the connection as it is
    left. *)
Definition io (A : Type) : Type := wire -> io_result A * wire.

Definition ret {A : Type} (a : A) : io A := fun w => (Done a, w).

Definition throw {A : Type} (e : raised) : io A := fun w => (Throws e, w).

Definition out_of_fuel {A : Type} : io A := fun w => (NoFuel, w).

Definition bind {A B : Type} (m : io A) (k : A -> io B) : io B :=
  fun w =>
    match m w with
    | (Done a, w') => k a w'
    | (Throws e, w') => (Throws e, w')
    | (NoFuel, w') => (NoFuel, w')
    end.

(** Code that does not use the connection. *)
Definition lift {A : Type} (r : result A) : io A :=
  match r with
  | Ok a => ret a
  | Raise e => throw (ScanError e)
  | OutOfFuel => out_of_fuel
  end.

Declare Scope io_scope.
Delimit Scope io_scope with io.
Notation "x <- m ;; k" := (bind m (fun x => k))
  (at level 61, m at next level, right associativity) : io_scope.

Local Open Scope io_scope.

(** [sock.recv(bufsize)] on what is to arrive: at most [bufsize] bytes of
    the next segment, the empty result when the peer has closed, or the
    exception of the transport. *)
Fixpoint recv_from (incoming : list arrival) (bufsize : nat)
  : (os_error + bytes) * list arrival :=
  match incoming with
  | [] => (inr [], [])
  | Segment [] :: incoming' => recv_from incoming' bufsize
  | Segment segment :: incoming' =>
      if length segment <=? bufsize then (inr segment, incoming')
      else (inr (firstn bufsize segment),
            Segment (skipn bufsize segment) :: incoming')
  | RecvRaises e :: incoming' => (inl e, incoming')
  end.

Definition recv (bufsize : nat) : io bytes :=
  fun w =>
    match recv_from (incoming w) bufsize with
    | (inr chunk, incoming') =>
        (Done chunk, Wire incoming' (send_faults w) (sent w))
    | (inl e, incoming') =>
        (Throws (OSError e), Wire incoming' (send_faults w) (sent w))
    end.

(** [sock.sendall(data)]: the message is sent, or the call raises. *)
Definition sendall (data : bytes) : io unit :=
  fun w =>
    match send_faults w with
    | Some e :: faults => (Throws (OSError e), Wire (incoming w) faults (sent w))
    | None :: faults => (Done tt, Wire (incoming w) faults (sent w ++ [data]))
    | [] => (Done tt, Wire (incoming w) [] (sent w ++ [data]))
    end.

(** The two loops of [receive_packet], as [recv_loop] above. *)
Fixpoint recv_loop (fuel : nat) (want : nat) (buf : bytes)
  : io (option bytes) :=
  if length buf <? want then
    match fuel with
    | O => out_of_fuel
    | S fuel' =>
        chunk <- recv (want - length buf) ;;
        match chunk with
        | [] => ret None
        | _ :: _ => recv_loop fuel' want (buf ++ chunk)
        end
    end
  else ret (Some buf).

Definition receive_packet : io (option bytes) :=
  header <- recv_loop 3 3 [] ;;
  match header with
  | None => ret None
  | Some header =>
      match header with
      | packet_type :: hi :: lo :: _ =>
          let packet_body_length := unpack_be16 hi lo in
          body <- recv_loop packet_body_length packet_body_length [] ;;
          match body with
          | None => ret None
          | Some body => ret (Some (header ++ body))
          end
      | _ => throw (ScanError IndexError)
      end
  end.

Fixpoint login_loop (attempts : nat) : io bool :=
  match attempts with
  | O => ret false
  | S attempts' =>
      packet <- receive_packet ;;
      match packet with
      | None => login_loop attempts'
      | Some [] => login_loop attempts'
      | Some (packet_type :: _) =>
          if ((byte_val packet_type =? 0x30) || (byte_val packet_type =? 0x60))%Z
          then ret true
          else login_loop attempts'
      end
  end.

Fixpoint wait_loop (attempts : nat) (theme_list : list theme_record)
  : io (list theme_record) :=
  match attempts with
  | O => ret theme_list
  | S attempts' =>
      packet <- receive_packet ;;
      match packet with
      | None => wait_loop attempts' theme_list
      | Some [] => wait_loop attempts' theme_list
      | Some ((packet_type :: _) as packet) =>
          if ((byte_val packet_type =? 0x40) || (byte_val packet_type =? 0x60))%Z
          then
            theme_list <- lift (_extract_theme_list_from_packet packet) ;;
            match theme_list with
            | _ :: _ => ret theme_list
            | [] => wait_loop attempts' theme_list
            end
          else wait_loop attempts' theme_list
      end
  end.

Definition send_heartbeat : io unit := sendall heartbeat_cmd.

(** [fetch_theme_list(max_wait_packets, timeout)].  [connect_fault] is
    the exception raised while the connection is set up (socket, TLS
    handshake, [connect]), if any.  Nothing is caught: the [finally]
    clause closes the socket and lets every exception through. *)
Definition fetch_theme_list (login_cmd : bytes) (max_wait_packets : nat)
           (connect_fault : option os_error) : io (list theme_record) :=
  match connect_fault with
  | Some e => throw (OSError e)
  | None =>
      _ <- sendall login_cmd ;;
      logged_in <- login_loop max_wait_packets ;;
      if negb logged_in then throw RuntimeError
      else
        _ <- send_heartbeat ;;
        _ <- sendall THEME_CMD ;;
        wait_loop max_wait_packets []
  end.

(** Code that only reads from the connection, with what it returns:
    nothing is sent, what is still to arrive is part of what was to
    arrive, and the only exceptions are one the transport had in store for
    a [recv] and, where a packet is scanned, the [IndexError] of the
    scan. *)
Definition reads_only {A : Type} (scans : Prop) (m : io A) (post : A -> Prop)
  : Prop :=
  forall w,
    sent (snd (m w)) = sent w
    /\ send_faults (snd (m w)) = send_faults w
    /\ (forall e, In (RecvRaises e) (incoming (snd (m w))) ->
                  In (RecvRaises e) (incoming w))
    /\ match fst (m w) with
       | Done a => post a
       | Throws (OSError e) => In (RecvRaises e) (incoming w)
       | Throws (ScanError e) => scans /\ e = IndexError
       | Throws RuntimeError => False
       | NoFuel => False
       end.

(** The session over the transport and the session on a stream that
    only delivers and closes do the same, when the first is run on such a
    stream: the same result, the same stream left, nothing sent. *)
Definition agrees {A : Type} (m : io A) (plain : socket -> result (A * socket))
  : Prop :=
  forall (sock : socket) (faults : list (option os_error)) (out : list bytes),
    match plain sock with
    | Ok (a, sock') =>
        m (Wire (map Segment sock) faults out)
        = (Done a, Wire (map Segment sock') faults out)
    | Raise e =>
        exists incoming',
          m (Wire (map Segment sock) faults out)
          = (Throws (ScanError e), Wire incoming' faults out)
    | OutOfFuel =>
        exists incoming',
          m (Wire (map Segment sock) faults out)
          = (NoFuel, Wire incoming' faults out)
    end.

End Transport.

(* ================================================================== *)
(** ** export_all_themes_to_excel: the check of the fetched catalog *)

(** The test of the loop that fills [valid_themes] in
    [export_all_themes_to_excel], on a record of the catalog (whose keys
    ["id"] and ["name"] are always present). *)
Definition export_accepts (theme : theme_record) : bool :=
  let theme_id := rec_id theme in
  let theme_name := rec_name theme in
  if negb (truthy theme_id) || negb (isdigit (strip theme_id)) then false
  else if negb (truthy theme_name) || (length theme_name =? 0)
          || (100 <? length theme_name) then false
  else true.

Definition valid_themes (themes : list theme_record) : list theme_record :=
  filter export_accepts themes.

(** [invalid_count] of the same loop. *)
Definition invalid_count (themes : list theme_record) : nat :=
  length (filter (fun theme => negb (export_accepts theme)) themes).

(* ================================================================== *)
(** ** Notions used to state the further properties *)

Definition byte_of_nat (n : nat) : byte := byte_of_Z (Z.of_nat n).

(** A frame: a type byte, the body length on two bytes, big-endian, and
    a body of that length. *)
Definition well_formed_frame (packet : bytes) : Prop :=
  exists packet_type hi lo body,
    packet = packet_type :: hi :: lo :: body
    /\ length body = unpack_be16 hi lo.

(** The type byte of a frame is one of two values. *)
Definition has_type (t1 t2 : Z) (packet : bytes) : bool :=
  match packet with
  | [] => false
  | packet_type :: _ => ((byte_val packet_type =? t1) || (byte_val packet_type =? t2))%Z
  end.

(** A packet that does not end the wait for the catalog: not of type 0x40
    or 0x60, or with an empty catalog. *)
Definition yields_nothing (packet : bytes) : Prop :=
  has_type 0x40 0x60 packet = false
  \/ _extract_theme_list_from_packet packet = Ok [].

(** The fields of a record as the server writes them: id, name and
    possibly a code, as bytes. *)
Record wire_record : Type := WireRecord {
  wire_id : bytes;
  wire_name : bytes;
  wire_code : option bytes
}.

(** The encoding of a record: the id behind the tag 0x0A, the name behind
    the tag 0x12, and the code behind the tag 0x22 when there is one, each
    with a length byte. *)
Definition encode_record (r : wire_record) : bytes :=
  x0a :: byte_of_nat (length (wire_id r)) :: wire_id r
    ++ x12 :: byte_of_nat (length (wire_name r)) :: wire_name r
    ++ match wire_code r with
       | Some code => x22 :: byte_of_nat (length code) :: code
       | None => []
       end.

(** What can be encoded and found again: an id of one to ten ASCII
    digits, a name of at most 255 bytes that does not decode to the empty
    string, a code of at most 255 bytes. *)
Definition encodable (r : wire_record) : Prop :=
  forallb (fun b => is_ascii_digit (byte_val b)) (wire_id r) = true
  /\ 1 <= length (wire_id r) <= 10
  /\ length (wire_name r) <= 255
  /\ truthy (decode_utf8_ignore (wire_name r)) = true
  /\ match wire_code r with
     | Some code => length code <= 255
     | None => True
     end.

(** The dictionary the scan builds for an encoded record. *)
Definition scanned_record (r : wire_record) : theme_data :=
  ThemeData (Some (map byte_val (wire_id r)))
            (Some (decode_utf8_ignore (wire_name r)))
            (option_map decode_utf8_ignore (wire_code r))
            (Some []) None None None None None None None None (Some []).

(** The count of limit-up stocks of a record under construction, when
    the key is there, lies between 0 and 100. *)
Definition limit_up_count_in_range (d : theme_data) : Prop :=
  match td_limit_up_count d with
  | Some v => (0 <= v <= 100)%Z
  | None => True
  end.

(** The way a pass of the outer loop ends, with the index it hands on
    moved by [offset]. *)
Definition shift_ctl (offset : nat) (ctl : loop_ctl) : loop_ctl :=
  match ctl with
  | Break theme_list => Break theme_list
  | Continue index theme_list => Continue (offset + index) theme_list
  end.

(* ================================================================== *)
(** * Properties *)

(** ** Bytes and lists *)

Lemma byte_val_range (b : byte) : (0 <= byte_val b < 256)%Z.
Proof.
  unfold byte_val. pose proof (Byte.to_N_bounded b). lia.
Qed.

Lemma byte_val_of_Z (z : Z) : (0 <= z < 256)%Z -> byte_val (byte_of_Z z) = z.
Proof.
  intros Hz. unfold byte_val, byte_of_Z.
  destruct (Byte.of_N (Z.to_N z)) as [b|] eqn:E.
  - apply Byte.to_of_N in E. rewrite E. lia.
  - apply Byte.of_N_None_iff in E. lia.
Qed.

Lemma skipn_length_app {A} (pre rest : list A) :
  skipn (length pre) (pre ++ rest) = rest.
Proof.
  induction pre as [|a pre IH]; simpl; auto.
Qed.

(** ** parse_varint *)

Lemma low7_high_join (v s : Z) :
  (0 <= s)%Z ->
  Z.lor (Z.shiftl (Z.land v 0x7F) s) (Z.shiftl (Z.shiftr v 7) (s + 7))
  = Z.shiftl v s.
Proof.
  intros Hs. apply Z.bits_inj'. intros n Hn.
  rewrite Z.lor_spec, !Z.shiftl_spec by lia.
  destruct (Z.ltb_spec n s) as [Hlt|Hge].
  - rewrite !Z.testbit_neg_r by lia. reflexivity.
  - rewrite Z.land_spec.
    destruct (Z.ltb_spec (n - s) 7) as [Hlow|Hhigh].
    + rewrite (Z.testbit_neg_r _ (n - (s + 7))) by lia.
      change 0x7F%Z with (Z.ones 7).
      rewrite Z.ones_spec_low by lia.
      rewrite andb_true_r, orb_false_r. reflexivity.
    + change 0x7F%Z with (Z.ones 7).
      rewrite Z.ones_spec_high by lia.
      rewrite andb_false_r, orb_false_l.
      rewrite Z.shiftr_spec by lia. f_equal. lia.
Qed.

Lemma continuation_byte_val (v : Z) :
  let x := Z.lor (Z.land v 0x7F) 0x80 in
  (0 <= x < 256)%Z /\ Z.land x 0x7F = Z.land v 0x7F /\ Z.land x 0x80 = 0x80%Z.
Proof.
  intros x. subst x.
  assert (Hr : (0 <= Z.land v 0x7F < 128)%Z).
  { change 0x7F%Z with (Z.ones 7). rewrite Z.land_ones by lia.
    apply Z.mod_pos_bound. lia. }
  assert (Hadd : Z.lor (Z.land v 0x7F) 0x80 = (Z.land v 0x7F + 128)%Z).
  { rewrite <- Z.lxor_lor.
    - symmetry. apply Z.add_nocarry_lxor.
      rewrite <- Z.land_assoc. change (Z.land 0x7F 0x80) with 0%Z.
      apply Z.land_0_r.
    - rewrite <- Z.land_assoc. change (Z.land 0x7F 0x80) with 0%Z.
      apply Z.land_0_r. }
  split; [lia|]. split.
  - rewrite Z.land_lor_distr_l, <- Z.land_assoc.
    change (Z.land 0x7F 0x7F) with 0x7F%Z. change (Z.land 0x80 0x7F) with 0%Z.
    apply Z.lor_0_r.
  - rewrite Z.land_lor_distr_l, <- Z.land_assoc.
    change (Z.land 0x7F 0x80) with 0%Z. change (Z.land 0x80 0x80) with 0x80%Z.
    rewrite Z.land_0_r. reflexivity.
Qed.

Lemma small_byte_val (v : Z) :
  (0 <= v < 128)%Z -> Z.land v 0x7F = v /\ Z.land v 0x80 = 0%Z.
Proof.
  intros Hv. split.
  - change 0x7F%Z with (Z.ones 7). rewrite Z.land_ones by lia.
    apply Z.mod_small. lia.
  - apply Z.bits_inj'. intros n Hn. rewrite Z.land_spec, Z.bits_0.
    destruct (Z.eq_dec n 7) as [->|Hne].
    + replace (Z.testbit v 7) with false; [reflexivity|].
      symmetry. apply Z.bits_above_log2; [lia|].
      destruct (Z.eq_dec v 0) as [->|Hv0]; [simpl; lia|].
      apply Z.log2_lt_pow2; lia.
    + replace (Z.testbit 0x80 n) with false; [apply andb_false_r|].
      symmetry. change 0x80%Z with (2 ^ 7)%Z. apply Z.pow2_bits_false. lia.
Qed.

Lemma encode_varint_fuel_S (f : nat) (v : Z) :
  encode_varint_fuel (S f) v
  = if (v <? 128)%Z then [byte_of_Z v]
    else byte_of_Z (Z.lor (Z.land v 0x7F) 0x80)
           :: encode_varint_fuel f (Z.shiftr v 7).
Proof. reflexivity. Qed.

Lemma varint_loop_encode (f : nat) :
  forall (v : Z) (tail : bytes) (start : nat) (r s : Z) (pos : nat),
    (0 <= v < 2 ^ (7 * Z.of_nat (S f)))%Z ->
    (0 <= s)%Z ->
    (v < 2 ^ (63 - s))%Z ->
    varint_loop (encode_varint_fuel (S f) v ++ tail) start r s pos
    = Ok (Z.lor r (Z.shiftl v s),
          pos + length (encode_varint_fuel (S f) v) - start).
Proof.
  induction f as [|f IH]; intros v tail start r s pos Hv Hs Hbound.
  - assert (Hsmall : (v < 128)%Z) by (change (2 ^ (7 * Z.of_nat 1))%Z with 128%Z in Hv; lia).
    cbn [encode_varint_fuel]. apply Z.ltb_lt in Hsmall as Hb. rewrite Hb.
    cbn [app varint_loop length].
    rewrite byte_val_of_Z by lia.
    destruct (small_byte_val v) as [H7 H8]; [lia|].
    rewrite H7, H8. cbn [Z.eqb]. do 2 f_equal. lia.
  - rewrite (encode_varint_fuel_S (S f) v).
    destruct (Z.ltb_spec v 128) as [Hsmall|Hbig].
    + cbn [app varint_loop length].
      rewrite byte_val_of_Z by lia.
      destruct (small_byte_val v) as [H7 H8]; [lia|].
      rewrite H7, H8. cbn [Z.eqb]. do 2 f_equal. lia.
    + destruct (continuation_byte_val v) as (Hx & H7 & H8).
      cbn zeta in Hx, H7, H8.
      assert (Hs63 : (s + 7 < 63)%Z).
      { destruct (Z.ltb_spec (s + 7) 63) as [|Hge]; [assumption|].
        assert (2 ^ (63 - s) <= 2 ^ 7)%Z by (apply Z.pow_le_mono_r; lia).
        change (2 ^ 7)%Z with 128%Z in *. lia. }
      cbn [app varint_loop length].
      rewrite byte_val_of_Z by exact Hx.
      rewrite H7, H8. cbn [Z.eqb].
      destruct (Z.leb_spec 64 (s + 7)) as [Hbad|_]; [lia|].
      rewrite IH.
      * rewrite <- Z.lor_assoc, low7_high_join by lia.
        do 2 f_equal. lia.
      * rewrite Z.shiftr_div_pow2 by lia. split.
        -- apply Z.div_pos; lia.
        -- apply Z.div_lt_upper_bound; [lia|].
           rewrite <- Z.pow_add_r by lia.
           replace (7 + 7 * Z.of_nat (S f))%Z with (7 * Z.of_nat (S (S f)))%Z by lia.
           lia.
      * lia.
      * rewrite Z.shiftr_div_pow2 by lia.
        apply Z.div_lt_upper_bound; [lia|].
        rewrite <- Z.pow_add_r by lia.
        replace (7 + (63 - (s + 7)))%Z with (63 - s)%Z by lia. lia.
Qed.

Lemma encode_varint_fuel_enough (v : Z) :
  (0 <= v)%Z -> (v < 2 ^ (7 * Z.of_nat (S (Z.to_nat (Z.log2 v)))))%Z.
Proof.
  intros Hv.
  pose proof (Z.log2_nonneg v) as Hlog.
  destruct (Z.eq_dec v 0) as [->|Hne].
  - apply Z.pow_pos_nonneg; lia.
  - assert (Hspec : (v < 2 ^ Z.succ (Z.log2 v))%Z) by (apply Z.log2_spec; lia).
    eapply Z.lt_le_trans; [exact Hspec|].
    apply Z.pow_le_mono_r; lia.
Qed.

(** C5. Decoding the LEB128 encoding of an unsigned integer of at most 63
    bits gives the integer back and consumes exactly the encoded bytes,
    wherever the encoding stands in the data and whatever follows it; the
    bytes AC 02 decode to 300, two bytes consumed. *)
Theorem parse_varint_roundtrip (v : Z) (pre tail : bytes) :
  (0 <= v < 2 ^ 63)%Z ->
  parse_varint (pre ++ encode_varint v ++ tail) (length pre)
  = Ok (v, length (encode_varint v))
  /\ parse_varint [xac; x02] 0 = Ok (300%Z, 2).
Proof.
  intros Hv. split; [|reflexivity].
  unfold parse_varint, encode_varint.
  rewrite skipn_length_app, varint_loop_encode.
  - rewrite Z.shiftl_0_r, Z.lor_0_l. do 2 f_equal. lia.
  - split; [lia|]. apply encode_varint_fuel_enough. lia.
  - lia.
  - rewrite Z.sub_0_r. lia.
Qed.

Lemma parse_varint_roundtrip_witness :
  parse_varint ([x0a; x01] ++ encode_varint 300 ++ [x38]) 2
  = Ok (300%Z, length (encode_varint 300))
  /\ parse_varint [xac; x02] 0 = Ok (300%Z, 2).
Proof.
  apply (parse_varint_roundtrip 300 [x0a; x01] [x38]). lia.
Defined.

Lemma has_continuation_true (b : byte) :
  has_continuation b = true -> (Z.land (byte_val b) 0x80 =? 0)%Z = false.
Proof.
  unfold has_continuation. intros H. apply negb_true_iff in H. exact H.
Qed.

Lemma has_continuation_false (b : byte) :
  has_continuation b = false -> (Z.land (byte_val b) 0x80 =? 0)%Z = true.
Proof.
  unfold has_continuation. intros H. apply negb_false_iff in H. exact H.
Qed.

(** A run of fewer than ten continuation bytes that reaches the end of the
    data is decoded without an error. *)
Lemma varint_loop_truncated (rest : bytes) :
  forall (start : nat) (r : Z) (k pos : nat),
    forallb has_continuation rest = true ->
    k + length rest < 10 ->
    varint_loop rest start r (7 * Z.of_nat k) pos
    = Ok (Z.lor r (Z.shiftl (varint_value rest) (7 * Z.of_nat k)),
          pos + length rest - start).
Proof.
  induction rest as [|b rest IH]; intros start r k pos Hall Hlen.
  - cbn [varint_loop varint_value length].
    rewrite Z.shiftl_0_l, Z.lor_0_r. do 2 f_equal. lia.
  - cbn [forallb] in Hall. apply andb_true_iff in Hall as [Hb Hall].
    cbn [length] in Hlen.
    cbn [varint_loop varint_value length].
    rewrite (has_continuation_true b Hb).
    destruct (Z.leb_spec 64 (7 * Z.of_nat k + 7)) as [Hbad|_]; [lia|].
    replace (7 * Z.of_nat k + 7)%Z with (7 * Z.of_nat (S k))%Z by lia.
    rewrite IH by (assumption || lia).
    rewrite <- Z.lor_assoc, Z.shiftl_lor, Z.shiftl_shiftl by lia.
    replace (7 + 7 * Z.of_nat k)%Z with (7 * Z.of_nat (S k))%Z by lia.
    do 2 f_equal. lia.
Qed.

Lemma byte_val_clear_continuation (b : byte) :
  byte_val (clear_continuation b) = Z.land (byte_val b) 0x7F.
Proof.
  unfold clear_continuation. apply byte_val_of_Z.
  change 0x7F%Z with (Z.ones 7). rewrite Z.land_ones by lia.
  pose proof (Z.mod_pos_bound (byte_val b) (2 ^ 7)). lia.
Qed.

(** The same run with the bit [0x80] of its last byte cleared, a complete
    varint, decodes to the same value and the same count. *)
Lemma varint_loop_cleared (rest : bytes) :
  forall (tail : bytes) (start : nat) (r : Z) (k pos : nat),
    rest <> [] ->
    forallb has_continuation rest = true ->
    k + length rest < 10 ->
    varint_loop (clear_last rest ++ tail) start r (7 * Z.of_nat k) pos
    = Ok (Z.lor r (Z.shiftl (varint_value rest) (7 * Z.of_nat k)),
          pos + length rest - start).
Proof.
  induction rest as [|b rest IH]; intros tail start r k pos Hne Hall Hlen;
    [congruence|].
  cbn [forallb] in Hall. apply andb_true_iff in Hall as [Hb Hall].
  cbn [length] in Hlen.
  destruct rest as [|b' rest].
  - cbn [clear_last app varint_loop varint_value length].
    rewrite byte_val_clear_continuation.
    assert (Hlow : (0 <= Z.land (byte_val b) 0x7F < 128)%Z).
    { change 0x7F%Z with (Z.ones 7). rewrite Z.land_ones by lia.
      apply Z.mod_pos_bound. lia. }
    destruct (small_byte_val _ Hlow) as [H7 H8]. rewrite H7, H8.
    cbn [Z.eqb]. rewrite Z.shiftl_0_l, Z.lor_0_r. do 2 f_equal. lia.
  - change (clear_last (b :: b' :: rest)) with (b :: clear_last (b' :: rest)).
    cbn [app varint_loop].
    rewrite (has_continuation_true b Hb).
    destruct (Z.leb_spec 64 (7 * Z.of_nat k + 7)) as [Hbad|_]; [lia|].
    replace (7 * Z.of_nat k + 7)%Z with (7 * Z.of_nat (S k))%Z by lia.
    rewrite IH by (congruence || assumption || (cbn [length] in *; lia)).
    change (varint_value (b :: b' :: rest))
      with (Z.lor (Z.land (byte_val b) 0x7F)
                  (Z.shiftl (varint_value (b' :: rest)) 7)).
    rewrite <- Z.lor_assoc, Z.shiftl_lor, Z.shiftl_shiftl by lia.
    replace (7 + 7 * Z.of_nat k)%Z with (7 * Z.of_nat (S k))%Z by lia.
    do 2 f_equal. cbn [length]. lia.
Qed.

(** The loop raises exactly when the bytes it still may read all carry the
    bit [0x80]: [n] is the number of bytes left before the shift reaches
    64, the shift being [70 - 7 * n]. *)
Lemma varint_loop_raises (n : nat) :
  forall (rest : bytes) (start : nat) (r : Z) (pos : nat),
    n <= 10 ->
    (forall e,
        varint_loop rest start r (70 - 7 * Z.of_nat (S n)) pos = Raise e
        <-> e = ValueError /\ continuation_run (S n) rest = true)
    /\ varint_loop rest start r (70 - 7 * Z.of_nat (S n)) pos <> OutOfFuel.
Proof.
  induction n as [|n IH]; intros rest start r pos Hn.
  - destruct rest as [|b rest]; cbn [varint_loop continuation_run].
    + split; [|discriminate]. intros e. split; [discriminate|].
      intros [_ H]. discriminate.
    + destruct (has_continuation b) eqn:Hb.
      * rewrite (has_continuation_true b Hb). cbn.
        split; [|discriminate]. intros e. split.
        -- intros H. inversion H. auto.
        -- intros [-> _]. reflexivity.
      * rewrite (has_continuation_false b Hb). cbn.
        split; [|discriminate]. intros e. split; [discriminate|].
        intros [_ H]. discriminate.
  - destruct rest as [|b rest].
    + cbn [varint_loop continuation_run].
      split; [|discriminate]. intros e. split; [discriminate|].
      intros [_ H]. discriminate.
    + change (continuation_run (S (S n)) (b :: rest))
        with (has_continuation b && continuation_run (S n) rest).
      cbn [varint_loop].
      destruct (has_continuation b) eqn:Hb.
      * rewrite (has_continuation_true b Hb).
        destruct (Z.leb_spec 64 (70 - 7 * Z.of_nat (S (S n)) + 7)) as [Hbad|_];
          [lia|].
        replace (70 - 7 * Z.of_nat (S (S n)) + 7)%Z
          with (70 - 7 * Z.of_nat (S n))%Z by lia.
        rewrite andb_true_l. apply IH. lia.
      * rewrite (has_continuation_false b Hb). rewrite andb_false_l.
        split; [|discriminate]. intros e. split; [discriminate|].
        intros [_ H]. discriminate.
Qed.

(** C10. A varint cut short by the end of the data (every byte read
    carries the continuation bit and there are fewer than ten of them) is
    not an error: the value accumulated so far is returned with the number
    of bytes read, exactly the result for the complete varint that has the
    continuation bit of its last byte cleared.  The only error is
    [ValueError], raised exactly when ten bytes in a row from the start
    index carry the continuation bit, that is when the shift reaches 70. *)
Theorem parse_varint_truncated (pre rest tail : bytes) :
  forallb has_continuation rest = true ->
  length rest < 10 ->
  parse_varint (pre ++ rest) (length pre)
  = Ok (varint_value rest, length rest)
  /\ (rest <> [] ->
      parse_varint (pre ++ clear_last rest ++ tail) (length pre)
      = Ok (varint_value rest, length rest))
  /\ (forall (data : bytes) (start : nat) (e : exn),
         parse_varint data start = Raise e
         <-> e = ValueError /\ continuation_run 10 (skipn start data) = true)
  /\ (forall (data : bytes) (start : nat), parse_varint data start <> OutOfFuel).
Proof.
  intros Hall Hlen. unfold parse_varint.
  split; [|split; [|split]].
  - rewrite skipn_length_app.
    pose proof (varint_loop_truncated rest (length pre) 0 0 (length pre) Hall)
      as H.
    change (7 * Z.of_nat 0)%Z with 0%Z in H. rewrite H by lia.
    rewrite Z.shiftl_0_r, Z.lor_0_l. do 2 f_equal. lia.
  - intros Hne. rewrite skipn_length_app.
    pose proof (varint_loop_cleared rest tail (length pre) 0 0 (length pre)
                                    Hne Hall) as H.
    change (7 * Z.of_nat 0)%Z with 0%Z in H. rewrite H by lia.
    rewrite Z.shiftl_0_r, Z.lor_0_l. do 2 f_equal. lia.
  - intros data start e.
    apply (proj1 (varint_loop_raises 9 (skipn start data) start 0 start
                                     ltac:(lia))).
  - intros data start.
    apply (proj2 (varint_loop_raises 9 (skipn start data) start 0 start
                                     ltac:(lia))).
Qed.

Lemma parse_varint_truncated_witness :
  parse_varint ([x38] ++ [xac; x82]) 1 = Ok (varint_value [xac; x82], 2)
  /\ ([xac; x82] <> [] ->
      parse_varint ([x38] ++ clear_last [xac; x82] ++ [x0a]) 1
      = Ok (varint_value [xac; x82], 2))
  /\ (forall (data : bytes) (start : nat) (e : exn),
         parse_varint data start = Raise e
         <-> e = ValueError /\ continuation_run 10 (skipn start data) = true)
  /\ (forall (data : bytes) (start : nat), parse_varint data start <> OutOfFuel).
Proof.
  apply (parse_varint_truncated [x38] [xac; x82] [x0a]).
  - reflexivity.
  - simpl. lia.
Defined.

(** ** receive_packet *)

Lemma recv_spec (sock : socket) (bufsize : nat) :
  forall chunk sock',
    recv sock bufsize = (chunk, sock') ->
    chunk ++ concat sock' = concat sock
    /\ length chunk <= bufsize
    /\ (0 < bufsize -> chunk = [] -> concat sock = [] /\ sock' = []).
Proof.
  induction sock as [|segment sock IH]; intros chunk sock' H.
  - cbn in H. inversion H. subst. cbn.
    split; [reflexivity|]. split; [lia|]. auto.
  - destruct segment as [|b segment].
    + cbn [recv] in H. cbn [concat app]. apply IH. exact H.
    + cbn [recv] in H.
      destruct (Nat.leb_spec (length (b :: segment)) bufsize) as [Hle|Hgt];
        inversion H; subst; clear H.
      * cbn [concat]. split; [reflexivity|]. split; [exact Hle|].
        intros _ Habs. discriminate.
      * cbn [concat]. rewrite app_assoc, firstn_skipn.
        split; [reflexivity|]. split.
        -- rewrite length_firstn. lia.
        -- intros Hpos Habs. destruct bufsize; [lia|]. discriminate.
Qed.

(** What a receive loop does with enough fuel: it returns the bytes asked
    for when the stream still holds them, and [None] with the stream
    exhausted otherwise. *)
Lemma recv_loop_spec (fuel : nat) :
  forall (want : nat) (buf : bytes) (sock : socket),
    want - length buf <= fuel ->
    (want <= length buf + length (concat sock) ->
     exists sock',
       recv_loop fuel want buf sock
       = Ok (Some (buf ++ firstn (want - length buf) (concat sock)), sock')
       /\ concat sock' = skipn (want - length buf) (concat sock))
    /\ (length buf + length (concat sock) < want ->
        recv_loop fuel want buf sock = Ok (None, [])).
Proof.
  induction fuel as [|fuel IH]; intros want buf sock Hfuel.
  - assert (Hdone : want - length buf = 0) by lia.
    cbn [recv_loop].
    destruct (Nat.ltb_spec (length buf) want) as [Hlt|Hge]; [lia|].
    split; [|lia]. intros _. exists sock.
    rewrite Hdone. cbn. rewrite app_nil_r. auto.
  - cbn [recv_loop].
    destruct (Nat.ltb_spec (length buf) want) as [Hlt|Hge].
    + destruct (recv sock (want - length buf)) as [chunk sock1] eqn:Hrecv.
      destruct (recv_spec _ _ _ _ Hrecv) as (Hcat & Hlen & Hclosed).
      destruct chunk as [|c chunk].
      * destruct Hclosed as [Hempty ->]; [lia|reflexivity|].
        rewrite Hempty. cbn [length]. split; [lia|]. reflexivity.
      * set (ch := c :: chunk) in *.
        assert (Hch : 0 < length ch) by (subst ch; cbn; lia).
        destruct (IH want (buf ++ ch) sock1) as [Hfull Hshort].
        { rewrite length_app. lia. }
        rewrite length_app in Hfull, Hshort.
        rewrite <- Hcat. rewrite length_app.
        split.
        -- intros Hwant. destruct Hfull as (sock' & Heq & Hrest); [lia|].
           exists sock'. rewrite Heq. split.
           ++ do 3 f_equal. rewrite <- app_assoc. f_equal.
              rewrite firstn_app.
              rewrite (@firstn_all2 _ (want - length buf) ch) by lia.
              do 2 f_equal. lia.
           ++ rewrite Hrest. rewrite skipn_app.
              rewrite (@skipn_all2 _ (want - length buf) ch) by lia. cbn [app].
              f_equal. lia.
        -- intros Hwant. apply Hshort. lia.
    + split; [|lia]. intros _. exists sock.
      replace (want - length buf) with 0 by lia.
      cbn. rewrite app_nil_r. auto.
Qed.

(** The result of [receive_packet] in terms of everything the stream
    delivers before it closes. *)
Lemma receive_packet_spec (sock : socket) :
  match concat sock with
  | packet_type :: hi :: lo :: rest =>
      if unpack_be16 hi lo <=? length rest
      then exists sock',
          receive_packet sock
          = Ok (Some (packet_type :: hi :: lo :: firstn (unpack_be16 hi lo) rest),
                sock')
          /\ concat sock' = skipn (unpack_be16 hi lo) rest
      else receive_packet sock = Ok (None, [])
  | _ => receive_packet sock = Ok (None, [])
  end.
Proof.
  unfold receive_packet.
  destruct (recv_loop_spec 3 3 [] sock ltac:(cbn; lia)) as [Hfull Hshort].
  cbn [length Nat.add Nat.sub app] in Hfull, Hshort.
  destruct (concat sock) as [|t [|hi [|lo rest]]] eqn:Hcat;
    try (rewrite Hshort by (cbn [length]; lia); reflexivity).
  destruct Hfull as (sock1 & Hhdr & Hrest1); [cbn [length]; lia|].
  cbn [firstn skipn] in Hhdr, Hrest1. rewrite Hhdr. cbn [bind].
  remember (unpack_be16 hi lo) as L eqn:HL.
  destruct (recv_loop_spec L L [] sock1 ltac:(cbn; lia)) as [Hfull2 Hshort2].
  cbn [length Nat.add app] in Hfull2, Hshort2.
  rewrite Nat.sub_0_r in Hfull2. rewrite Hrest1 in Hfull2, Hshort2.
  destruct (Nat.leb_spec L (length rest)) as [Hbody|Hbody].
  - destruct (Hfull2 Hbody) as (sock2 & Hb & Hrest2). rewrite Hb.
    cbn [bind app]. exists sock2. split; [reflexivity|assumption].
  - rewrite (Hshort2 Hbody). reflexivity.
Qed.

(** C1, as the claim states it, fails: a stream that delivers the header
    40 00 05 and two body bytes and then closes gives the ordinary [None]
    result, the one an already closed stream gives, and no error. *)
Lemma receive_packet_mid_body_closure_returns_none :
  receive_packet [[x40; x00; x05]; [x48; x45]] = Ok (None, [])
  /\ receive_packet [] = Ok (None, []).
Proof.
  split; reflexivity.
Qed.

(** C1, amended. When the stream delivers a complete header declaring a
    body of [L] bytes and closes before [L] body bytes have arrived,
    [receive_packet] returns [None], the value it also returns for a
    stream closed at once, and raises nothing; and whenever it returns a
    packet, that packet is the header followed by exactly the declared
    number of body bytes, taken from the front of the stream. *)
Theorem receive_packet_closure (sock : socket) :
  (forall packet_type hi lo partial,
      concat sock = packet_type :: hi :: lo :: partial ->
      length partial < unpack_be16 hi lo ->
      receive_packet sock = Ok (None, [])
      /\ receive_packet [] = Ok (None, []))
  /\ (forall packet sock',
         receive_packet sock = Ok (Some packet, sock') ->
         exists packet_type hi lo body,
           packet = packet_type :: hi :: lo :: body
           /\ length body = unpack_be16 hi lo
           /\ concat sock = packet ++ concat sock')
  /\ (forall e, receive_packet sock <> Raise e)
  /\ receive_packet sock <> OutOfFuel.
Proof.
  pose proof (receive_packet_spec sock) as Hspec.
  assert (Hclosed : receive_packet [] = Ok (None, [])) by reflexivity.
  destruct (concat sock) as [|t [|hi [|lo rest]]] eqn:Hcat;
    try (rewrite Hspec;
         split; [intros ? ? ? ? Heq; discriminate Heq|];
         split; [intros ? ? Heq; discriminate Heq|];
         split; [intros e Heq; discriminate Heq|discriminate]).
  destruct (Nat.leb_spec (unpack_be16 hi lo) (length rest)) as [Hbody|Hbody].
  - destruct Hspec as (sock1 & Hres & Hrest). rewrite Hres.
    split; [|split; [|split]].
    + intros packet_type hi' lo' partial Heq Hpartial.
      inversion Heq; subst. lia.
    + intros packet sock' Heq. inversion Heq; subst.
      exists t, hi, lo, (firstn (unpack_be16 hi lo) rest).
      split; [reflexivity|].
      split; [rewrite length_firstn; lia|].
      cbn [app]. rewrite Hrest, firstn_skipn. reflexivity.
    + intros e Heq. discriminate Heq.
    + discriminate.
  - rewrite Hspec.
    split; [|split; [|split]].
    + intros. split; [reflexivity|exact Hclosed].
    + intros ? ? Heq. discriminate Heq.
    + intros e Heq. discriminate Heq.
    + discriminate.
Qed.

Lemma receive_packet_closure_witness :
  receive_packet [[x40; x00]; [x05; x48]; [x45]] = Ok (None, [])
  /\ receive_packet [] = Ok (None, []).
Proof.
  apply (proj1 (receive_packet_closure [[x40; x00]; [x05; x48]; [x45]])
               x40 x00 x05 [x48; x45]).
  - reflexivity.
  - cbn. lia.
Defined.

(** ** Searching and indexing *)

Ltac bool_facts :=
  repeat match goal with
         | H : (_ <=? _) = true |- _ => apply Nat.leb_le in H
         | H : (_ <=? _) = false |- _ => apply Nat.leb_gt in H
         | H : (_ <? _) = true |- _ => apply Nat.ltb_lt in H
         | H : (_ <? _) = false |- _ => apply Nat.ltb_ge in H
         | H : (_ =? _) = true |- _ => apply Nat.eqb_eq in H
         | H : (_ =? _) = false |- _ => apply Nat.eqb_neq in H
         end.

Lemma getitem_lt (data : bytes) (i : nat) :
  i < length data -> exists b, getitem data i = Ok b.
Proof.
  intros Hi. unfold getitem.
  destruct (nth_error data i) as [b|] eqn:E; [eauto|].
  apply nth_error_None in E. lia.
Qed.

Lemma getitem_cases (data : bytes) (i : nat) :
  getitem data i = Raise IndexError \/ exists b, getitem data i = Ok b.
Proof.
  unfold getitem. destruct (nth_error data i); eauto.
Qed.

Lemma getitem_ok (data : bytes) (i : nat) (b : byte) :
  getitem data i = Ok b <-> nth_error data i = Some b.
Proof.
  unfold getitem. destruct (nth_error data i); split; congruence.
Qed.

Lemma getitem_app_r (pre post : bytes) (i : nat) :
  getitem (pre ++ post) (length pre + i) = getitem post i.
Proof.
  unfold getitem. rewrite nth_error_app2 by lia.
  replace (length pre + i - length pre) with i by lia. reflexivity.
Qed.

Lemma starts_with_single (b : byte) (rest : bytes) :
  starts_with [b] rest = true <-> exists rest', rest = b :: rest'.
Proof.
  destruct rest as [|c rest]; cbn.
  - split; [discriminate|]. intros [? H]. discriminate.
  - rewrite andb_true_r. split.
    + intros H. apply Byte.byte_dec_bl in H. subst. eauto.
    + intros [? H]. inversion H. apply Byte.byte_dec_lb. reflexivity.
Qed.

(** [find_from] for a one-byte pattern returns the first position that
    holds the byte. *)
Lemma find_from_single (b : byte) (rest : bytes) :
  forall pos p,
    find_from [b] rest pos = Some p ->
    pos <= p
    /\ nth_error rest (p - pos) = Some b
    /\ (forall q, q < p - pos -> nth_error rest q <> Some b).
Proof.
  induction rest as [|c rest IH]; intros pos p H.
  - cbn in H. discriminate.
  - cbn [find_from] in H.
    destruct (starts_with [b] (c :: rest)) eqn:E.
    + inversion H; subst. apply starts_with_single in E as [rest' E].
      inversion E; subst. replace (p - p) with 0 by lia.
      split; [lia|]. split; [reflexivity|]. intros q Hq. lia.
    + apply IH in H as (Hle & Hnth & Hfirst).
      split; [lia|].
      replace (p - pos) with (S (p - S pos)) by lia.
      split; [exact Hnth|].
      intros q Hq. destruct q as [|q].
      * cbn. intros Heq. inversion Heq; subst.
        assert (starts_with [b] (b :: rest) = true)
          by (apply starts_with_single; eauto).
        congruence.
      * cbn. apply Hfirst. lia.
Qed.

Lemma find_from_single_none (b : byte) (rest : bytes) :
  forall pos, find_from [b] rest pos = None -> ~ In b rest.
Proof.
  induction rest as [|c rest IH]; intros pos H; [auto|].
  cbn [find_from] in H.
  destruct (starts_with [b] (c :: rest)) eqn:E; [discriminate|].
  intros [Heq|Hin].
  - subst. assert (starts_with [b] (b :: rest) = true)
      by (apply starts_with_single; eauto). congruence.
  - eapply IH; eauto.
Qed.

Lemma find_single (b : byte) (data : bytes) (start p : nat) :
  find [b] data start = Some p ->
  start <= p < length data
  /\ nth_error data p = Some b
  /\ (forall q, start <= q < p -> nth_error data q <> Some b).
Proof.
  unfold find. intros H.
  destruct (Nat.ltb_spec (length data) start) as [|Hle]; [discriminate|].
  apply find_from_single in H as (Hge & Hnth & Hfirst).
  rewrite nth_error_skipn in Hnth.
  replace (start + (p - start)) with p in Hnth by lia.
  split; [split; [lia|]|split; [exact Hnth|]].
  - apply nth_error_Some. congruence.
  - intros q Hq. specialize (Hfirst (q - start) ltac:(lia)).
    rewrite nth_error_skipn in Hfirst.
    replace (start + (q - start)) with q in Hfirst by lia. exact Hfirst.
Qed.

(** The position found in a window built around an anchor: the bytes
    between the start of the search and the anchor do not hold the byte. *)
Lemma find_single_here (b : byte) (pre post : bytes) (start : nat) :
  start <= length pre ->
  ~ In b (skipn start pre) ->
  find [b] (pre ++ b :: post) start = Some (length pre).
Proof.
  intros Hstart Hnot. unfold find.
  destruct (Nat.ltb_spec (length (pre ++ b :: post)) start) as [Hlt|_].
  { rewrite length_app in Hlt. lia. }
  rewrite skipn_app. replace (start - length pre) with 0 by lia.
  cbn [skipn].
  remember (skipn start pre) as mid eqn:Hmid.
  assert (Hlen : length pre = start + length mid).
  { subst mid. rewrite length_skipn. lia. }
  rewrite Hlen. clear Hmid Hlen Hstart. revert start.
  induction mid as [|c mid IH]; intros start.
  - cbn [app find_from length].
    assert (E : starts_with [b] (b :: post) = true)
      by (apply starts_with_single; eauto).
    rewrite E. f_equal. lia.
  - cbn [app find_from length].
    destruct (starts_with [b] (c :: mid ++ b :: post)) eqn:E.
    + apply starts_with_single in E as [rest' E]. inversion E; subst.
      exfalso. apply Hnot. left. reflexivity.
    + rewrite IH.
      * f_equal. lia.
      * intros Hin. apply Hnot. right. exact Hin.
Qed.

Lemma slice_app_middle (pre mid post : bytes) :
  slice (pre ++ mid ++ post) (length pre) (length pre + length mid) = mid.
Proof.
  unfold slice. rewrite skipn_length_app.
  replace (length pre + length mid - length pre) with (length mid) by lia.
  rewrite firstn_app, firstn_all, Nat.sub_diag. cbn. apply app_nil_r.
Qed.

(** ** The scan of one window *)

Lemma parse_varint_not_out_of_fuel (data : bytes) (start : nat) :
  parse_varint data start <> OutOfFuel.
Proof.
  unfold parse_varint.
  apply (proj2 (varint_loop_raises 9 (skipn start data) start 0 start
                                   ltac:(lia))).
Qed.

(** The trailing-field loop ends without an error when its fuel covers the
    bytes up to [theme_end], and it maintains every property of
    [theme_data] and [all_fields] that the two kinds of decoded field
    maintain. *)
Lemma field_loop_invariant (P : theme_data -> list field_entry -> Prop) :
  (forall d af n v, P d af -> P (store_field n v d) (af ++ [VarintEntry n v])) ->
  (forall d af n len, P d af -> P d (af ++ [LengthDelimitedEntry n len])) ->
  forall fuel theme_body theme_end current_pos d af,
    theme_end - current_pos <= fuel ->
    P d af ->
    exists d' af',
      field_loop fuel theme_body theme_end current_pos d af = Ok (d', af')
      /\ P d' af'.
Proof.
  intros Hvar Hlen.
  induction fuel as [|fuel IH]; intros theme_body theme_end current_pos d af Hfuel HP.
  - cbn [field_loop].
    destruct (Nat.ltb_spec current_pos theme_end); [lia|eauto].
  - cbn [field_loop].
    destruct (Nat.ltb_spec current_pos theme_end) as [Hlt|]; [|eauto].
    destruct (Nat.leb_spec (length theme_body) current_pos) as [|Hin]; [eauto|].
    destruct (getitem_lt theme_body current_pos Hin) as [tag Htag].
    rewrite Htag. cbn [bind].
    destruct (Z.land (byte_val tag) 7 =? 0)%Z.
    + destruct (parse_varint theme_body (current_pos + 1)) as [[v c]| |] eqn:Hv.
      * apply IH; [lia|]. apply Hvar. exact HP.
      * eauto.
      * exfalso. exact (parse_varint_not_out_of_fuel _ _ Hv).
    + destruct (Z.land (byte_val tag) 7 =? 2)%Z; [|eauto].
      destruct (Nat.leb_spec (length theme_body) (current_pos + 1)) as [|Hin2];
        [eauto|].
      destruct (getitem_lt theme_body (current_pos + 1) Hin2) as [lb Hlb].
      rewrite Hlb. cbn [bind].
      destruct (length theme_body <? current_pos + 1 + 1 + Byte.to_nat lb);
        [eauto|].
      apply IH; [lia|]. apply Hlen. exact HP.
Qed.

(** The code field: an [IndexError], or the position and the dictionary
    behind it. *)
Lemma parse_code_cases (theme_body : bytes) (index : nat) (d : theme_data) :
  parse_code theme_body index d = Raise IndexError
  \/ exists index1 d1,
      parse_code theme_body index d = Ok (index1, d1)
      /\ index <= index1
      /\ (index <= length theme_body -> index1 <= length theme_body)
      /\ (d1 = d \/ exists code, d1 = set_code code d).
Proof.
  unfold parse_code.
  destruct (Nat.ltb_spec index (length theme_body)) as [Hlt|Hge].
  - destruct (getitem_lt theme_body index Hlt) as [tag Htag].
    rewrite Htag. cbn [bind].
    destruct (byte_val tag =? 34)%Z.
    + destruct (getitem_cases theme_body (index + 1)) as [Hcb|[cb Hcb]];
        rewrite Hcb; cbn [bind].
      2: destruct (Nat.leb_spec (index + 2 + Byte.to_nat cb) (length theme_body)).
      * left. reflexivity.
      * right. do 2 eexists. split; [reflexivity|].
        split; [lia|]. split; [lia|]. right. eauto.
      * right. do 2 eexists. split; [reflexivity|]. auto.
    + right. do 2 eexists. split; [reflexivity|]. auto.
  - right. do 2 eexists. split; [reflexivity|]. auto.
Qed.

Lemma next_theme_start_bounds (theme_body : bytes) (index1 : nat) :
  index1 <= length theme_body ->
  index1 <= next_theme_start_of theme_body index1 <= length theme_body.
Proof.
  intros Hle. unfold next_theme_start_of.
  destruct (find [x0a] theme_body index1) as [p|] eqn:E; [|lia].
  apply find_single in E. lia.
Qed.

Lemma finish_theme_ok (theme_body : bytes) (theme_start index : nat)
      (d : theme_data) (theme_list : list theme_data)
      (index1 : nat) (d1 : theme_data) :
  theme_start < index ->
  index <= length theme_body ->
  parse_code theme_body index d = Ok (index1, d1) ->
  exists df af,
    let nts := next_theme_start_of theme_body index1 in
    field_loop (nts - index1) theme_body nts index1
               (set_raw_data (slice theme_body index1 nts) d1) []
    = Ok (df, af)
    /\ finish_theme theme_body theme_start index d theme_list
       = Ok (let d2 := set_all_fields af df in
             let theme_list2 :=
               if get_truthy (td_id d2) && get_truthy (td_name d2)
               then theme_list ++ [d2] else theme_list in
             match find [x0a] theme_body index1 with
             | Some p => Continue p theme_list2
             | None => Break theme_list2
             end).
Proof.
  intros Hstart Hindex Hcode.
  destruct (parse_code_cases theme_body index d)
    as [Hraise|(i1 & d1' & Heq & Hle & Hle2 & _)]; [congruence|].
  rewrite Hcode in Heq. inversion Heq; subst i1 d1'. clear Heq.
  specialize (Hle2 Hindex).
  pose proof (next_theme_start_bounds theme_body index1 Hle2) as Hnts.
  destruct (field_loop_invariant (fun _ _ => True)
              ltac:(auto) ltac:(auto)
              (next_theme_start_of theme_body index1 - index1) theme_body
              (next_theme_start_of theme_body index1) index1
              (set_raw_data
                 (slice theme_body index1 (next_theme_start_of theme_body index1))
                 d1) [] ltac:(lia) I) as (df & af & Hloop & _).
  exists df, af. cbn zeta. split; [exact Hloop|].
  unfold finish_theme. rewrite Hcode. cbn [bind].
  fold (next_theme_start_of theme_body index1).
  rewrite Hloop. cbn [bind].
  destruct (Nat.leb_spec (next_theme_start_of theme_body index1) theme_start);
    [lia|].
  unfold next_theme_start_of in *.
  destruct (find [x0a] theme_body index1) as [p|] eqn:E.
  - apply find_single in E.
    destruct (Nat.leb_spec (length theme_body) p); [lia|reflexivity].
  - rewrite Nat.leb_refl. reflexivity.
Qed.

Lemma finish_theme_raise (theme_body : bytes) (theme_start index : nat)
      (d : theme_data) (theme_list : list theme_data) (e : exn) :
  parse_code theme_body index d = Raise e ->
  finish_theme theme_body theme_start index d theme_list = Raise e.
Proof.
  intros H. unfold finish_theme. rewrite H. reflexivity.
Qed.

(** The ways one pass of the outer loop ends, with [next_id] the anchor
    it found: the scan stops, the anchor is rejected, a record with an id
    only is kept and the scan stops, or the record is completed by
    [finish_theme]. *)
Lemma scan_iteration_cases (theme_body : bytes) (index : nat)
      (theme_list : list theme_data) :
  match find [x0a] theme_body index with
  | None => scan_iteration theme_body index theme_list = Ok (Break theme_list)
  | Some next_id =>
      scan_iteration theme_body index theme_list = Ok (Break theme_list)
      \/ scan_iteration theme_body index theme_list
         = Ok (Continue (next_id + 1) theme_list)
      \/ exists id_byte,
          getitem theme_body (next_id + 1) = Ok id_byte
          /\ next_id + 2 + Byte.to_nat id_byte <= length theme_body
          /\ Byte.to_nat id_byte <= 20
          /\ let payload :=
               slice theme_body (next_id + 2) (next_id + 2 + Byte.to_nat id_byte) in
             let d := set_id (strip (decode_utf8_ignore payload)) empty_theme_data in
             accepted_id payload = true
             /\ (scan_iteration theme_body index theme_list
                 = Ok (Continue (next_id + 1) theme_list)
                 \/ scan_iteration theme_body index theme_list
                    = Ok (Break (theme_list ++ [d]))
                 \/ exists name_byte,
                     let index1 := next_id + 2 + Byte.to_nat id_byte in
                     let index2 := index1 + 2 + Byte.to_nat name_byte in
                     getitem theme_body index1 = Ok x12
                     /\ getitem theme_body (index1 + 1) = Ok name_byte
                     /\ index2 <= length theme_body
                     /\ scan_iteration theme_body index theme_list
                        = finish_theme theme_body index index2
                            (set_name
                               (decode_utf8_ignore
                                  (slice theme_body (index1 + 2) index2)) d)
                            theme_list)
  end.
Proof.
  unfold scan_iteration.
  destruct (find [x0a] theme_body index) as [next_id|] eqn:Hfind; [|reflexivity].
  destruct (Nat.leb_spec (length theme_body) (next_id + 2)) as [|Hroom]; [auto|].
  destruct (getitem_lt theme_body (next_id + 1) ltac:(lia)) as [id_byte Hid].
  rewrite Hid. cbn [bind].
  destruct (Nat.ltb_spec (length theme_body) (next_id + 2 + Byte.to_nat id_byte))
    as [|Hfit]; [auto|].
  destruct (Nat.ltb_spec 20 (Byte.to_nat id_byte)) as [|Hshort]; [auto|].
  set (payload := slice theme_body (next_id + 2) (next_id + 2 + Byte.to_nat id_byte)).
  destruct (truthy (decode_utf8_ignore payload)) eqn:Htruthy; cbn [negb orb];
    [|auto].
  destruct (isdigit (strip (decode_utf8_ignore payload))) eqn:Hdigit; cbn [negb];
    [|auto].
  destruct (Nat.ltb_spec 10 (length (strip (decode_utf8_ignore payload))))
    as [|Hlen]; [auto|].
  right. right. exists id_byte.
  split; [first [exact Hid|reflexivity]|]. split; [lia|]. split; [lia|].
  cbn zeta. fold payload.
  assert (Hacc : accepted_id payload = true).
  { unfold accepted_id. rewrite Htruthy, Hdigit. cbn [andb].
    apply Nat.leb_le. exact Hlen. }
  split; [exact Hacc|].
  assert (Hidt : get_truthy
                   (td_id (set_id (strip (decode_utf8_ignore payload))
                                  empty_theme_data)) = true).
  { cbn [set_id td_id get_truthy]. unfold isdigit in Hdigit.
    apply andb_true_iff in Hdigit. tauto. }
  destruct (Nat.leb_spec (length theme_body - 1)
                         (next_id + 2 + Byte.to_nat id_byte)) as [|Hmore].
  { right. left. unfold append_if_id. rewrite Hidt. reflexivity. }
  destruct (getitem_lt theme_body (next_id + 2 + Byte.to_nat id_byte)
                       ltac:(lia)) as [tag Htag].
  rewrite Htag. cbn [bind].
  destruct (Z.eqb_spec (byte_val tag) 18) as [Htag12|]; [|auto].
  assert (tag = x12).
  { revert Htag12. clear. destruct tag; cbv; congruence. }
  subst tag.
  destruct (getitem_lt theme_body (next_id + 2 + Byte.to_nat id_byte + 1)
                       ltac:(lia)) as [name_byte Hname].
  rewrite Hname. cbn [bind].
  destruct (Nat.ltb_spec (length theme_body)
              (next_id + 2 + Byte.to_nat id_byte + 2 + Byte.to_nat name_byte))
    as [|Hnamefit].
  { right. left. unfold append_if_id. rewrite Hidt. reflexivity. }
  right. right. exists name_byte.
  split; [first [exact Htag|reflexivity]|].
  split; [first [exact Hname|reflexivity]|]. split; [lia|]. reflexivity.
Qed.

(** A pass that goes back to the loop test has moved the position behind
    the anchor it found; a pass never runs out of fuel, and the only
    exception it lets through is [IndexError]. *)
Lemma scan_iteration_advances (theme_body : bytes) (index : nat)
      (theme_list : list theme_data) :
  (forall index' theme_list',
      scan_iteration theme_body index theme_list
      = Ok (Continue index' theme_list') ->
      exists next_id,
        find [x0a] theme_body index = Some next_id
        /\ index <= next_id < index')
  /\ scan_iteration theme_body index theme_list <> OutOfFuel
  /\ (forall e, scan_iteration theme_body index theme_list = Raise e ->
                e = IndexError).
Proof.
  pose proof (scan_iteration_cases theme_body index theme_list) as Hcases.
  destruct (find [x0a] theme_body index) as [next_id|] eqn:Hfind.
  2:{ rewrite Hcases. repeat split; intros; discriminate. }
  pose proof (find_single _ _ _ _ Hfind) as (Hrange & _ & _).
  assert (Hrej : forall r,
             r = Ok (Continue (next_id + 1) theme_list) ->
             (forall index' theme_list',
                 r = Ok (Continue index' theme_list') ->
                 exists next_id0,
                   Some next_id = Some next_id0 /\ index <= next_id0 < index')
             /\ r <> OutOfFuel
             /\ (forall e, r = Raise e -> e = IndexError)).
  { intros r ->. repeat split; try discriminate.
    intros i' tl' H. inversion H; subst. exists next_id. split; [reflexivity|lia]. }
  assert (Hbrk : forall r l,
             r = Ok (Break l) ->
             (forall index' theme_list',
                 r = Ok (Continue index' theme_list') ->
                 exists next_id0,
                   Some next_id = Some next_id0 /\ index <= next_id0 < index')
             /\ r <> OutOfFuel
             /\ (forall e, r = Raise e -> e = IndexError)).
  { intros r l ->. repeat split; intros; discriminate. }
  destruct Hcases as [H|[H|(id_byte & _ & Hfit & _ & Hrest)]];
    [eapply Hbrk; eauto|eapply Hrej; eauto|].
  cbn zeta in Hrest. destruct Hrest as (_ & [H|[H|(name_byte & _ & _ & Hfit2 & H)]]);
    [eapply Hrej; eauto|eapply Hbrk; eauto|].
  rewrite H. clear H Hrej Hbrk.
  match goal with
  | |- context [finish_theme theme_body index ?i2 ?d theme_list] =>
      set (d0 := d); set (index2 := i2)
  end.
  destruct (parse_code_cases theme_body index2 d0)
    as [Hraise|(index1 & d1 & Hcode & Hle & _ & _)].
  - rewrite (finish_theme_raise _ _ _ _ _ _ Hraise).
    repeat split; try discriminate. intros e H. inversion H. reflexivity.
  - destruct (finish_theme_ok theme_body index index2 d0 theme_list index1 d1)
      as (df & af & _ & Hfin); [subst index2; lia|exact Hfit2|exact Hcode|].
    rewrite Hfin. cbn zeta.
    destruct (find [x0a] theme_body index1) as [p|] eqn:Hfind1.
    + apply find_single in Hfind1 as (Hp & _).
      repeat split; try discriminate.
      intros i' tl' H. inversion H; subst i' tl'.
      exists next_id. split; [reflexivity|]. subst index2. lia.
    + repeat split; intros; discriminate.
Qed.

Lemma scan_loop_outcome (fuel : nat) :
  forall (theme_body : bytes) (index : nat) (theme_list : list theme_data),
    length theme_body - index <= fuel ->
    (exists l, scan_loop fuel theme_body index theme_list = Ok l)
    \/ scan_loop fuel theme_body index theme_list = Raise IndexError.
Proof.
  induction fuel as [|fuel IH]; intros theme_body index theme_list Hfuel.
  - cbn [scan_loop].
    destruct (Nat.ltb_spec index (length theme_body)); [lia|eauto].
  - cbn [scan_loop].
    destruct (Nat.ltb_spec index (length theme_body)) as [Hlt|]; [|eauto].
    destruct (scan_iteration_advances theme_body index theme_list)
      as (Hadv & Hfuel' & Hexn).
    destruct (scan_iteration theme_body index theme_list) as [[l|i' l]|e|] eqn:E;
      cbn [bind].
    + eauto.
    + destruct (Hadv i' l eq_refl) as (next_id & _ & Hlt').
      apply IH. lia.
    + right. rewrite (Hexn e eq_refl). reflexivity.
    + congruence.
Qed.

(** C8. The scan of a window terminates: a pass of the outer loop that is
    followed by another one has moved the scan position strictly forward,
    to a position behind the anchor it found, so a window of [n] bytes
    takes at most [n] passes, after which [parse_theme_list] has returned
    its list or raised [IndexError]. *)
Theorem parse_theme_list_terminates (theme_body : bytes) :
  (forall index theme_list index' theme_list',
      scan_iteration theme_body index theme_list
      = Ok (Continue index' theme_list') ->
      index < index'
      /\ exists next_id,
          find [x0a] theme_body index = Some next_id /\ next_id < index')
  /\ (forall index theme_list,
         scan_loop (length theme_body - index) theme_body index theme_list
         <> OutOfFuel)
  /\ ((exists l, parse_theme_list theme_body = Ok l)
      \/ parse_theme_list theme_body = Raise IndexError).
Proof.
  split; [|split].
  - intros index theme_list index' theme_list' H.
    destruct (scan_iteration_advances theme_body index theme_list) as (Hadv & _).
    destruct (Hadv _ _ H) as (next_id & Hfind & Hrange).
    split; [lia|]. exists next_id. split; [exact Hfind|lia].
  - intros index theme_list.
    destruct (scan_loop_outcome (length theme_body - index) theme_body index
                                theme_list (le_n _)) as [[l H]|H];
      rewrite H; discriminate.
  - unfold parse_theme_list. apply scan_loop_outcome. lia.
Qed.

(** ** Ids with an ASCII character that is not a digit *)

Lemma continuation_byte_high (b : byte) :
  is_continuation_byte b = true -> (128 <= byte_val b)%Z.
Proof.
  unfold is_continuation_byte. intros H.
  apply andb_true_iff in H as [H _]. apply Z.leb_le in H. exact H.
Qed.

Lemma in_tail_of_high (b b2 : byte) (r2 : bytes) :
  (byte_val b < 128)%Z -> (128 <= byte_val b2)%Z ->
  In b (b2 :: r2) -> In b r2.
Proof.
  intros Hb Hb2 [<-|H]; [lia|exact H].
Qed.

(** Decoding keeps every ASCII byte: only bytes from 0x80 on are dropped
    or merged into a code point. *)
Lemma decode_keeps_ascii (n : nat) :
  forall (s : bytes) (b : byte),
    length s <= n ->
    In b s ->
    (byte_val b < 128)%Z ->
    In (byte_val b) (decode_utf8_ignore s).
Proof.
  induction n as [|n IH]; intros s b Hlen Hin Hb.
  - destruct s; [contradiction|cbn in Hlen; lia].
  - destruct s as [|b1 r1]; [contradiction|]. cbn [length] in Hlen.
    cbn [decode_utf8_ignore].
    destruct (Z.ltb_spec (byte_val b1) 0x80) as [Hascii|Hhigh].
    { destruct Hin as [->|Hin]; [left; reflexivity|].
      right. apply IH; [lia|assumption..]. }
    apply (in_tail_of_high b b1 r1 Hb Hhigh) in Hin.
    assert (H1 : In (byte_val b) (decode_utf8_ignore r1))
      by (apply IH; [lia|assumption..]).
    destruct (byte_val b1 <? 0xC2)%Z; [exact H1|].
    destruct r1 as [|b2 r2]; [destruct (_ <? _)%Z; [|destruct (_ <? _)%Z;
                                [|destruct (_ <? _)%Z]]; assumption|].
    cbn [length] in Hlen.
    assert (H2 : is_continuation_byte b2 = true ->
                 In b r2 /\ In (byte_val b) (decode_utf8_ignore r2)).
    { intros Hc. apply continuation_byte_high in Hc.
      apply (in_tail_of_high b b2 r2 Hb Hc) in Hin.
      split; [exact Hin|]. apply IH; [lia|assumption..]. }
    destruct (byte_val b1 <? 0xE0)%Z.
    { destruct (is_continuation_byte b2); [|exact H1].
      right. apply H2. reflexivity. }
    destruct (byte_val b1 <? 0xF0)%Z.
    { destruct (is_continuation_byte b2); cbn [negb orb]; [|exact H1].
      destruct (if (byte_val b2 <? 0xA0)%Z then (byte_val b1 =? 0xE0)%Z
                else (byte_val b1 =? 0xED)%Z); [exact H1|].
      destruct (H2 eq_refl) as [Hin2 Hd2].
      destruct r2 as [|b3 r3]; [contradiction|]. cbn [length] in Hlen.
      destruct (is_continuation_byte b3) eqn:Hc3; [|exact Hd2].
      right. apply IH; [lia| |exact Hb].
      apply continuation_byte_high in Hc3.
      exact (in_tail_of_high b b3 r3 Hb Hc3 Hin2). }
    destruct (byte_val b1 <? 0xF5)%Z; [|exact H1].
    destruct (is_continuation_byte b2); cbn [negb orb]; [|exact H1].
    destruct (if (byte_val b2 <? 0x90)%Z then (byte_val b1 =? 0xF0)%Z
              else (byte_val b1 =? 0xF4)%Z); [exact H1|].
    destruct (H2 eq_refl) as [Hin2 Hd2].
    destruct r2 as [|b3 r3]; [contradiction|]. cbn [length] in Hlen.
    destruct (is_continuation_byte b3) eqn:Hc3; cbn [negb]; [|exact Hd2].
    apply continuation_byte_high in Hc3.
    pose proof (in_tail_of_high b b3 r3 Hb Hc3 Hin2) as Hin3.
    destruct r3 as [|b4 r4]; [contradiction|]. cbn [length] in Hlen.
    destruct (is_continuation_byte b4) eqn:Hc4.
    + right. apply IH; [lia| |exact Hb].
      apply continuation_byte_high in Hc4.
      exact (in_tail_of_high b b4 r4 Hb Hc4 Hin3).
    + apply IH; [cbn [length]; lia|exact Hin3|exact Hb].
Qed.

Lemma lstrip_keeps (c : Z) (s : pystr) :
  isspace_char c = false -> In c s -> In c (lstrip s).
Proof.
  intros Hc. induction s as [|x s IH]; [auto|].
  intros [->|Hin]; cbn [lstrip].
  - rewrite Hc. left. reflexivity.
  - destruct (isspace_char x); [auto|right; exact Hin].
Qed.

Lemma strip_keeps (c : Z) (s : pystr) :
  isspace_char c = false -> In c s -> In c (strip s).
Proof.
  intros Hc Hin. unfold strip.
  apply in_rev. rewrite rev_involutive.
  apply lstrip_keeps; [exact Hc|]. apply -> in_rev.
  apply lstrip_keeps; assumption.
Qed.

(** On ASCII, [str.isdigit] accepts the characters 0 to 9 only. *)
Lemma isdigit_char_ascii (c : Z) :
  (c < 128)%Z -> isdigit_char c = is_ascii_digit c.
Proof.
  intros Hc. unfold isdigit_char, in_ranges.
  change digit_ranges with ((48, 57)%Z :: tl digit_ranges).
  cbn [existsb fst snd]. fold (is_ascii_digit c).
  replace (existsb _ (tl digit_ranges)) with false; [apply orb_false_r|].
  symmetry. apply not_true_is_false. intros H.
  apply existsb_exists in H as (r & Hin & Hr).
  apply andb_true_iff in Hr as [Hlo _]. apply Z.leb_le in Hlo.
  assert (Hall : Forall (fun r => (128 <= fst r)%Z) (tl digit_ranges))
    by (cbn [tl digit_ranges]; repeat constructor; cbn [fst]; lia).
  rewrite Forall_forall in Hall. specialize (Hall r Hin). lia.
Qed.

(** An id payload that holds an ASCII byte other than a digit and other
    than white space fails the scanner's test. *)
Lemma ascii_non_digit_not_accepted (payload : bytes) (b : byte) :
  In b payload ->
  (byte_val b < 128)%Z ->
  is_ascii_digit (byte_val b) = false ->
  isspace_char (byte_val b) = false ->
  accepted_id payload = false.
Proof.
  intros Hin Hb Hdigit Hspace. unfold accepted_id. cbn zeta.
  assert (Hdec : In (byte_val b) (strip (decode_utf8_ignore payload))).
  { apply strip_keeps; [exact Hspace|].
    apply (decode_keeps_ascii (length payload)); auto. }
  assert (Hno : isdigit (strip (decode_utf8_ignore payload)) = false).
  { unfold isdigit. apply andb_false_iff. right.
    apply not_true_is_false. intros Hall.
    rewrite forallb_forall in Hall. specialize (Hall _ Hdec).
    rewrite isdigit_char_ascii in Hall by exact Hb. congruence. }
  rewrite Hno. rewrite andb_false_r. reflexivity.
Qed.

(** ** Rejected anchors *)

Lemma window_length (pre : bytes) (id_byte : byte) (rest : bytes) :
  length (pre ++ x0a :: id_byte :: rest) = length pre + 2 + length rest.
Proof.
  rewrite length_app. cbn [length]. lia.
Qed.

Lemma window_id_byte (pre : bytes) (id_byte : byte) (rest : bytes) :
  getitem (pre ++ x0a :: id_byte :: rest) (length pre + 1) = Ok id_byte.
Proof.
  rewrite getitem_app_r. reflexivity.
Qed.

Lemma window_payload (pre : bytes) (id_byte : byte) (payload post : bytes) :
  slice (pre ++ x0a :: id_byte :: payload ++ post)
        (length pre + 2) (length pre + 2 + length payload)
  = payload.
Proof.
  replace (pre ++ x0a :: id_byte :: payload ++ post)
    with ((pre ++ [x0a; id_byte]) ++ payload ++ post)
    by (rewrite <- app_assoc; reflexivity).
  replace (length pre + 2) with (length (pre ++ [x0a; id_byte]))
    by (rewrite length_app; reflexivity).
  apply slice_app_middle.
Qed.

(** An anchor whose id fails the scanner's tests: the pass ends one byte
    behind the anchor with the list unchanged. *)
Lemma scan_iteration_rejects (pre payload post : bytes) (id_byte : byte)
      (index : nat) (theme_list : list theme_data) :
  index <= length pre ->
  ~ In x0a (skipn index pre) ->
  Byte.to_nat id_byte = length payload ->
  0 < length payload + length post ->
  20 < length payload \/ accepted_id payload = false ->
  scan_iteration (pre ++ x0a :: id_byte :: payload ++ post) index theme_list
  = Ok (Continue (length pre + 1) theme_list).
Proof.
  intros Hindex Hfree Hlen Hroom Hbad.
  unfold scan_iteration.
  rewrite (find_single_here x0a pre (id_byte :: payload ++ post) index Hindex Hfree).
  rewrite window_length, length_app.
  destruct (Nat.leb_spec (length pre + 2 + (length payload + length post))
                         (length pre + 2)) as [|_]; [lia|].
  rewrite window_id_byte. cbn [bind]. rewrite Hlen.
  destruct (Nat.ltb_spec (length pre + 2 + (length payload + length post))
                         (length pre + 2 + length payload)) as [|_]; [lia|].
  destruct (Nat.ltb_spec 20 (length payload)) as [|Hshort]; [reflexivity|].
  destruct Hbad as [|Hbad]; [lia|].
  rewrite window_payload.
  unfold accepted_id in Hbad. cbn zeta in Hbad.
  destruct (truthy (decode_utf8_ignore payload)); cbn [negb orb andb] in *;
    [|reflexivity].
  destruct (isdigit (strip (decode_utf8_ignore payload))); cbn [negb andb] in *;
    [|reflexivity].
  apply Nat.leb_gt in Hbad.
  destruct (Nat.ltb_spec 10 (length (strip (decode_utf8_ignore payload))));
    [reflexivity|lia].
Qed.

(** An anchor whose declared id length runs past the end of the window. *)
Lemma scan_iteration_rejects_overrun (pre rest : bytes) (id_byte : byte)
      (index : nat) (theme_list : list theme_data) :
  index <= length pre ->
  ~ In x0a (skipn index pre) ->
  0 < length rest < Byte.to_nat id_byte ->
  scan_iteration (pre ++ x0a :: id_byte :: rest) index theme_list
  = Ok (Continue (length pre + 1) theme_list).
Proof.
  intros Hindex Hfree Hlen.
  unfold scan_iteration.
  rewrite (find_single_here x0a pre (id_byte :: rest) index Hindex Hfree).
  rewrite window_length.
  destruct (Nat.leb_spec (length pre + 2 + length rest) (length pre + 2))
    as [|_]; [lia|].
  rewrite window_id_byte. cbn [bind].
  destruct (Nat.ltb_spec (length pre + 2 + length rest)
                         (length pre + 2 + Byte.to_nat id_byte)) as [|];
    [reflexivity|lia].
Qed.

(** C6, as the claim states it, fails: the id bytes "12 " are not all
    ASCII digits, and the anchor is accepted: the pass yields a record
    with the id "12". *)
Lemma id_with_trailing_space_accepted :
  forallb is_ascii_digit (map byte_val [x31; x32; x20]) = false
  /\ exists d,
      scan_iteration [x0a; x03; x31; x32; x20; x12; x01; x41] 0 []
      = Ok (Break [d])
      /\ td_id d = Some [49; 50]%Z.
Proof.
  split; [reflexivity|]. eexists. split; reflexivity.
Qed.

(** C6, amended. For every window and every scan position, a 0x0A anchor
    with at least one byte behind its length byte is rejected, and the
    scan position moves to exactly one byte behind the anchor byte, when
    the id payload is longer than 20 bytes, when it overruns the window,
    or when the payload, decoded with undecodable bytes dropped and
    stripped of surrounding white space, is empty, fails the digit test or
    is longer than 10 characters.  A payload that holds an ASCII
    character other than a digit and other than white space fails the
    digit test.  The payloads "12a" and "12345678901" are rejected in this
    way, wherever the anchor stands in the window. *)
Theorem rejected_anchor_resynchronizes (pre post : bytes) (index : nat)
        (theme_list : list theme_data) :
  index <= length pre ->
  ~ In x0a (skipn index pre) ->
  (forall payload id_byte,
      Byte.to_nat id_byte = length payload ->
      0 < length payload + length post ->
      20 < length payload \/ accepted_id payload = false ->
      scan_iteration (pre ++ x0a :: id_byte :: payload ++ post) index theme_list
      = Ok (Continue (length pre + 1) theme_list))
  /\ (forall id_byte,
         0 < length post < Byte.to_nat id_byte ->
         scan_iteration (pre ++ x0a :: id_byte :: post) index theme_list
         = Ok (Continue (length pre + 1) theme_list))
  /\ (forall payload id_byte b,
         Byte.to_nat id_byte = length payload ->
         In b payload ->
         (byte_val b < 128)%Z ->
         is_ascii_digit (byte_val b) = false ->
         isspace_char (byte_val b) = false ->
         scan_iteration (pre ++ x0a :: id_byte :: payload ++ post) index theme_list
         = Ok (Continue (length pre + 1) theme_list))
  /\ scan_iteration (pre ++ x0a :: x03 :: [x31; x32; x61] ++ post)
                    index theme_list
     = Ok (Continue (length pre + 1) theme_list)
  /\ scan_iteration
       (pre ++ x0a :: x0b
            :: [x31; x32; x33; x34; x35; x36; x37; x38; x39; x30; x31] ++ post)
       index theme_list
     = Ok (Continue (length pre + 1) theme_list).
Proof.
  intros Hindex Hfree.
  split; [|split; [|split; [|split]]].
  - intros payload id_byte Hlen Hroom Hbad.
    apply scan_iteration_rejects; assumption.
  - intros id_byte Hlen. apply scan_iteration_rejects_overrun; assumption.
  - intros payload id_byte b Hlen Hin Hb Hdigit Hspace.
    apply scan_iteration_rejects; try assumption.
    + destruct payload; [contradiction|cbn [length]; lia].
    + right. exact (ascii_non_digit_not_accepted payload b Hin Hb Hdigit Hspace).
  - apply scan_iteration_rejects; try assumption; try reflexivity.
    + cbn [length]. lia.
    + right. reflexivity.
  - apply scan_iteration_rejects; try assumption; try reflexivity.
    + cbn [length]. lia.
    + right. reflexivity.
Qed.

Lemma rejected_anchor_resynchronizes_witness :
  scan_iteration ([x00; x52] ++ x0a :: x03 :: [x31; x32; x61] ++ [x12; x01; x41])
                 0 []
  = Ok (Continue (length [x00; x52] + 1) []).
Proof.
  apply (proj1 (proj2 (proj2 (proj2 (rejected_anchor_resynchronizes
                                       [x00; x52] [x12; x01; x41] 0 []
                                       ltac:(cbn; lia)
                                       ltac:(cbn; intuition discriminate)))))).
Defined.

(** ** The records a scan appends *)

Lemma scan_iteration_list (theme_body : bytes) (index : nat)
      (theme_list : list theme_data) (ctl : loop_ctl) :
  scan_iteration theme_body index theme_list = Ok ctl ->
  ctl_list ctl = theme_list
  \/ exists d, ctl_list ctl = theme_list ++ [d] /\ scanned theme_body d.
Proof.
  intros Hrun.
  pose proof (scan_iteration_cases theme_body index theme_list) as Hcases.
  destruct (find [x0a] theme_body index) as [next_id|] eqn:Hfind.
  2:{ rewrite Hcases in Hrun. inversion Hrun. left. reflexivity. }
  pose proof (find_single _ _ _ _ Hfind) as (Hrange & _ & _).
  assert (Hsame : forall c,
             ctl_list c = theme_list ->
             scan_iteration theme_body index theme_list = Ok c ->
             ctl_list ctl = theme_list
             \/ exists d, ctl_list ctl = theme_list ++ [d] /\ scanned theme_body d).
  { intros c Hc H. rewrite H in Hrun. injection Hrun as <-. left. exact Hc. }
  destruct Hcases as [H|[H|(id_byte & _ & Hfit & _ & Hrest)]];
    [eapply Hsame; eauto; reflexivity..|].
  cbn zeta in Hrest.
  destruct Hrest as (_ & [H|[H|(name_byte & _ & _ & Hfit2 & H)]]);
    [eapply Hsame; eauto; reflexivity| |].
  - rewrite H in Hrun. injection Hrun as <-. right.
    eexists. split; [reflexivity|]. left. eauto.
  - rewrite H in Hrun. clear H Hsame.
    match type of Hrun with
    | finish_theme theme_body index ?i2 ?d theme_list = _ =>
        set (d0 := d) in Hrun; set (index2 := i2) in *
    end.
    destruct (parse_code_cases theme_body index2 d0)
      as [Hraise|(index1 & d1 & Hcode & Hle & Hle2 & Hd1)].
    { rewrite (finish_theme_raise _ _ _ _ _ _ Hraise) in Hrun. discriminate. }
    destruct (finish_theme_ok theme_body index index2 d0 theme_list index1 d1)
      as (df & af & Hloop & Hfin); [subst index2; lia|exact Hfit2|exact Hcode|].
    cbn zeta in Hloop, Hfin. rewrite Hfin in Hrun.
    pose proof (next_theme_start_bounds theme_body index1 (Hle2 Hfit2)) as Hnts.
    assert (Hscanned : scanned theme_body (set_all_fields af df)).
    { right. do 9 eexists. cbn zeta.
      split; [exact Hd1|]. split; [|split; [exact Hloop|reflexivity]]. lia. }
    destruct (get_truthy (td_id (set_all_fields af df))
              && get_truthy (td_name (set_all_fields af df)));
      destruct (find [x0a] theme_body index1);
      inversion Hrun; subst; cbn [ctl_list]; eauto.
Qed.

Lemma scan_loop_list (fuel : nat) :
  forall (theme_body : bytes) (index : nat) (theme_list l : list theme_data),
    scan_loop fuel theme_body index theme_list = Ok l ->
    exists added, l = theme_list ++ added /\ Forall (scanned theme_body) added.
Proof.
  induction fuel as [|fuel IH]; intros theme_body index theme_list l Hrun.
  - cbn [scan_loop] in Hrun.
    destruct (index <? length theme_body); [discriminate|].
    inversion Hrun; subst. exists []. rewrite app_nil_r. auto.
  - cbn [scan_loop] in Hrun.
    destruct (index <? length theme_body).
    2:{ inversion Hrun; subst. exists []. rewrite app_nil_r. auto. }
    destruct (scan_iteration theme_body index theme_list) as [ctl| |] eqn:Hit;
      cbn [bind] in Hrun; try discriminate.
    pose proof (scan_iteration_list _ _ _ _ Hit) as Hlist.
    destruct ctl as [tl|i' tl]; cbn [ctl_list] in Hlist.
    + inversion Hrun; subst l.
      destruct Hlist as [->|(d & -> & Hd)].
      * exists []. rewrite app_nil_r. auto.
      * exists [d]. auto.
    + apply IH in Hrun as (added & -> & Hadded).
      destruct Hlist as [->|(d & -> & Hd)].
      * exists added. auto.
      * exists (d :: added). rewrite <- app_assoc. auto.
Qed.

Lemma parse_theme_list_scanned (theme_body : bytes) (l : list theme_data) :
  parse_theme_list theme_body = Ok l -> Forall (scanned theme_body) l.
Proof.
  unfold parse_theme_list. intros H.
  apply scan_loop_list in H as (added & -> & Hadded). exact Hadded.
Qed.

(** ** limit_up_count *)

Lemma first_qualifying_app (n : Z) (fields : list field_entry) (e : field_entry) :
  first_qualifying n (fields ++ [e])
  = match first_qualifying n fields with
    | Some v => Some v
    | None => qualifying n e
    end.
Proof.
  induction fields as [|f fields IH]; cbn [app first_qualifying].
  - destruct (qualifying n e); reflexivity.
  - destruct (qualifying n f); [reflexivity|exact IH].
Qed.

Lemma last_qualifying_app (n : Z) (fields : list field_entry) (e : field_entry) :
  last_qualifying n (fields ++ [e])
  = match qualifying n e with
    | Some v => Some v
    | None => last_qualifying n fields
    end.
Proof.
  unfold last_qualifying. rewrite rev_app_distr. reflexivity.
Qed.

Lemma limit_up_count_store (d : theme_data) (fields : list field_entry) (n v : Z) :
  td_limit_up_count d = limit_up_count_of fields ->
  td_limit_up_count (store_field n v d)
  = limit_up_count_of (fields ++ [VarintEntry n v]).
Proof.
  intros Hinv. unfold limit_up_count_of.
  rewrite last_qualifying_app, first_qualifying_app.
  unfold limit_up_count_of in Hinv.
  unfold store_field, qualifying, has_limit_up_count.
  destruct (Z.eqb_spec n 7) as [->|H7].
  - cbn [Z.eqb Pos.eqb andb].
    destruct (v <=? 100)%Z; cbn [set_limit_up_count set_field7 td_limit_up_count].
    + reflexivity.
    + rewrite Hinv. destruct (last_qualifying 7 fields); [reflexivity|].
      destruct (first_qualifying 8 fields); reflexivity.
  - destruct (Z.eqb_spec n 8) as [->|H8].
    + cbn [Z.eqb Pos.eqb andb set_field8 td_limit_up_count].
      rewrite Hinv.
      destruct (last_qualifying 7 fields) as [x|];
        [destruct (v <=? 100)%Z;
         cbn [andb negb set_limit_up_count set_field8 td_limit_up_count];
         assumption|].
      destruct (first_qualifying 8 fields) as [y|];
        destruct (v <=? 100)%Z;
        cbn [andb negb set_limit_up_count set_field8 td_limit_up_count];
        first [assumption|reflexivity].
    + cbn [andb].
      assert (Hkeep : td_limit_up_count
                        (if (n =? 5)%Z then set_field5 v d
                         else if (n =? 6)%Z then set_field6 v d
                         else if (n =? 9)%Z then set_field9 v d
                         else if (n =? 10)%Z then set_field10 v d
                         else if (n =? 11)%Z then set_field11 v d else d)
                      = td_limit_up_count d).
      { destruct (n =? 5)%Z; [reflexivity|]. destruct (n =? 6)%Z; [reflexivity|].
        destruct (n =? 9)%Z; [reflexivity|]. destruct (n =? 10)%Z; [reflexivity|].
        destruct (n =? 11)%Z; reflexivity. }
      destruct (n =? 5)%Z; [|destruct (n =? 6)%Z];
        rewrite Hkeep, Hinv;
        destruct (last_qualifying 7 fields); try reflexivity;
        destruct (first_qualifying 8 fields); reflexivity.
Qed.

Lemma limit_up_count_skip (d : theme_data) (fields : list field_entry)
      (n : Z) (len : nat) :
  td_limit_up_count d = limit_up_count_of fields ->
  td_limit_up_count d
  = limit_up_count_of (fields ++ [LengthDelimitedEntry n len]).
Proof.
  intros ->. unfold limit_up_count_of.
  rewrite last_qualifying_app, first_qualifying_app. cbn [qualifying].
  destruct (last_qualifying 7 fields); [reflexivity|].
  destruct (first_qualifying 8 fields); reflexivity.
Qed.

Lemma scanned_limit_up_count (theme_body : bytes) (d : theme_data) :
  scanned theme_body d ->
  td_limit_up_count d = limit_up_count_of (fields_of d).
Proof.
  intros [(theme_id & ->)|Hfull]; [reflexivity|].
  destruct Hfull as (theme_id & theme_name & d1 & raw & fuel & theme_end & pos
                     & df & af & Hd1 & Hfuel & Hloop & ->).
  cbn zeta in Hd1.
  destruct (field_loop_invariant
              (fun d af => td_limit_up_count d = limit_up_count_of af)
              limit_up_count_store limit_up_count_skip
              fuel theme_body theme_end pos (set_raw_data raw d1) [] Hfuel)
    as (d' & af' & Heq & HP).
  - destruct Hd1 as [->|(code & ->)]; reflexivity.
  - rewrite Hloop in Heq. injection Heq as <- <-. exact HP.
Qed.

(** ** The filter loop *)

Lemma pystr_eqb_eq (s t : pystr) : pystr_eqb s t = true <-> s = t.
Proof.
  revert t. induction s as [|c s IH]; intros [|d t]; cbn [pystr_eqb];
    try (split; [discriminate|congruence]); [tauto|].
  rewrite andb_true_iff, Z.eqb_eq, IH. split.
  - intros [-> ->]. reflexivity.
  - intros H. inversion H. auto.
Qed.

Lemma seen_In (theme_id : pystr) (seen_ids : list pystr) :
  seen theme_id seen_ids = true <-> In theme_id seen_ids.
Proof.
  unfold seen. rewrite existsb_exists. split.
  - intros (x & Hin & Heq). apply pystr_eqb_eq in Heq. subst. exact Hin.
  - intros Hin. exists theme_id. split; [exact Hin|]. apply pystr_eqb_eq.
    reflexivity.
Qed.

(** One pass of the filter loop: a candidate that fails a check, or whose
    id has been seen, changes nothing; any other is appended and its id
    recorded. *)
Lemma simplify_step_candidate (simplified : list theme_record)
      (seen_ids : list pystr) (theme : theme_data) :
  simplify_step (simplified, seen_ids) theme
  = match valid_candidate theme with
    | None => (simplified, seen_ids)
    | Some r =>
        if seen (rec_id r) seen_ids then (simplified, seen_ids)
        else (simplified ++ [r], rec_id r :: seen_ids)
    end.
Proof.
  unfold simplify_step, valid_candidate.
  destruct (td_id theme) as [theme_id|]; [|reflexivity].
  destruct (td_name theme) as [theme_name|]; [|reflexivity].
  destruct (truthy theme_id); cbn [negb orb andb]; [|reflexivity].
  destruct (truthy theme_name); cbn [negb orb andb]; [|reflexivity].
  destruct (isdigit (strip theme_id)); cbn [negb andb]; [|reflexivity].
  destruct ((length (strip theme_id) =? 0) || (10 <? length (strip theme_id)));
    cbn [negb andb]; [reflexivity|].
  destruct ((length theme_name =? 0) || (100 <? length theme_name));
    cbn [negb andb]; [reflexivity|].
  destruct (existsb invalid_char theme_name); cbn [negb]; reflexivity.
Qed.

(** The state of the filter loop after a list of candidates. *)
Lemma simplify_fold (themes : list theme_data) :
  forall (simplified : list theme_record) (seen_ids : list pystr),
    NoDup (map rec_id simplified) ->
    (forall r, In r simplified -> In (rec_id r) seen_ids) ->
    let final := fst (fold_left simplify_step themes (simplified, seen_ids)) in
    NoDup (map rec_id final)
    /\ (forall r,
           In r final
           <-> In r simplified
               \/ (~ In (rec_id r) seen_ids
                   /\ first_with_id (rec_id r) themes = Some r)).
Proof.
  induction themes as [|theme themes IH]; intros simplified seen_ids Hnodup Hseen.
  - cbn. split; [exact Hnodup|]. intros r. split; [auto|].
    intros [H|[_ H]]; [exact H|discriminate].
  - cbn [fold_left]. rewrite simplify_step_candidate.
    cbn [first_with_id].
    destruct (valid_candidate theme) as [r0|] eqn:Hcand.
    2:{ apply IH; assumption. }
    destruct (seen (rec_id r0) seen_ids) eqn:Hs.
    + destruct (IH simplified seen_ids Hnodup Hseen) as [Hnd Hiff].
      cbn zeta in *. split; [exact Hnd|].
      intros r. rewrite Hiff. apply seen_In in Hs.
      destruct (pystr_eqb (rec_id r) (rec_id r0)) eqn:He; [|tauto].
      apply pystr_eqb_eq in He. rewrite He.
      split; (intros [H|[Hn H]]; [left; exact H|contradiction]).
    + assert (Hnot : ~ In (rec_id r0) seen_ids).
      { intros H. apply seen_In in H. congruence. }
      destruct (IH (simplified ++ [r0]) (rec_id r0 :: seen_ids)) as [Hnd Hiff].
      * rewrite map_app. cbn [map]. apply NoDup_app; [exact Hnodup| |].
        -- constructor; [auto|constructor].
        -- intros x Hx [<-|[]]. apply Hnot.
           apply in_map_iff in Hx as (r & <- & Hr). apply Hseen. exact Hr.
      * intros r Hr. apply in_app_iff in Hr as [Hr|[<-|[]]].
        -- right. apply Hseen. exact Hr.
        -- left. reflexivity.
      * cbn zeta in *. split; [exact Hnd|].
        intros r. rewrite Hiff, in_app_iff. cbn [In].
        destruct (pystr_eqb (rec_id r) (rec_id r0)) eqn:He.
        -- apply pystr_eqb_eq in He. rewrite He. split.
           ++ intros [[H|[H|[]]]|[Hn _]].
              ** left. exact H.
              ** right. split; [exact Hnot|]. congruence.
              ** exfalso. apply Hn. left. reflexivity.
           ++ intros [H|[_ H]]; [left; left; exact H|].
              left. right. left. congruence.
        -- assert (Hne : rec_id r0 <> rec_id r).
           { intros Heq. rewrite Heq in He.
             assert (pystr_eqb (rec_id r) (rec_id r) = true)
               by (apply pystr_eqb_eq; reflexivity). congruence. }
           split.
           ++ intros [[H|[H|[]]]|[Hn H]].
              ** left. exact H.
              ** subst r0. congruence.
              ** right. split; [|exact H]. intros Hin. apply Hn. right. exact Hin.
           ++ intros [H|[Hn H]]; [left; left; exact H|].
              right. split; [|exact H]. intros [Heq|Hin]; [congruence|auto].
Qed.

Lemma first_with_id_found (theme_id : pystr) (themes : list theme_data)
      (r : theme_record) :
  first_with_id theme_id themes = Some r ->
  rec_id r = theme_id
  /\ exists pre theme post,
      themes = pre ++ theme :: post
      /\ valid_candidate theme = Some r
      /\ (forall t r', In t pre -> valid_candidate t = Some r' ->
                       rec_id r' <> rec_id r).
Proof.
  induction themes as [|theme themes IH]; intros H; [discriminate|].
  cbn [first_with_id] in H.
  destruct (valid_candidate theme) as [r0|] eqn:Hcand.
  - destruct (pystr_eqb theme_id (rec_id r0)) eqn:He.
    + injection H as <-. apply pystr_eqb_eq in He. split; [auto|].
      exists [], theme, themes. split; [reflexivity|]. split; [exact Hcand|].
      intros t r' [].
    + destruct (IH H) as (Hid & pre & t0 & post & -> & Hc & Hfirst).
      split; [exact Hid|].
      exists (theme :: pre), t0, post. split; [reflexivity|]. split; [exact Hc|].
      intros t r' [<-|Hin] Hv.
      * rewrite Hcand in Hv. injection Hv as <-. rewrite Hid.
        intros Heq. rewrite <- Heq in He.
        assert (pystr_eqb (rec_id r0) (rec_id r0) = true)
          by (apply pystr_eqb_eq; reflexivity). congruence.
      * eapply Hfirst; eauto.
  - destruct (IH H) as (Hid & pre & t0 & post & -> & Hc & Hfirst).
    split; [exact Hid|].
    exists (theme :: pre), t0, post. split; [reflexivity|]. split; [exact Hc|].
    intros t r' [<-|Hin] Hv; [congruence|]. eapply Hfirst; eauto.
Qed.

Lemma simplify_spec (themes : list theme_data) :
  NoDup (map rec_id (simplify themes))
  /\ (forall r, In r (simplify themes)
                <-> first_with_id (rec_id r) themes = Some r).
Proof.
  unfold simplify.
  destruct (simplify_fold themes [] [] ltac:(constructor) ltac:(intros r []))
    as [Hnd Hiff].
  cbn zeta in *. split; [exact Hnd|].
  intros r. rewrite Hiff. cbn [In]. tauto.
Qed.

(** ** Windows *)

Lemma chunk_size_pos : 0 < chunk_size.
Proof. unfold chunk_size. lia. Qed.


Lemma slice_window (message_body : bytes) (chunk_idx : nat) :
  slice message_body (chunk_idx * chunk_size)
        (Nat.min (chunk_idx * chunk_size + chunk_size) (length message_body))
  = window message_body chunk_idx.
Proof.
  unfold slice, window.
  destruct (Nat.le_gt_cases (chunk_idx * chunk_size + chunk_size)
                            (length message_body)) as [Hle|Hgt].
  - rewrite Nat.min_l by lia. f_equal. lia.
  - rewrite Nat.min_r by lia.
    rewrite !firstn_all2; [reflexivity| |]; rewrite length_skipn; lia.
Qed.

Lemma chunk_loop_windows (chunk_idxs : list nat) (message_body : bytes) :
  forall themes,
    chunk_loop chunk_idxs message_body themes
    = (l <- scan_windows (map (window message_body) chunk_idxs) ;;
       Ok (themes ++ l)).
Proof.
  induction chunk_idxs as [|i chunk_idxs IH]; intros themes.
  - cbn. rewrite app_nil_r. reflexivity.
  - cbn [chunk_loop map scan_windows]. rewrite slice_window.
    destruct (parse_theme_list (window message_body i)) as [ct|e|];
      cbn [bind]; try reflexivity.
    rewrite IH.
    destruct (scan_windows (map (window message_body) chunk_idxs)) as [l|e|];
      cbn [bind]; try reflexivity.
    rewrite app_assoc. reflexivity.
Qed.




Lemma scan_chunks_windows (message_body : bytes) :
  scan_chunks message_body = scan_windows (windows message_body).
Proof.
  unfold scan_chunks, windows. cbn zeta. rewrite chunk_loop_windows.
  destruct (scan_windows _); reflexivity.
Qed.


(** An anchor with fewer than two bytes behind it ends the scan of its
    window. *)
Lemma anchor_at_window_end (w : bytes) (index next_id : nat)
      (theme_list : list theme_data) :
  find [x0a] w index = Some next_id ->
  length w <= next_id + 2 ->
  scan_iteration w index theme_list = Ok (Break theme_list).
Proof.
  intros Hfind Hend. unfold scan_iteration. rewrite Hfind.
  destruct (Nat.leb_spec (length w) (next_id + 2)); [reflexivity|lia].
Qed.


(** The case of C7 on a concrete body: the tag byte of the record "123",
    "A" is byte 4095 and the rest of the record follows it.  The scan by
    windows finds nothing; a scan of the whole body would have found the
    record. *)
Lemma record_across_window_boundary_not_found :
  let message_body :=
    repeat x00 4095 ++ [x0a] ++ [x03; x31; x32; x33; x12; x01; x41] in
  scan_chunks message_body = Ok []
  /\ exists d, parse_theme_list message_body = Ok [d]
               /\ td_id d = Some [49; 50; 51]%Z.
Proof.
  cbn zeta. split; [vm_compute; reflexivity|].
  eexists. split; vm_compute; reflexivity.
Qed.

(** ** The catalog *)

Lemma scan_windows_scanned (ws : list bytes) :
  forall themes,
    scan_windows ws = Ok themes ->
    Forall (fun d => exists w, In w ws /\ scanned w d) themes.
Proof.
  induction ws as [|w ws IH]; intros themes H.
  - cbn in H. injection H as <-. constructor.
  - cbn [scan_windows] in H.
    destruct (parse_theme_list w) as [ct|e|] eqn:Hw; cbn [bind] in H;
      try discriminate.
    destruct (scan_windows ws) as [rest|e|] eqn:Hws; cbn [bind] in H;
      try discriminate.
    injection H as <-. apply Forall_app. split.
    + apply parse_theme_list_scanned in Hw.
      eapply Forall_impl; [|exact Hw].
      intros d Hd. exists w. split; [left; reflexivity|exact Hd].
    + eapply Forall_impl; [|apply IH; reflexivity].
      intros d (w' & Hin & Hd). exists w'. split; [right; exact Hin|exact Hd].
Qed.

(** What [_extract_theme_list_from_packet] returns for a packet it
    accepts. *)
Lemma extract_cases (packet : bytes) (out : list theme_record) :
  _extract_theme_list_from_packet packet = Ok out ->
  out = []
  \/ exists themes,
      scan_chunks (skipn 3 packet) = Ok themes /\ out = simplify themes.
Proof.
  unfold _extract_theme_list_from_packet.
  destruct packet as [|t [|hi [|lo body]]];
    try (intros H; injection H as <-; left; reflexivity).
  destruct (negb _); [intros H; injection H as <-; left; reflexivity|].
  destruct (_ <? _); [intros H; injection H as <-; left; reflexivity|].
  cbn [skipn].
  destruct (scan_chunks body) as [themes|e|]; cbn [bind]; try discriminate.
  intros H. injection H as <-. right. eauto.
Qed.

Lemma simplify_origin (themes : list theme_data) (r : theme_record) :
  In r (simplify themes) ->
  exists theme, In theme themes /\ valid_candidate theme = Some r.
Proof.
  intros H. apply (proj2 (simplify_spec themes)) in H.
  apply first_with_id_found in H as (_ & pre & theme & post & -> & Hc & _).
  exists theme. split; [|exact Hc]. apply in_elt.
Qed.

Lemma valid_candidate_limit_up_count (theme : theme_data) (r : theme_record) :
  valid_candidate theme = Some r ->
  rec_limit_up_count r = get_limit_up_count_or_0 theme.
Proof.
  unfold valid_candidate.
  destruct (td_id theme); [|discriminate].
  destruct (td_name theme); [|discriminate].
  cbn zeta. destruct (_ && _); [|discriminate].
  intros H. injection H as <-. reflexivity.
Qed.

(** C2, as the claim states it, fails twice.  In the record 0A 01 "1"
    12 01 "A" with the fields 8 = 5 and 7 = 3, the first field among 7 and
    8 with a value of at most 100 is field 8, yet [limit_up_count] is 3.
    And a record without such a field reaches the caller with
    [limit_up_count] 0, not without it. *)
Lemma limit_up_count_not_first_of_7_or_8 :
  (exists d,
      parse_theme_list [x0a; x01; x31; x12; x01; x41; x40; x05; x38; x03]
      = Ok [d]
      /\ td_all_fields d = Some [VarintEntry 8 5; VarintEntry 7 3]
      /\ first_of_7_or_8 (fields_of d) = Some 5%Z
      /\ td_limit_up_count d = Some 3%Z)
  /\ _extract_theme_list_from_packet
       [x40; x00; x06; x0a; x01; x31; x12; x01; x41]
     = Ok [ThemeRecord [49%Z] [65%Z] None 0].
Proof.
  split; [|reflexivity].
  eexists. split; [reflexivity|]. repeat split.
Qed.

(** C2, amended. In every record scanned from a window, [limit_up_count]
    is the value of the last varint field 7 with a value of at most 100
    among the fields decoded behind the name and the code, if there is
    one; otherwise the value of the first varint field 8 with a value of
    at most 100; otherwise it is absent.  The record handed to the caller
    carries that value, and 0 when it is absent. *)
Theorem limit_up_count_rule :
  (forall theme_body l d,
      parse_theme_list theme_body = Ok l ->
      In d l ->
      td_limit_up_count d = limit_up_count_of (fields_of d))
  /\ (forall packet out r,
         _extract_theme_list_from_packet packet = Ok out ->
         In r out ->
         exists themes theme,
           scan_chunks (skipn 3 packet) = Ok themes
           /\ In theme themes
           /\ valid_candidate theme = Some r
           /\ rec_limit_up_count r
              = match limit_up_count_of (fields_of theme) with
                | Some v => v
                | None => 0%Z
                end).
Proof.
  split.
  - intros theme_body l d Hparse Hin.
    apply parse_theme_list_scanned in Hparse.
    rewrite Forall_forall in Hparse.
    apply (scanned_limit_up_count theme_body). auto.
  - intros packet out r Hex Hin.
    destruct (extract_cases _ _ Hex) as [->|(themes & Hscan & ->)];
      [contradiction|].
    destruct (simplify_origin _ _ Hin) as (theme & Hth & Hc).
    exists themes, theme. split; [exact Hscan|]. split; [exact Hth|].
    split; [exact Hc|].
    rewrite (valid_candidate_limit_up_count _ _ Hc).
    rewrite scan_chunks_windows in Hscan.
    apply scan_windows_scanned in Hscan. rewrite Forall_forall in Hscan.
    destruct (Hscan theme Hth) as (w & _ & Hsc).
    unfold get_limit_up_count_or_0.
    rewrite (scanned_limit_up_count w theme Hsc). reflexivity.
Qed.





(** The deduplication case of the specification: two candidates with the
    id "500" and the names "A" and "B"; the catalog holds the first. *)
Lemma duplicate_id_first_wins :
  _extract_theme_list_from_packet
    ([x40; x00; x10]
       ++ [x0a; x03; x35; x30; x30; x12; x01; x41]
       ++ [x0a; x03; x35; x30; x30; x12; x01; x42])
  = Ok [ThemeRecord [53; 48; 48]%Z [65%Z] None 0].
Proof. reflexivity. Qed.

(** A record that passed the checks of the filter loop: its id is a
    non-empty string of at most ten characters that [str.isdigit] accepts,
    its name has between 1 and 100 characters, none of them a control
    character other than tab, newline and carriage return. *)
Lemma valid_candidate_invariant (theme : theme_data) (r : theme_record) :
  valid_candidate theme = Some r ->
  isdigit (rec_id r) = true
  /\ 1 <= length (rec_id r) <= 10
  /\ 1 <= length (rec_name r) <= 100
  /\ existsb invalid_char (rec_name r) = false.
Proof.
  unfold valid_candidate.
  destruct (td_id theme) as [theme_id|]; [|discriminate].
  destruct (td_name theme) as [theme_name|]; [|discriminate].
  cbn zeta.
  destruct (truthy theme_id && truthy theme_name && isdigit (strip theme_id)
            && negb ((length (strip theme_id) =? 0)
                     || (10 <? length (strip theme_id)))
            && negb ((length theme_name =? 0) || (100 <? length theme_name))
            && negb (existsb invalid_char theme_name)) eqn:E; [|discriminate].
  intros H. injection H as <-. cbn [rec_id rec_name].
  repeat (apply andb_true_iff in E as [E ?]).
  repeat match goal with
         | H : negb _ = true |- _ => apply negb_true_iff in H
         | H : (_ || _) = false |- _ => apply orb_false_iff in H as [? ?]
         end.
  bool_facts. repeat split; try assumption; lia.
Qed.

Lemma catalog_record_invariant (packet : bytes) (out : list theme_record)
      (r : theme_record) :
  _extract_theme_list_from_packet packet = Ok out ->
  In r out ->
  isdigit (rec_id r) = true
  /\ 1 <= length (rec_id r) <= 10
  /\ 1 <= length (rec_name r) <= 100
  /\ existsb invalid_char (rec_name r) = false.
Proof.
  intros Hex Hin.
  destruct (extract_cases _ _ Hex) as [->|(themes & _ & ->)]; [contradiction|].
  destruct (simplify_origin _ _ Hin) as (theme & _ & Hc).
  exact (valid_candidate_invariant _ _ Hc).
Qed.

(** C3 at the failing input: the packet 40 00 07 0A 02 C2 B2 12 01 41
    holds one record whose id bytes are the UTF-8 form of U+00B2,
    superscript two.  [str.isdigit] accepts that character, the record
    passes every check, and the catalog holds an id that is not made of
    ASCII digits. *)
Lemma superscript_digit_id_in_catalog :
  _extract_theme_list_from_packet
    [x40; x00; x07; x0a; x02; xc2; xb2; x12; x01; x41]
  = Ok [ThemeRecord [178%Z] [65%Z] None 0]
  /\ forallb is_ascii_digit [178%Z] = false.
Proof. split; reflexivity. Qed.

(** ** Overflow in the field scan *)

Lemma store_field_keeps (n v : Z) (d : theme_data) :
  td_id (store_field n v d) = td_id d
  /\ td_name (store_field n v d) = td_name d.
Proof.
  unfold store_field.
  repeat match goal with
         | |- context [if ?c then _ else _] => destruct c
         end; split; reflexivity.
Qed.

(** C4, as the claim states it, fails.  The first record of this window
    has field 7 followed by ten continuation bytes, on which
    [parse_varint] raises.  The record is kept, with no field, and the
    pass ends at the next anchor, byte 20, not one byte behind the
    failure; the second record follows. *)
Lemma overflow_record_is_kept :
  let theme_body :=
    [x0a; x01; x31; x12; x01; x41; x38;
     xff; xff; xff; xff; xff; xff; xff; xff; xff; xff;
     x01; x28; x05;
     x0a; x01; x32; x12; x01; x42] in
  parse_varint theme_body 7 = Raise ValueError
  /\ exists d1 d2,
      scan_iteration theme_body 0 [] = Ok (Continue 20 [d1])
      /\ parse_theme_list theme_body = Ok [d1; d2]
      /\ td_id d1 = Some [49%Z] /\ td_name d1 = Some [65%Z]
      /\ td_all_fields d1 = Some []
      /\ td_id d2 = Some [50%Z].
Proof.
  cbn zeta. split; [reflexivity|].
  do 2 eexists. split; [reflexivity|]. split; [reflexivity|].
  repeat split.
Qed.

(** C4, amended. When the varint of a field behind the name and the code
    overflows, the field scan of that record stops, with the fields
    decoded before it kept.  Whatever the field scan met, the record with
    its id and its name is appended to the result, and the pass ends at
    the next 0x0A anchor behind the name and the code, from where the rest
    of the window is scanned, or ends the scan when there is no such
    anchor. *)
Theorem varint_overflow_ends_field_scan (theme_body : bytes) :
  (forall fuel theme_end current_pos d all_fields field_tag,
      current_pos < theme_end ->
      getitem theme_body current_pos = Ok field_tag ->
      Z.land (byte_val field_tag) 0x07 = 0%Z ->
      continuation_run 10 (skipn (current_pos + 1) theme_body) = true ->
      field_loop (S fuel) theme_body theme_end current_pos d all_fields
      = Ok (d, all_fields))
  /\ (forall theme_start index d theme_list index1 d1,
         theme_start < index ->
         index <= length theme_body ->
         parse_code theme_body index d = Ok (index1, d1) ->
         get_truthy (td_id d) = true ->
         get_truthy (td_name d) = true ->
         exists d2,
           td_id d2 = td_id d
           /\ td_name d2 = td_name d
           /\ finish_theme theme_body theme_start index d theme_list
              = Ok (match find [x0a] theme_body index1 with
                    | Some p => Continue p (theme_list ++ [d2])
                    | None => Break (theme_list ++ [d2])
                    end)).
Proof.
  split.
  - intros fuel theme_end current_pos d all_fields field_tag Hlt Htag Hwire Hrun.
    cbn [field_loop].
    destruct (Nat.ltb_spec current_pos theme_end); [|lia].
    destruct (Nat.leb_spec (length theme_body) current_pos); [reflexivity|].
    rewrite Htag. cbn [bind]. rewrite Hwire. cbn [Z.eqb].
    assert (Hraise : parse_varint theme_body (current_pos + 1) = Raise ValueError).
    { unfold parse_varint.
      apply (proj1 (varint_loop_raises 9 (skipn (current_pos + 1) theme_body)
                                       (current_pos + 1) 0 (current_pos + 1)
                                       ltac:(lia))).
      split; [reflexivity|exact Hrun]. }
    rewrite Hraise. reflexivity.
  - intros theme_start index d theme_list index1 d1 Hstart Hindex Hcode Hid Hname.
    destruct (finish_theme_ok theme_body theme_start index d theme_list index1 d1
                              Hstart Hindex Hcode) as (df & af & Hloop & Hfin).
    cbn zeta in Hloop, Hfin.
    destruct (parse_code_cases theme_body index d)
      as [Hraise|(i1 & d1' & Heq & Hle & Hle2 & Hd1)]; [congruence|].
    rewrite Hcode in Heq. injection Heq as <- <-.
    pose proof (next_theme_start_bounds theme_body index1 (Hle2 Hindex)) as Hnts.
    destruct (field_loop_invariant
                (fun d' _ => td_id d' = td_id d /\ td_name d' = td_name d)
                ltac:(intros d' af' n v [H1 H2];
                      destruct (store_field_keeps n v d') as [-> ->]; auto)
                ltac:(auto)
                (next_theme_start_of theme_body index1 - index1) theme_body
                (next_theme_start_of theme_body index1) index1
                (set_raw_data
                   (slice theme_body index1 (next_theme_start_of theme_body index1))
                   d1) [] ltac:(lia))
      as (df' & af' & Heq & Hkeep_id & Hkeep_name).
    { destruct Hd1 as [->|(code & ->)]; split; reflexivity. }
    rewrite Hloop in Heq. injection Heq as <- <-.
    exists (set_all_fields af df).
    cbn [set_all_fields td_id td_name] in *.
    split; [exact Hkeep_id|]. split; [exact Hkeep_name|].
    rewrite Hfin. rewrite Hkeep_id, Hkeep_name, Hid, Hname. reflexivity.
Qed.

(* ================================================================== *)
(** * Further properties *)

(** ** parse_varint: what a returned result is *)

Lemma low7_disjoint (a x : Z) :
  Z.land (Z.land a 0x7F) (Z.shiftl x 7) = 0%Z.
Proof.
  apply Z.bits_inj'. intros n Hn.
  rewrite !Z.land_spec, Z.bits_0.
  destruct (Z.ltb_spec n 7) as [Hlow|Hhigh].
  - rewrite Z.shiftl_spec_low by lia. apply andb_false_r.
  - change 0x7F%Z with (Z.ones 7). rewrite Z.ones_spec_high by lia.
    rewrite andb_false_r. reflexivity.
Qed.

Lemma varint_value_range (bs : bytes) :
  (0 <= varint_value bs < 2 ^ (7 * Z.of_nat (length bs)))%Z.
Proof.
  induction bs as [|b bs IH].
  - cbn. lia.
  - cbn [varint_value length].
    assert (Hlow : (0 <= Z.land (byte_val b) 0x7F < 128)%Z).
    { change 0x7F%Z with (Z.ones 7). rewrite Z.land_ones by lia.
      apply Z.mod_pos_bound. lia. }
    rewrite <- Z.lxor_lor by apply low7_disjoint.
    rewrite <- Z.add_nocarry_lxor by apply low7_disjoint.
    rewrite Z.shiftl_mul_pow2 by lia.
    replace (7 * Z.of_nat (S (length bs)))%Z
      with (7 * Z.of_nat (length bs) + 7)%Z by lia.
    rewrite Z.pow_add_r by lia.
    change (2 ^ 7)%Z with 128%Z. nia.
Qed.

Lemma ok_pair_inj {A B : Type} (a a' : A) (b b' : B) :
  Ok (a, b) = Ok (a', b') -> a = a' /\ b = b'.
Proof. intros H. inversion H. auto. Qed.

(** The loop, when it returns: the count grows by the number [n] of bytes
    read, at most what is left of the ten bytes a varint may have; the
    value is built from exactly these bytes; no byte is read only when
    none is left. *)
Lemma varint_loop_result (rest : bytes) :
  forall (start : nat) (r : Z) (k pos : nat) (v : Z) (c : nat),
    start <= pos ->
    varint_loop rest start r (7 * Z.of_nat k) pos = Ok (v, c) ->
    exists n,
      c = pos + n - start
      /\ n <= length rest
      /\ (k < 10 -> k + n <= 10)
      /\ v = Z.lor r (Z.shiftl (varint_value (firstn n rest)) (7 * Z.of_nat k))
      /\ (n = 0 <-> rest = []).
Proof.
  induction rest as [|b rest IH]; intros start r k pos v c Hpos Hrun.
  - cbn [varint_loop] in Hrun. apply ok_pair_inj in Hrun as [<- <-]. exists 0.
    cbn [firstn varint_value length].
    rewrite Z.shiftl_0_l, Z.lor_0_r.
    split; [lia|]. split; [lia|]. split; [lia|]. split; [reflexivity|].
    split; reflexivity.
  - cbn [varint_loop] in Hrun.
    destruct (Z.land (byte_val b) 128 =? 0)%Z.
    + apply ok_pair_inj in Hrun as [<- <-]. exists 1.
      cbn [firstn varint_value length].
      rewrite Z.shiftl_0_l, Z.lor_0_r.
      split; [lia|]. split; [lia|]. split; [lia|]. split; [reflexivity|].
      split; [intros H; lia|discriminate].
    + destruct (Z.leb_spec 64 (7 * Z.of_nat k + 7)) as [|Hshift];
        [discriminate|].
      replace (7 * Z.of_nat k + 7)%Z with (7 * Z.of_nat (S k))%Z in Hrun by lia.
      apply IH in Hrun as (n & -> & Hn & Hk & -> & _); [|lia].
      exists (S n). cbn [firstn varint_value length].
      split; [lia|]. split; [lia|]. split; [lia|]. split.
      * rewrite <- Z.lor_assoc, Z.shiftl_lor, Z.shiftl_shiftl by lia.
        replace (7 + 7 * Z.of_nat k)%Z with (7 * Z.of_nat (S k))%Z by lia.
        reflexivity.
      * split; [intros H; lia|discriminate].
Qed.

(** X1. A result [(value, consumed)] of [parse_varint]: [consumed] is at
    most 10 and at most the number of bytes from the start index to the
    end of the data, and it is 0 exactly when the start index is at or
    behind the end; [value] is the base-128 value of the consumed bytes,
    least significant group first, so it is non-negative and below
    2^(7 * consumed). *)
Theorem parse_varint_result (data : bytes) (start_index : nat) (value : Z)
        (consumed : nat) :
  parse_varint data start_index = Ok (value, consumed) ->
  consumed <= 10
  /\ consumed <= length data - start_index
  /\ (consumed = 0 <-> length data <= start_index)
  /\ value = varint_value (slice data start_index (start_index + consumed))
  /\ (0 <= value < 2 ^ (7 * Z.of_nat consumed))%Z.
Proof.
  unfold parse_varint. intros Hrun.
  apply (varint_loop_result (skipn start_index data) start_index 0 0 start_index)
    in Hrun as (n & -> & Hn & Hk & -> & Hzero); [|lia].
  rewrite length_skipn in Hn. specialize (Hk ltac:(lia)).
  replace (start_index + n - start_index) with n by lia.
  unfold slice. replace (start_index + n - start_index) with n by lia.
  change (7 * Z.of_nat 0)%Z with 0%Z. rewrite Z.shiftl_0_r, Z.lor_0_l.
  split; [lia|]. split; [lia|]. split.
  - rewrite Hzero. split.
    + intros H. apply (f_equal (@length byte)) in H.
      rewrite length_skipn in H. cbn in H. lia.
    + intros H. apply skipn_all2. exact H.
  - split; [reflexivity|].
    pose proof (varint_value_range (firstn n (skipn start_index data))) as Hr.
    rewrite length_firstn, length_skipn in Hr.
    replace (Nat.min n (length data - start_index)) with n in Hr by lia.
    exact Hr.
Qed.

Lemma parse_varint_result_witness :
  2 <= 10
  /\ 2 <= length [x38; xac; x02; x0a] - 1
  /\ (2 = 0 <-> length [x38; xac; x02; x0a] <= 1)
  /\ 300%Z = varint_value (slice [x38; xac; x02; x0a] 1 (1 + 2))
  /\ (0 <= 300 < 2 ^ (7 * Z.of_nat 2))%Z.
Proof.
  apply (parse_varint_result [x38; xac; x02; x0a] 1 300 2). reflexivity.
Defined.

(** The loop does not look behind the byte that ends a varint. *)
Lemma varint_loop_prefix (rest : bytes) :
  forall (start : nat) (r s : Z) (pos : nat) (v : Z) (c : nat),
    start <= pos ->
    varint_loop rest start r s pos = Ok (v, c) ->
    pos - start <= c
    /\ c + start - pos <= length rest
    /\ (c + start - pos < length rest ->
        forall tail,
          varint_loop (firstn (c + start - pos) rest ++ tail) start r s pos
          = Ok (v, c)).
Proof.
  induction rest as [|b rest IH]; intros start r s pos v c Hpos Hrun.
  - cbn [varint_loop] in Hrun. apply ok_pair_inj in Hrun as [<- <-].
    cbn [length]. repeat split; lia.
  - cbn [varint_loop] in Hrun.
    destruct (Z.land (byte_val b) 128 =? 0)%Z eqn:Hb.
    + apply ok_pair_inj in Hrun as [<- <-].
      replace (S pos - start + start - pos) with 1 by lia.
      cbn [length firstn app]. split; [lia|]. split; [lia|].
      intros _ tail. cbn [varint_loop]. rewrite Hb. reflexivity.
    + destruct (64 <=? s + 7)%Z eqn:Hs; [discriminate|].
      apply IH in Hrun as (Hc & Hn & Hrest); [|lia].
      replace (c + start - pos) with (S (c + start - S pos)) by lia.
      cbn [length firstn app]. split; [lia|]. split; [lia|].
      intros Hlt tail. cbn [varint_loop]. rewrite Hb, Hs.
      apply Hrest. lia.
Qed.

(** X2. When [parse_varint] returns before the end of the data, its
    result depends on the consumed bytes only: the data behind them can be
    replaced by anything.  (A result that reaches the end of the data has
    no such guarantee, the varint may have been cut short.) *)
Theorem parse_varint_ignores_rest (data : bytes) (start_index : nat)
        (value : Z) (consumed : nat) :
  parse_varint data start_index = Ok (value, consumed) ->
  start_index + consumed < length data ->
  forall tail,
    parse_varint (firstn (start_index + consumed) data ++ tail) start_index
    = Ok (value, consumed).
Proof.
  unfold parse_varint. intros Hrun Hlt tail.
  apply varint_loop_prefix in Hrun as (_ & _ & Hrest); [|lia].
  replace (consumed + start_index - start_index) with consumed in Hrest by lia.
  rewrite length_skipn in Hrest. specialize (Hrest ltac:(lia) tail).
  rewrite skipn_app, skipn_firstn_comm.
  rewrite length_firstn.
  replace (start_index - Nat.min (start_index + consumed) (length data))
    with 0 by lia.
  replace (start_index + consumed - start_index) with consumed by lia.
  cbn [skipn]. exact Hrest.
Qed.

Lemma parse_varint_ignores_rest_witness :
  parse_varint (firstn (1 + 2) [x38; xac; x02; x0a] ++ [xff; xff; x01]) 1
  = Ok (300%Z, 2).
Proof.
  apply (parse_varint_ignores_rest [x38; xac; x02; x0a] 1 300 2).
  - reflexivity.
  - cbn. lia.
Defined.

(** ** receive_packet: frames *)

(** X3. A frame at the front of the stream is returned whole, however the
    transport cuts the stream into reads, and the stream is left at the
    first byte behind the frame; a stream that closes with fewer than
    three bytes gives [None]. *)
Theorem receive_packet_exact (sock : socket) :
  (forall packet rest,
      well_formed_frame packet ->
      concat sock = packet ++ rest ->
      exists sock',
        receive_packet sock = Ok (Some packet, sock')
        /\ concat sock' = rest)
  /\ (length (concat sock) < 3 -> receive_packet sock = Ok (None, [])).
Proof.
  pose proof (receive_packet_spec sock) as Hspec.
  split.
  - intros packet rest (t & hi & lo & body & -> & Hlen) Hcat.
    cbn [app] in Hcat. rewrite Hcat in Hspec.
    rewrite length_app, <- Hlen in Hspec.
    destruct (Nat.leb_spec (length body) (length body + length rest)); [|lia].
    destruct Hspec as (sock' & Hres & Hrest).
    rewrite firstn_app, firstn_all, Nat.sub_diag in Hres.
    cbn [firstn] in Hres. rewrite app_nil_r in Hres.
    rewrite skipn_app, skipn_all, Nat.sub_diag in Hrest.
    cbn [skipn app] in Hrest. eauto.
  - intros Hshort.
    destruct (concat sock) as [|t [|hi [|lo rest]]]; try exact Hspec.
    cbn [length] in Hshort. lia.
Qed.

Lemma receive_packet_exact_witness :
  exists sock',
    receive_packet [[x40; x00]; [x05; x48; x45]; [x4c; x4c; x4f; x10]; [x00; x00]]
    = Ok (Some [x40; x00; x05; x48; x45; x4c; x4c; x4f], sock')
    /\ concat sock' = [x10; x00; x00].
Proof.
  apply (proj1 (receive_packet_exact
                  [[x40; x00]; [x05; x48; x45]; [x4c; x4c; x4f; x10]; [x00; x00]])).
  - exists x40, x00, x05, [x48; x45; x4c; x4c; x4f]. split; reflexivity.
  - reflexivity.
Defined.

(** ** parse_theme_list: windows without a usable anchor *)

(** X4. A window in which every byte 0x0A has fewer than two bytes
    behind it gives the empty list and no error: the empty window, a
    window of one or two bytes, a window without the byte 0x0A. *)
Theorem parse_theme_list_without_anchor (theme_body : bytes) :
  (forall p, nth_error theme_body p = Some x0a -> length theme_body <= p + 2) ->
  parse_theme_list theme_body = Ok [].
Proof.
  intros Hnone. unfold parse_theme_list.
  destruct (length theme_body) as [|fuel] eqn:Hlen.
  - cbn [scan_loop]. rewrite Hlen.
    destruct (Nat.ltb_spec (initial_index theme_body) 0); [lia|reflexivity].
  - cbn [scan_loop]. rewrite Hlen.
    destruct (initial_index theme_body <? S fuel); [|reflexivity].
    pose proof (scan_iteration_cases theme_body (initial_index theme_body) [])
      as Hcases.
    destruct (find [x0a] theme_body (initial_index theme_body)) as [p|] eqn:Hfind.
    + rewrite (anchor_at_window_end theme_body _ p [] Hfind); [reflexivity|].
      apply find_single in Hfind as (_ & Hnth & _).
      first [apply Hnone|rewrite Hlen; apply Hnone]; exact Hnth.
    + rewrite Hcases. reflexivity.
Qed.

Lemma parse_theme_list_without_anchor_witness :
  parse_theme_list [x12; x01; x41; x38; x05] = Ok [].
Proof.
  apply (parse_theme_list_without_anchor [x12; x01; x41; x38; x05]).
  intros p H.
  do 5 (destruct p as [|p]; [discriminate H|]).
  destruct p; discriminate H.
Defined.

(** ** The header of a packet *)

Lemma scan_windows_outcome (ws : list bytes) :
  (exists themes, scan_windows ws = Ok themes)
  \/ scan_windows ws = Raise IndexError.
Proof.
  induction ws as [|w ws IH]; [left; eexists; reflexivity|].
  cbn [scan_windows].
  destruct (scan_loop_outcome (length w) w (initial_index w) [] ltac:(lia))
    as [[l Hl]|Hl]; unfold parse_theme_list; rewrite Hl; cbn [bind];
    [|right; reflexivity].
  destruct IH as [[themes Hws]|Hws]; rewrite Hws; cbn [bind];
    [left; eexists; reflexivity|right; reflexivity].
Qed.

Lemma scan_chunks_outcome (message_body : bytes) :
  (exists themes, scan_chunks message_body = Ok themes)
  \/ scan_chunks message_body = Raise IndexError.
Proof.
  rewrite scan_chunks_windows. apply scan_windows_outcome.
Qed.

(** X5. What the header of a packet decides in
    [_extract_theme_list_from_packet].  A packet of fewer than three
    bytes, of a type other than 0x40 and 0x60, or shorter than its header
    declares gives the empty catalog.  Otherwise the declared length plays
    no further part: all the bytes behind the header are scanned, those
    behind the declared length too, so two headers of the same type that
    both pass the length test give the same result. *)
Theorem extract_header_rules (packet_type hi lo : byte) (message_body : bytes) :
  (forall packet, length packet < 3 ->
                  _extract_theme_list_from_packet packet = Ok [])
  /\ (has_type 0x40 0x60 [packet_type] = false ->
      _extract_theme_list_from_packet (packet_type :: hi :: lo :: message_body)
      = Ok [])
  /\ (length message_body < unpack_be16 hi lo ->
      _extract_theme_list_from_packet (packet_type :: hi :: lo :: message_body)
      = Ok [])
  /\ (has_type 0x40 0x60 [packet_type] = true ->
      unpack_be16 hi lo <= length message_body ->
      _extract_theme_list_from_packet (packet_type :: hi :: lo :: message_body)
      = (themes <- scan_chunks message_body ;; Ok (simplify themes))
      /\ forall hi' lo',
          unpack_be16 hi' lo' <= length message_body ->
          _extract_theme_list_from_packet
            (packet_type :: hi' :: lo' :: message_body)
          = _extract_theme_list_from_packet
              (packet_type :: hi :: lo :: message_body)).
Proof.
  assert (Hfull : forall h l,
             has_type 0x40 0x60 [packet_type] = true ->
             unpack_be16 h l <= length message_body ->
             _extract_theme_list_from_packet
               (packet_type :: h :: l :: message_body)
             = (themes <- scan_chunks message_body ;; Ok (simplify themes))).
  { intros h l Htype Hlen. unfold _extract_theme_list_from_packet.
    cbn [has_type] in Htype. rewrite Htype. cbn [negb length].
    destruct (Nat.ltb_spec (S (S (S (length message_body)))) (3 + unpack_be16 h l));
      [lia|reflexivity]. }
  split; [|split; [|split]].
  - intros packet Hshort. unfold _extract_theme_list_from_packet.
    destruct packet as [|a [|b [|c rest]]]; try reflexivity.
    cbn [length] in Hshort. lia.
  - intros Htype. unfold _extract_theme_list_from_packet.
    cbn [has_type] in Htype. rewrite Htype. reflexivity.
  - intros Hlen. unfold _extract_theme_list_from_packet.
    destruct (negb _); [reflexivity|]. cbn [length].
    destruct (Nat.ltb_spec (S (S (S (length message_body))))
                           (3 + unpack_be16 hi lo)); [reflexivity|lia].
  - intros Htype Hlen. split; [apply Hfull; assumption|].
    intros hi' lo' Hlen'. rewrite !Hfull by assumption. reflexivity.
Qed.

(** ** parse_packet_40 and parse_packet_60 *)

(** X6. [parse_packet_40] and [parse_packet_60] never raise: they return
    [None] or the candidates of all windows.  When one of them returns
    candidates, [_extract_theme_list_from_packet] returns the catalog
    filtered from these candidates; when the extraction raises (the scan
    of a window raised [IndexError]), both return [None]. *)
Theorem parse_packet_and_extract (data : bytes) :
  (exists o, parse_packet_40 data = Ok o)
  /\ (exists o, parse_packet_60 data = Ok o)
  /\ (forall all_themes,
         parse_packet_40 data = Ok (Some all_themes)
         \/ parse_packet_60 data = Ok (Some all_themes) ->
         _extract_theme_list_from_packet data = Ok (simplify all_themes))
  /\ (forall e,
         _extract_theme_list_from_packet data = Raise e ->
         e = IndexError
         /\ parse_packet_40 data = Ok None
         /\ parse_packet_60 data = Ok None).
Proof.
  unfold parse_packet_40, parse_packet_60, parse_packet,
    _extract_theme_list_from_packet.
  destruct data as [|t [|hi [|lo body]]];
    try (split; [eexists; reflexivity|];
         split; [eexists; reflexivity|];
         split; [intros ? [H|H]; discriminate H|intros e H; discriminate H]).
  destruct (length (t :: hi :: lo :: body) <? 3 + unpack_be16 hi lo).
  { destruct (byte_val t =? 64)%Z; destruct (byte_val t =? 96)%Z;
      cbn [negb orb];
      (split; [eexists; reflexivity|];
       split; [eexists; reflexivity|];
       split; [intros ? [H|H]; discriminate H|intros e H; discriminate H]). }
  destruct (scan_chunks_outcome body) as [[themes Hs]|Hs]; rewrite Hs;
    cbn [bind].
  - destruct (byte_val t =? 64)%Z; destruct (byte_val t =? 96)%Z;
      cbn [negb orb];
      (split; [eexists; reflexivity|];
       split; [eexists; reflexivity|];
       split; [intros ? [H|H]; inversion H; reflexivity
              |intros e H; discriminate H]).
  - destruct (byte_val t =? 64)%Z; destruct (byte_val t =? 96)%Z;
      cbn [negb orb];
      (split; [eexists; reflexivity|];
       split; [eexists; reflexivity|];
       split; [intros ? [H|H]; discriminate H|]);
      intros e H; try discriminate H;
      inversion H; repeat split; reflexivity.
Qed.

(** ** The catalog of candidates gathered in several steps *)

Lemma filter_filter_implied {A} (f g : A -> bool) (l : list A) :
  (forall x, f x = true -> g x = true) ->
  filter f (filter g l) = filter f l.
Proof.
  intros Himp. induction l as [|x l IH]; [reflexivity|].
  cbn [filter]. destruct (g x) eqn:Hg; cbn [filter].
  - rewrite IH. reflexivity.
  - destruct (f x) eqn:Hf; [|exact IH].
    apply Himp in Hf. congruence.
Qed.

Lemma filter_filter_and {A} (f g : A -> bool) (l : list A) :
  filter f (filter g l) = filter (fun x => g x && f x) l.
Proof.
  induction l as [|x l IH]; [reflexivity|].
  cbn [filter]. destruct (g x); cbn [filter andb]; rewrite IH; reflexivity.
Qed.

(** The filter loop started with records and ids already there: it adds
    the catalog of the new candidates, less the ids seen before. *)
Lemma simplify_fold_from (themes : list theme_data) :
  forall (simplified : list theme_record) (seen_ids : list pystr),
    fst (fold_left simplify_step themes (simplified, seen_ids))
    = simplified
        ++ filter (fun r => negb (seen (rec_id r) seen_ids)) (simplify themes).
Proof.
  unfold simplify.
  induction themes as [|theme themes IH]; intros simplified seen_ids.
  - cbn. rewrite app_nil_r. reflexivity.
  - cbn [fold_left]. rewrite !simplify_step_candidate.
    destruct (valid_candidate theme) as [r0|]; [|apply IH].
    change (seen (rec_id r0) []) with false. cbn iota.
    rewrite (IH ([] ++ [r0]) [rec_id r0]). cbn [app filter].
    destruct (seen (rec_id r0) seen_ids) eqn:Hs; cbn [negb].
    + rewrite IH. f_equal. symmetry. apply filter_filter_implied.
      intros r Hr. apply negb_true_iff. apply negb_true_iff in Hr.
      unfold seen. cbn [existsb]. rewrite orb_false_r.
      destruct (pystr_eqb (rec_id r) (rec_id r0)) eqn:He; [|reflexivity].
      apply pystr_eqb_eq in He. congruence.
    + rewrite IH, <- app_assoc. cbn [app]. do 2 f_equal.
      rewrite filter_filter_and. apply filter_ext. intros r.
      unfold seen. cbn [existsb]. rewrite orb_false_r, negb_orb. reflexivity.
Qed.

Lemma simplify_fold_seen (themes : list theme_data) :
  forall (simplified : list theme_record) (seen_ids : list pystr),
    (forall i, In i seen_ids <-> In i (map rec_id simplified)) ->
    forall i,
      In i (snd (fold_left simplify_step themes (simplified, seen_ids)))
      <-> In i (map rec_id
                    (fst (fold_left simplify_step themes (simplified, seen_ids)))).
Proof.
  induction themes as [|theme themes IH]; intros simplified seen_ids Hinv;
    [exact Hinv|].
  cbn [fold_left]. rewrite simplify_step_candidate.
  destruct (valid_candidate theme) as [r0|]; [|apply IH; exact Hinv].
  destruct (seen (rec_id r0) seen_ids); [apply IH; exact Hinv|].
  apply IH. intros i. rewrite map_app, in_app_iff. cbn [map In].
  rewrite Hinv. tauto.
Qed.

(** X7. The catalog of two lists of candidates put together (the
    candidates of earlier windows, then those of later ones) is the
    catalog of the first list followed by the catalog of the second one
    without the records whose id the first catalog holds. *)
Theorem simplify_app (themes1 themes2 : list theme_data) :
  simplify (themes1 ++ themes2)
  = simplify themes1
      ++ filter (fun r => negb (seen (rec_id r) (map rec_id (simplify themes1))))
                (simplify themes2).
Proof.
  unfold simplify at 1. rewrite fold_left_app.
  destruct (fold_left simplify_step themes1 ([], [])) as [simp1 seen1] eqn:H1.
  rewrite simplify_fold_from.
  assert (Hsimp : simplify themes1 = simp1) by (unfold simplify; rewrite H1; reflexivity).
  rewrite Hsimp. f_equal. apply filter_ext. intros r. f_equal.
  pose proof (simplify_fold_seen themes1 [] [] ltac:(intros i; reflexivity)
                                 (rec_id r)) as Hseen.
  rewrite H1 in Hseen. cbn [fst snd] in Hseen.
  destruct (seen (rec_id r) seen1) eqn:Ha;
    destruct (seen (rec_id r) (map rec_id simp1)) eqn:Hb; try reflexivity.
  - apply seen_In in Ha. apply Hseen in Ha. apply seen_In in Ha. congruence.
  - apply seen_In in Hb. apply Hseen in Hb. apply seen_In in Hb. congruence.
Qed.

(** ** The caller's check of the catalog *)

Lemma space_not_digit (c : Z) : isspace_char c = true -> isdigit_char c = false.
Proof.
  unfold isspace_char, in_ranges. intros H.
  apply existsb_exists in H as (r & Hin & Hr).
  apply andb_true_iff in Hr as [Hlo Hhi].
  apply Z.leb_le in Hlo. apply Z.leb_le in Hhi.
  apply not_true_is_false. intros Hd.
  unfold isdigit_char, in_ranges in Hd.
  apply existsb_exists in Hd as (r' & Hin' & Hr').
  apply andb_true_iff in Hr' as [Hlo' Hhi'].
  apply Z.leb_le in Hlo'. apply Z.leb_le in Hhi'.
  assert (Hdisjoint :
            forallb (fun d =>
                       forallb (fun w => (snd d <? fst w) || (snd w <? fst d))%Z
                               space_ranges)
                    digit_ranges = true) by (vm_compute; reflexivity).
  rewrite forallb_forall in Hdisjoint. specialize (Hdisjoint r' Hin').
  rewrite forallb_forall in Hdisjoint. specialize (Hdisjoint r Hin).
  apply orb_true_iff in Hdisjoint as [Hd|Hd]; apply Z.ltb_lt in Hd; lia.
Qed.

Lemma lstrip_no_space (s : pystr) :
  forallb isdigit_char s = true -> lstrip s = s.
Proof.
  destruct s as [|c s]; [reflexivity|]. cbn [forallb lstrip].
  intros H. apply andb_true_iff in H as [Hc _].
  destruct (isspace_char c) eqn:Hs; [|reflexivity].
  apply space_not_digit in Hs. congruence.
Qed.

(** Stripping a string of digits changes nothing. *)
Lemma strip_digits (s : pystr) : isdigit s = true -> strip s = s.
Proof.
  unfold isdigit. intros H. apply andb_true_iff in H as [_ Hall].
  unfold strip. rewrite (lstrip_no_space s Hall).
  rewrite lstrip_no_space.
  - apply rev_involutive.
  - rewrite forallb_forall in *. intros c Hc. apply Hall.
    apply in_rev. exact Hc.
Qed.

Lemma filter_all {A} (f : A -> bool) (l : list A) :
  (forall x, In x l -> f x = true) -> filter f l = l.
Proof.
  induction l as [|x l IH]; intros H; [reflexivity|].
  cbn [filter]. rewrite (H x) by (left; reflexivity).
  f_equal. apply IH. intros y Hy. apply H. right. exact Hy.
Qed.

Lemma filter_none {A} (f : A -> bool) (l : list A) :
  (forall x, In x l -> f x = false) -> filter f l = [].
Proof.
  induction l as [|x l IH]; intros H; [reflexivity|].
  cbn [filter]. rewrite (H x) by (left; reflexivity).
  apply IH. intros y Hy. apply H. right. exact Hy.
Qed.

(** X8. The check that [export_all_themes_to_excel] applies to the
    fetched catalog drops nothing: every record of a catalog returned by
    [_extract_theme_list_from_packet] passes it, so [valid_themes] is
    the catalog itself and [invalid_count] is 0. *)
Theorem export_check_keeps_catalog (packet : bytes) (out : list theme_record) :
  _extract_theme_list_from_packet packet = Ok out ->
  valid_themes out = out /\ invalid_count out = 0.
Proof.
  intros Hex.
  assert (Hall : forall r, In r out -> export_accepts r = true).
  { intros r Hin.
    destruct (catalog_record_invariant packet out r Hex Hin)
      as (Hdigit & Hidlen & Hnamelen & _).
    unfold export_accepts. cbn zeta.
    rewrite (strip_digits _ Hdigit), Hdigit.
    unfold isdigit in Hdigit. apply andb_true_iff in Hdigit as [Ht _].
    rewrite Ht. cbn [negb orb].
    assert (Hname : truthy (rec_name r) = true)
      by (destruct (rec_name r); [cbn [length] in Hnamelen; lia|reflexivity]).
    rewrite Hname. cbn [negb orb].
    destruct (Nat.eqb_spec (length (rec_name r)) 0) as [|_]; [lia|].
    destruct (Nat.ltb_spec 100 (length (rec_name r))) as [|_]; [lia|].
    reflexivity. }
  split.
  - apply filter_all. exact Hall.
  - unfold invalid_count. rewrite filter_none; [reflexivity|].
    intros r Hin. rewrite (Hall r Hin). reflexivity.
Qed.

Lemma export_check_keeps_catalog_witness :
  valid_themes [ThemeRecord [53; 48; 48]%Z [65%Z] None 0]
  = [ThemeRecord [53; 48; 48]%Z [65%Z] None 0]
  /\ invalid_count [ThemeRecord [53; 48; 48]%Z [65%Z] None 0] = 0.
Proof.
  apply (export_check_keeps_catalog
           [x40; x00; x08; x0a; x03; x35; x30; x30; x12; x01; x41]).
  reflexivity.
Defined.

(** ** Records written by [encode_record] and found again *)

Lemma byte_of_nat_to_nat (n : nat) : n <= 255 -> Byte.to_nat (byte_of_nat n) = n.
Proof.
  intros Hn. unfold byte_of_nat.
  pose proof (byte_val_of_Z (Z.of_nat n) ltac:(lia)) as H.
  unfold byte_val in H. rewrite Byte.to_nat_via_N. lia.
Qed.

Lemma skipn_step {A} (l : list A) (i : nat) (mid rest : list A) :
  skipn i l = mid ++ rest -> skipn (i + length mid) l = rest.
Proof.
  intros H. rewrite Nat.add_comm, <- skipn_skipn, H.
  apply skipn_length_app.
Qed.

Lemma getitem_skipn (data : bytes) (i : nat) (b : byte) (rest : bytes) :
  skipn i data = b :: rest -> getitem data i = Ok b.
Proof.
  intros H. unfold getitem.
  rewrite <- (Nat.add_0_r i), <- nth_error_skipn, H. reflexivity.
Qed.

Lemma slice_skipn (data : bytes) (i k : nat) (mid rest : bytes) :
  skipn i data = mid ++ rest -> k = i + length mid -> slice data i k = mid.
Proof.
  intros H ->. unfold slice. rewrite H.
  replace (i + length mid - i) with (length mid) by lia.
  rewrite firstn_app, firstn_all, Nat.sub_diag. cbn. apply app_nil_r.
Qed.

Lemma skipn_nonempty_lt {A} (l : list A) (i : nat) (a : A) (rest : list A) :
  skipn i l = a :: rest -> i < length l.
Proof.
  intros H. apply (f_equal (@length A)) in H.
  rewrite length_skipn in H. cbn in H. lia.
Qed.

Lemma skipn_length {A} (l : list A) (i : nat) (rest : list A) :
  skipn i l = rest -> i <= length l -> length l = i + length rest.
Proof.
  intros H Hi. apply (f_equal (@length A)) in H.
  rewrite length_skipn in H. lia.
Qed.

Lemma find_skipn (b : byte) (data : bytes) (i : nat) (rest : bytes) :
  skipn i data = b :: rest -> find [b] data i = Some i.
Proof.
  intros H. unfold find.
  pose proof (skipn_nonempty_lt _ _ _ _ H) as Hlt.
  destruct (Nat.ltb_spec (length data) i); [lia|].
  rewrite H. cbn [find_from].
  assert (E : starts_with [b] (b :: rest) = true)
    by (apply starts_with_single; eauto).
  rewrite E. reflexivity.
Qed.

Lemma find_at_end (b : byte) (data : bytes) :
  find [b] data (length data) = None.
Proof.
  unfold find. rewrite Nat.ltb_irrefl, skipn_all. reflexivity.
Qed.

Lemma decode_ascii (bs : bytes) :
  forallb (fun b => (byte_val b <? 0x80)%Z) bs = true ->
  decode_utf8_ignore bs = map byte_val bs.
Proof.
  induction bs as [|b bs IH]; [reflexivity|].
  cbn [forallb]. intros H. apply andb_true_iff in H as [Hb Hrest].
  cbn [decode_utf8_ignore map]. rewrite Hb, IH by exact Hrest. reflexivity.
Qed.

(** An id of ASCII digits, as the scanner reads it. *)
Lemma digits_id (bs : bytes) :
  forallb (fun b => is_ascii_digit (byte_val b)) bs = true ->
  1 <= length bs ->
  decode_utf8_ignore bs = map byte_val bs
  /\ strip (map byte_val bs) = map byte_val bs
  /\ isdigit (map byte_val bs) = true
  /\ truthy (map byte_val bs) = true.
Proof.
  intros Hall Hlen.
  assert (Hascii : forallb (fun b => (byte_val b <? 0x80)%Z) bs = true).
  { rewrite forallb_forall in *. intros b Hb. specialize (Hall b Hb).
    unfold is_ascii_digit in Hall. apply andb_true_iff in Hall as [_ H].
    apply Z.leb_le in H. apply Z.ltb_lt. lia. }
  assert (Htruthy : truthy (map byte_val bs) = true)
    by (destruct bs; [cbn in Hlen; lia|reflexivity]).
  assert (Hdigit : isdigit (map byte_val bs) = true).
  { unfold isdigit. rewrite Htruthy. cbn [andb].
    rewrite forallb_forall in *. intros c Hc.
    apply in_map_iff in Hc as (b & <- & Hb). specialize (Hall b Hb).
    rewrite isdigit_char_ascii; [exact Hall|].
    unfold is_ascii_digit in Hall. apply andb_true_iff in Hall as [_ H].
    apply Z.leb_le in H. lia. }
  split; [apply decode_ascii; exact Hascii|].
  split; [apply strip_digits; exact Hdigit|]. split; assumption.
Qed.

Lemma finish_theme_at_boundary (theme_body : bytes) (theme_start index : nat)
      (d : theme_data) (theme_list : list theme_data)
      (index1 : nat) (d1 : theme_data) (post : bytes) :
  parse_code theme_body index d = Ok (index1, d1) ->
  skipn index1 theme_body = post ->
  index1 <= length theme_body ->
  theme_start < index1 ->
  post = [] \/ (exists post', post = x0a :: post') ->
  get_truthy (td_id d1) && get_truthy (td_name d1) = true ->
  finish_theme theme_body theme_start index d theme_list
  = Ok (let d2 := set_all_fields [] (set_raw_data [] d1) in
        match post with
        | [] => Break (theme_list ++ [d2])
        | _ :: _ => Continue index1 (theme_list ++ [d2])
        end).
Proof.
  intros Hcode Hskip Hle Hstart Hpost Htruthy.
  unfold finish_theme. rewrite Hcode. cbn [bind].
  pose proof (skipn_length _ _ _ Hskip Hle) as Hlen.
  destruct Hpost as [->|(post' & ->)].
  - cbn [length] in Hlen. assert (Hend : index1 = length theme_body) by lia.
    clear Hlen Hle. subst index1. rewrite find_at_end.
    unfold slice. rewrite Nat.sub_diag.
    cbn [firstn field_loop]. rewrite Nat.ltb_irrefl.
    cbn [bind]. cbn [set_all_fields set_raw_data td_id td_name] in *.
    rewrite Htruthy.
    destruct (Nat.leb_spec (length theme_body) theme_start); [lia|].
    rewrite Nat.leb_refl. reflexivity.
  - rewrite (find_skipn _ _ _ _ Hskip).
    unfold slice. rewrite Nat.sub_diag. cbn [firstn field_loop].
    rewrite Nat.ltb_irrefl. cbn [bind].
    cbn [set_all_fields set_raw_data td_id td_name] in *.
    rewrite Htruthy.
    destruct (Nat.leb_spec index1 theme_start); [lia|].
    cbn [length] in Hlen.
    destruct (Nat.leb_spec (length theme_body) index1); [lia|]. reflexivity.
Qed.

(** The code part of an encoded record, as [parse_code] reads it. *)
Lemma parse_code_encoded (theme_body : bytes) (index : nat) (d : theme_data)
      (code : option bytes) (post : bytes) :
  skipn index theme_body
  = match code with
    | Some c => x22 :: byte_of_nat (length c) :: c
    | None => []
    end ++ post ->
  index <= length theme_body ->
  match code with Some c => length c <= 255 | None => True end ->
  post = [] \/ (exists post', post = x0a :: post') ->
  exists index1,
    parse_code theme_body index d
    = Ok (index1,
          match code with
          | Some c => set_code (decode_utf8_ignore c) d
          | None => d
          end)
    /\ skipn index1 theme_body = post
    /\ index <= index1 <= length theme_body
    /\ index1 = index + match code with Some c => 2 + length c | None => 0 end.
Proof.
  intros Hskip Hle Hcode Hpost. unfold parse_code.
  destruct code as [c|].
  - cbn [app] in Hskip.
    pose proof (skipn_nonempty_lt _ _ _ _ Hskip) as Hlt.
    pose proof (skipn_step _ _ [x22] _ Hskip) as Hskip1. cbn [length] in Hskip1.
    pose proof (skipn_step _ _ [x22; byte_of_nat (length c)] _ Hskip) as Hskip2.
    cbn [length] in Hskip2.
    pose proof (skipn_step _ _ _ _ Hskip2) as Hskip3.
    pose proof (skipn_length _ _ _ Hskip2) as Hlen2.
    destruct (Nat.ltb_spec index (length theme_body)); [|lia].
    rewrite (getitem_skipn _ _ _ _ Hskip). cbn [bind].
    change (byte_val x22 =? 34)%Z with true. cbn iota.
    rewrite (getitem_skipn _ _ _ _ Hskip1). cbn [bind].
    rewrite (byte_of_nat_to_nat _ Hcode).
    assert (Hfit : index + 2 + length c <= length theme_body).
    { pose proof (skipn_nonempty_lt _ _ _ _ Hskip1) as Hlt1.
      apply (f_equal (@length byte)) in Hskip2.
      rewrite length_skipn, length_app in Hskip2. lia. }
    destruct (Nat.leb_spec (index + 2 + length c) (length theme_body)); [|lia].
    rewrite (slice_skipn _ _ _ _ _ Hskip2 eq_refl).
    exists (index + 2 + length c). split; [reflexivity|].
    split; [exact Hskip3|]. split; lia.
  - cbn [app] in Hskip. exists index.
    split; [|split; [exact Hskip|split; lia]].
    destruct Hpost as [->|(post' & ->)].
    + apply (f_equal (@length byte)) in Hskip.
      rewrite length_skipn in Hskip. cbn [length] in Hskip.
      destruct (Nat.ltb_spec index (length theme_body)); [lia|reflexivity].
    + pose proof (skipn_nonempty_lt _ _ _ _ Hskip) as Hlt.
      destruct (Nat.ltb_spec index (length theme_body)); [|lia].
      rewrite (getitem_skipn _ _ _ _ Hskip). cbn [bind].
      change (byte_val x0a =? 34)%Z with false. reflexivity.
Qed.

Lemma encode_record_length (r : wire_record) :
  length (encode_record r)
  = 2 + length (wire_id r) + 2 + length (wire_name r)
    + match wire_code r with Some c => 2 + length c | None => 0 end.
Proof.
  unfold encode_record. cbn [length].
  rewrite length_app. cbn [length]. rewrite length_app.
  destruct (wire_code r); cbn [length]; lia.
Qed.

(** One pass of the outer loop up to the end of the name: an id of one to
    ten ASCII digits and a name, each with its tag and length byte,
    whatever follows. *)
Lemma scan_iteration_id_name (theme_body : bytes) (index : nat)
      (id name rest : bytes) (theme_list : list theme_data) :
  forallb (fun b => is_ascii_digit (byte_val b)) id = true ->
  1 <= length id <= 10 ->
  length name <= 255 ->
  skipn index theme_body
  = x0a :: byte_of_nat (length id) :: id
      ++ x12 :: byte_of_nat (length name) :: name ++ rest ->
  scan_iteration theme_body index theme_list
  = finish_theme theme_body index (index + 2 + length id + 2 + length name)
      (set_name (decode_utf8_ignore name)
                (set_id (map byte_val id) empty_theme_data))
      theme_list
  /\ skipn (index + 2 + length id + 2 + length name) theme_body = rest
  /\ length theme_body
     = index + 2 + length id + 2 + length name + length rest.
Proof.
  intros Hdigits Hidlen Hnamelen Hskip.
  pose proof (skipn_nonempty_lt _ _ _ _ Hskip) as Hlt.
  pose proof (skipn_step _ _ [x0a] _ Hskip) as Hs1. cbn [length] in Hs1.
  pose proof (skipn_step _ _ [x0a; byte_of_nat (length id)] _ Hskip) as Hs2.
  cbn [length] in Hs2.
  pose proof (skipn_step _ _ _ _ Hs2) as Hs3.
  pose proof (skipn_step _ _ [x12] _ Hs3) as Hs4. cbn [length] in Hs4.
  pose proof (skipn_step _ _ [x12; byte_of_nat (length name)] _ Hs3) as Hs5.
  cbn [length] in Hs5.
  pose proof (skipn_step _ _ _ _ Hs5) as Hs6.
  assert (Hlen : length theme_body
                 = index + 2 + length id + 2 + length name + length rest).
  { pose proof (f_equal (@length byte) Hskip) as Hl.
    rewrite length_skipn in Hl. cbn [length] in Hl.
    rewrite length_app in Hl. cbn [length] in Hl. rewrite length_app in Hl.
    lia. }
  split; [|split; [exact Hs6|exact Hlen]].
  destruct (digits_id id Hdigits ltac:(lia)) as (Hdec & Hstrip & Hisdigit & Htruthy).
  unfold scan_iteration.
  rewrite (find_skipn _ _ _ _ Hskip).
  destruct (Nat.leb_spec (length theme_body) (index + 2)); [lia|].
  rewrite (getitem_skipn _ _ _ _ Hs1). cbn [bind].
  rewrite (byte_of_nat_to_nat (length id)) by lia.
  destruct (Nat.ltb_spec (length theme_body) (index + 2 + length id)); [lia|].
  destruct (Nat.ltb_spec 20 (length id)); [lia|].
  rewrite (slice_skipn _ _ _ _ _ Hs2 eq_refl).
  rewrite Hdec, Htruthy, Hstrip, Hisdigit. cbn [negb orb].
  rewrite length_map.
  destruct (Nat.ltb_spec 10 (length id)); [lia|].
  destruct (Nat.leb_spec (length theme_body - 1) (index + 2 + length id)); [lia|].
  rewrite (getitem_skipn _ _ _ _ Hs3). cbn [bind].
  change (byte_val x12 =? 18)%Z with true. cbn iota.
  rewrite (getitem_skipn _ _ _ _ Hs4). cbn [bind].
  rewrite (byte_of_nat_to_nat (length name)) by lia.
  destruct (Nat.ltb_spec (length theme_body)
                         (index + 2 + length id + 2 + length name)); [lia|].
  rewrite (slice_skipn _ _ _ _ _ Hs5 eq_refl). reflexivity.
Qed.

Lemma encode_record_shape (r : wire_record) (post : bytes) :
  encode_record r ++ post
  = x0a :: byte_of_nat (length (wire_id r)) :: wire_id r
      ++ x12 :: byte_of_nat (length (wire_name r)) :: wire_name r
      ++ match wire_code r with
         | Some c => x22 :: byte_of_nat (length c) :: c
         | None => []
         end ++ post.
Proof.
  unfold encode_record. cbn [app]. rewrite <- !app_assoc. cbn [app].
  rewrite <- !app_assoc. reflexivity.
Qed.

(** One pass of the outer loop over an encoded record that ends the
    window or is followed by another anchor. *)
Lemma scan_iteration_record (theme_body : bytes) (index : nat)
      (r : wire_record) (post : bytes) (theme_list : list theme_data) :
  encodable r ->
  skipn index theme_body = encode_record r ++ post ->
  post = [] \/ (exists post', post = x0a :: post') ->
  scan_iteration theme_body index theme_list
  = Ok (match post with
        | [] => Break (theme_list ++ [scanned_record r])
        | _ :: _ =>
            Continue (index + length (encode_record r))
                     (theme_list ++ [scanned_record r])
        end).
Proof.
  intros (Hdigits & Hidlen & Hnamelen & Hname & Hcodelen) Hskip Hpost.
  rewrite encode_record_shape in Hskip. rewrite encode_record_length.
  destruct r as [id name code]. unfold scanned_record.
  cbn [wire_id wire_name wire_code] in *.
  destruct (scan_iteration_id_name theme_body index id name _ theme_list
                                   Hdigits Hidlen Hnamelen Hskip)
    as (Hit & Hs6 & Hlen).
  rewrite Hit.
  destruct (digits_id id Hdigits ltac:(lia)) as (_ & _ & _ & Htruthy).
  destruct (parse_code_encoded theme_body
              (index + 2 + length id + 2 + length name)
              (set_name (decode_utf8_ignore name)
                        (set_id (map byte_val id) empty_theme_data))
              code post Hs6 ltac:(lia) Hcodelen Hpost)
    as (index1 & Hcode & Hskip1 & Hrange & Hindex1).
  rewrite (finish_theme_at_boundary theme_body index _ _ theme_list _ _ _
             Hcode Hskip1 ltac:(lia) ltac:(lia) Hpost).
  - cbn zeta. subst index1.
    destruct post; destruct code; cbn [option_map];
      first [reflexivity|f_equal; f_equal; first [lia|reflexivity]].
  - destruct code; cbn [set_code set_name set_id td_id td_name get_truthy];
      rewrite Htruthy, Hname; reflexivity.
Qed.

Lemma encode_record_starts (r : wire_record) (post : bytes) :
  exists post', encode_record r ++ post = x0a :: post'.
Proof.
  unfold encode_record. cbn [app]. eauto.
Qed.

Lemma concat_records_length (rs : list wire_record) :
  length rs <= length (concat (map encode_record rs)).
Proof.
  induction rs as [|r rs IH]; [cbn; lia|].
  cbn [map concat length]. rewrite length_app, encode_record_length. lia.
Qed.

(** The outer loop over a run of encoded records: it appends their
    dictionaries in order; behind the run it stops at the end of the
    window, or goes on at the anchor that follows. *)
Lemma scan_loop_records (rs : list wire_record) :
  forall (theme_body : bytes) (index : nat) (post : bytes)
         (theme_list : list theme_data) (fuel : nat),
    Forall encodable rs ->
    skipn index theme_body = concat (map encode_record rs) ++ post ->
    index <= length theme_body ->
    post = [] \/ (exists post', post = x0a :: post') ->
    length rs <= fuel ->
    scan_loop fuel theme_body index theme_list
    = match post with
      | [] => Ok (theme_list ++ map scanned_record rs)
      | _ :: _ =>
          scan_loop (fuel - length rs) theme_body
                    (index + length (concat (map encode_record rs)))
                    (theme_list ++ map scanned_record rs)
      end.
Proof.
  induction rs as [|r rs IH];
    intros theme_body index post theme_list fuel Hall Hskip Hle Hpost Hfuel.
  - cbn [map concat app length] in *. rewrite app_nil_r, Nat.add_0_r, Nat.sub_0_r.
    destruct post; [|reflexivity].
    pose proof (skipn_length _ _ _ Hskip Hle) as Hlen. cbn [length] in Hlen.
    destruct fuel; cbn [scan_loop];
      (destruct (Nat.ltb_spec index (length theme_body)); [lia|reflexivity]).
  - inversion Hall as [|r' rs' Hr Hrs]; subst r' rs'.
    cbn [map concat length] in *. rewrite <- app_assoc in Hskip.
    destruct fuel as [|fuel]; [lia|].
    assert (Hnext : concat (map encode_record rs) ++ post = []
                    \/ exists post', concat (map encode_record rs) ++ post
                                     = x0a :: post').
    { destruct rs as [|r2 rs].
      - cbn [map concat app]. exact Hpost.
      - right. cbn [map concat]. rewrite <- app_assoc.
        apply encode_record_starts. }
    destruct (encode_record_starts r (concat (map encode_record rs) ++ post))
      as (p0 & Hp0).
    pose proof Hskip as Hskip'. rewrite Hp0 in Hskip'.
    pose proof (skipn_nonempty_lt _ _ _ _ Hskip') as Hlt.
    cbn [scan_loop].
    destruct (Nat.ltb_spec index (length theme_body)); [|lia].
    rewrite (scan_iteration_record theme_body index r _ theme_list Hr Hskip Hnext).
    cbn [bind].
    pose proof (skipn_step _ _ _ _ Hskip) as Hskip2.
    destruct (concat (map encode_record rs) ++ post) as [|b tail] eqn:Htail.
    + apply app_eq_nil in Htail as [Hc ->].
      assert (rs = []).
      { destruct rs as [|r2 rs]; [reflexivity|].
        cbn [map concat] in Hc.
        destruct (encode_record_starts r2 (concat (map encode_record rs)))
          as (p2 & Hp2). rewrite Hp2 in Hc. discriminate. }
      subst rs. reflexivity.
    + rewrite <- Htail in Hskip2.
      assert (Hle2 : index + length (encode_record r) <= length theme_body).
      { pose proof (f_equal (@length byte) Hskip) as Hl.
        rewrite length_skipn, length_app in Hl. lia. }
      rewrite (IH theme_body (index + length (encode_record r)) post
                  (theme_list ++ [scanned_record r]) fuel Hrs Hskip2 Hle2 Hpost
                  ltac:(lia)).
      rewrite <- !app_assoc. cbn [app]. rewrite length_app.
      replace (index + length (encode_record r)
               + length (concat (map encode_record rs)))
        with (index + (length (encode_record r)
                       + length (concat (map encode_record rs)))) by lia.
      replace (S fuel - S (length rs)) with (fuel - length rs) by lia.
      reflexivity.
Qed.

Lemma windows_one (message_body : bytes) :
  0 < length message_body <= chunk_size ->
  windows message_body = [message_body].
Proof.
  intros Hlen. unfold windows.
  pose proof chunk_size_pos as Hpos.
  assert (Htotal : (length message_body + chunk_size - 1) / chunk_size = 1).
  { symmetry. apply (Nat.div_unique _ _ 1 (length message_body - 1)); lia. }
  rewrite Htotal. cbn [seq map]. unfold window. cbn [Nat.mul skipn].
  rewrite firstn_all2 by lia. reflexivity.
Qed.

Lemma windows_nil : windows [] = [].
Proof.
  unfold windows. cbn [length]. rewrite Nat.div_small; [reflexivity|].
  pose proof chunk_size_pos. lia.
Qed.

(** The body of a packet of at most one window is scanned as a whole. *)
Lemma scan_chunks_one_window (message_body : bytes) :
  length message_body <= chunk_size ->
  (forall l, parse_theme_list message_body = Ok l ->
             scan_chunks message_body = Ok l)
  /\ (forall e, parse_theme_list message_body = Raise e ->
                scan_chunks message_body = Raise e).
Proof.
  intros Hlen. rewrite scan_chunks_windows.
  destruct message_body as [|b message_body].
  - rewrite windows_nil. cbn [scan_windows]. split.
    + intros l H. vm_compute in H. congruence.
    + intros e H. vm_compute in H. discriminate.
  - rewrite windows_one by (cbn [length] in *; lia).
    cbn [scan_windows]. split.
    + intros l ->. cbn [bind]. rewrite app_nil_r. reflexivity.
    + intros e ->. reflexivity.
Qed.

Lemma extract_accepted (packet_type hi lo : byte) (message_body : bytes) :
  has_type 0x40 0x60 [packet_type] = true ->
  unpack_be16 hi lo <= length message_body ->
  _extract_theme_list_from_packet (packet_type :: hi :: lo :: message_body)
  = (themes <- scan_chunks message_body ;; Ok (simplify themes)).
Proof.
  intros Htype Hlen. unfold _extract_theme_list_from_packet.
  cbn [has_type] in Htype. rewrite Htype. cbn [negb length].
  destruct (Nat.ltb_spec (S (S (S (length message_body))))
                         (3 + unpack_be16 hi lo)); [lia|reflexivity].
Qed.

(** X9. Records written one behind the other as id and name, with or
    without a code, are found again in the same order, each with the
    decoded id, name and code and nothing else, provided the scan starts
    where they start: there is no start marker in the window, or the bytes
    before the records end with the first one.  A packet of type 0x40 or
    0x60 whose body is such a window of at most 4096 bytes gives the
    catalog filtered from exactly these records. *)
Theorem encoded_records_found (pre : bytes) (rs : list wire_record) :
  Forall encodable rs ->
  initial_index (pre ++ concat (map encode_record rs)) = length pre ->
  parse_theme_list (pre ++ concat (map encode_record rs))
  = Ok (map scanned_record rs)
  /\ (forall packet_type hi lo,
         has_type 0x40 0x60 [packet_type] = true ->
         unpack_be16 hi lo <= length (pre ++ concat (map encode_record rs)) ->
         length (pre ++ concat (map encode_record rs)) <= chunk_size ->
         _extract_theme_list_from_packet
           (packet_type :: hi :: lo :: pre ++ concat (map encode_record rs))
         = Ok (simplify (map scanned_record rs))).
Proof.
  intros Hall Hinit.
  assert (Hparse : parse_theme_list (pre ++ concat (map encode_record rs))
                   = Ok (map scanned_record rs)).
  { unfold parse_theme_list. rewrite Hinit.
    rewrite (scan_loop_records rs _ (length pre) [] [] _ Hall).
    - reflexivity.
    - rewrite skipn_length_app, app_nil_r. reflexivity.
    - rewrite length_app. lia.
    - left. reflexivity.
    - rewrite length_app. pose proof (concat_records_length rs). lia. }
  split; [exact Hparse|].
  intros packet_type hi lo Htype Hdecl Hsize.
  rewrite (extract_accepted _ _ _ _ Htype Hdecl).
  rewrite (proj1 (scan_chunks_one_window _ Hsize) _ Hparse). reflexivity.
Qed.

Lemma encoded_records_found_witness :
  parse_theme_list
    ([x00; x0b; xc1; x00; x00; x00]
       ++ concat (map encode_record
                      [WireRecord [x35; x30; x30] [x41] None;
                       WireRecord [x37] [xe4; xb8; xad] (Some [x42; x4b])]))
  = Ok (map scanned_record
            [WireRecord [x35; x30; x30] [x41] None;
             WireRecord [x37] [xe4; xb8; xad] (Some [x42; x4b])])
  /\ (forall packet_type hi lo,
         has_type 0x40 0x60 [packet_type] = true ->
         unpack_be16 hi lo
         <= length ([x00; x0b; xc1; x00; x00; x00]
                      ++ concat (map encode_record
                                     [WireRecord [x35; x30; x30] [x41] None;
                                      WireRecord [x37] [xe4; xb8; xad]
                                                 (Some [x42; x4b])])) ->
         length ([x00; x0b; xc1; x00; x00; x00]
                   ++ concat (map encode_record
                                  [WireRecord [x35; x30; x30] [x41] None;
                                   WireRecord [x37] [xe4; xb8; xad]
                                              (Some [x42; x4b])]))
         <= chunk_size ->
         _extract_theme_list_from_packet
           (packet_type :: hi :: lo
              :: [x00; x0b; xc1; x00; x00; x00]
              ++ concat (map encode_record
                             [WireRecord [x35; x30; x30] [x41] None;
                              WireRecord [x37] [xe4; xb8; xad]
                                         (Some [x42; x4b])]))
         = Ok (simplify (map scanned_record
                             [WireRecord [x35; x30; x30] [x41] None;
                              WireRecord [x37] [xe4; xb8; xad]
                                         (Some [x42; x4b])]))).
Proof.
  apply (encoded_records_found
           [x00; x0b; xc1; x00; x00; x00]
           [WireRecord [x35; x30; x30] [x41] None;
            WireRecord [x37] [xe4; xb8; xad] (Some [x42; x4b])]).
  - repeat constructor; cbn; lia.
  - reflexivity.
Defined.

(** ** The unguarded read of the code length *)

Lemma parse_code_raises (theme_body : bytes) (index : nat) (d : theme_data)
      (e : exn) :
  parse_code theme_body index d = Raise e
  <-> e = IndexError
      /\ index + 1 = length theme_body
      /\ getitem theme_body index = Ok x22.
Proof.
  unfold parse_code. split.
  - destruct (Nat.ltb_spec index (length theme_body)) as [Hlt|]; [|discriminate].
    destruct (getitem_lt theme_body index Hlt) as [tag Htag].
    rewrite Htag. cbn [bind].
    destruct (Z.eqb_spec (byte_val tag) 34) as [Htag22|]; [|discriminate].
    assert (tag = x22) by (revert Htag22; clear; destruct tag; cbv; congruence).
    subst tag.
    destruct (getitem_cases theme_body (index + 1)) as [Hcb|[cb Hcb]];
      rewrite Hcb; cbn [bind].
    + intros H. inversion H. split; [reflexivity|]. split; [|reflexivity].
      unfold getitem in Hcb.
      destruct (nth_error theme_body (index + 1)) eqn:E; [discriminate|].
      apply nth_error_None in E. lia.
    + destruct (_ <=? _); discriminate.
  - intros (-> & Hend & Htag).
    destruct (Nat.ltb_spec index (length theme_body)); [|lia].
    rewrite Htag. cbn [bind]. change (byte_val x22 =? 34)%Z with true. cbn iota.
    unfold getitem at 1.
    assert (E : nth_error theme_body (index + 1) = None)
      by (apply nth_error_None; lia).
    rewrite E. reflexivity.
Qed.

(** X10. [parse_code] raises exactly when the code tag 0x22 is the last
    byte of the window: the read of its length byte has no bounds test.
    So a window that ends with a record of id and name followed by the
    single byte 0x22 makes [parse_theme_list] raise [IndexError], whatever
    well-formed records stand before; for a packet of at most one window
    [_extract_theme_list_from_packet] raises too, and [parse_packet]
    returns [None]: the records found before are lost. *)
Theorem lone_code_tag_raises (pre : bytes) (rs : list wire_record)
        (r : wire_record) :
  Forall encodable rs ->
  encodable r ->
  wire_code r = None ->
  initial_index (pre ++ concat (map encode_record rs) ++ encode_record r ++ [x22])
  = length pre ->
  (forall theme_body index d e,
      parse_code theme_body index d = Raise e
      <-> e = IndexError
          /\ index + 1 = length theme_body
          /\ getitem theme_body index = Ok x22)
  /\ parse_theme_list
       (pre ++ concat (map encode_record rs) ++ encode_record r ++ [x22])
     = Raise IndexError
  /\ (forall packet_type hi lo,
         let message_body :=
           pre ++ concat (map encode_record rs) ++ encode_record r ++ [x22] in
         has_type 0x40 0x60 [packet_type] = true ->
         unpack_be16 hi lo <= length message_body ->
         length message_body <= chunk_size ->
         _extract_theme_list_from_packet
           (packet_type :: hi :: lo :: message_body)
         = Raise IndexError
         /\ parse_packet (byte_val packet_type)
                         (packet_type :: hi :: lo :: message_body)
            = Ok None).
Proof.
  intros Hall Hr Hnocode Hinit.
  set (body := pre ++ concat (map encode_record rs) ++ encode_record r ++ [x22])
    in *.
  assert (Hparse : parse_theme_list body = Raise IndexError).
  { unfold parse_theme_list. rewrite Hinit.
    destruct (encode_record_starts r [x22]) as (p0 & Hp0).
    assert (Hskip : skipn (length pre) body
                    = concat (map encode_record rs) ++ encode_record r ++ [x22])
      by (subst body; apply skipn_length_app).
    assert (Hlen : length body
                   = length pre + length (concat (map encode_record rs))
                     + length (encode_record r) + 1).
    { subst body. rewrite !length_app. cbn [length]. lia. }
    pose proof (concat_records_length rs) as Hrs.
    pose proof (encode_record_length r) as Hrlen.
    rewrite (scan_loop_records rs body (length pre) (encode_record r ++ [x22])
                               [] (length body) Hall Hskip ltac:(lia)
                               ltac:(right; eauto) ltac:(lia)).
    rewrite Hp0.
    pose proof (skipn_step _ _ _ _ Hskip) as Hskip2.
    rewrite encode_record_shape, Hnocode in Hskip2. cbn [app] in Hskip2.
    destruct Hr as (Hdigits & Hidlen & Hnamelen & _).
    destruct (scan_iteration_id_name body _ _ _ _ (map scanned_record rs)
                                     Hdigits Hidlen Hnamelen Hskip2)
      as (Hit & Hs6 & Hlen2).
    destruct (length body - length rs) as [|fuel] eqn:Hfuel; [lia|].
    cbn [scan_loop app].
    destruct (Nat.ltb_spec (length pre + length (concat (map encode_record rs)))
                           (length body)); [|lia].
    rewrite Hit.
    rewrite (finish_theme_raise _ _ _ _ _ IndexError); [reflexivity|].
    apply parse_code_raises. split; [reflexivity|].
    cbn [length] in Hlen2. split; [lia|].
    apply (getitem_skipn _ _ _ [] Hs6). }
  split; [intros; apply parse_code_raises|]. split; [exact Hparse|].
  intros packet_type hi lo message_body Htype Hdecl Hsize. subst message_body.
  fold body in Hdecl, Hsize |- *.
  pose proof (proj2 (scan_chunks_one_window body Hsize) _ Hparse) as Hscan.
  split.
  - rewrite (extract_accepted _ _ _ _ Htype Hdecl), Hscan. reflexivity.
  - unfold parse_packet. rewrite Z.eqb_refl. cbn [negb length].
    destruct (Nat.ltb_spec (S (S (S (length body)))) (3 + unpack_be16 hi lo));
      [lia|].
    rewrite Hscan. reflexivity.
Qed.

Lemma lone_code_tag_raises_witness :
  parse_theme_list
    ([] ++ concat (map encode_record [WireRecord [x35; x30; x30] [x41] None])
        ++ encode_record (WireRecord [x37] [x42] None) ++ [x22])
  = Raise IndexError.
Proof.
  apply (proj1 (proj2 (lone_code_tag_raises
                         [] [WireRecord [x35; x30; x30] [x41] None]
                         (WireRecord [x37] [x42] None)
                         ltac:(repeat constructor; cbn; lia)
                         ltac:(repeat constructor; cbn; lia)
                         eq_refl eq_refl))).
Defined.

(** ** fetch_theme_list: the session *)

Lemma receive_packet_frame (sock : socket) (packet rest : bytes) :
  well_formed_frame packet ->
  concat sock = packet ++ rest ->
  exists sock',
    receive_packet sock = Ok (Some packet, sock') /\ concat sock' = rest.
Proof.
  intros (t & hi & lo & body & -> & Hlen) Hcat.
  pose proof (receive_packet_spec sock) as Hspec.
  cbn [app] in Hcat. rewrite Hcat in Hspec.
  rewrite length_app, <- Hlen in Hspec.
  destruct (Nat.leb_spec (length body) (length body + length rest)); [|lia].
  destruct Hspec as (sock' & Hres & Hrest).
  rewrite firstn_app, firstn_all, Nat.sub_diag in Hres.
  cbn [firstn] in Hres. rewrite app_nil_r in Hres.
  rewrite skipn_app, skipn_all, Nat.sub_diag in Hrest.
  cbn [skipn app] in Hrest. eauto.
Qed.

Lemma receive_packet_closed (sock : socket) :
  concat sock = [] -> receive_packet sock = Ok (None, []).
Proof.
  intros Hcat. pose proof (receive_packet_spec sock) as Hspec.
  rewrite Hcat in Hspec. exact Hspec.
Qed.

Lemma well_formed_frame_cons (packet : bytes) :
  well_formed_frame packet ->
  exists packet_type tail, packet = packet_type :: tail.
Proof.
  intros (t & hi & lo & body & -> & _). eauto.
Qed.

(** The login loop on a closed stream. *)
Lemma login_loop_closed (attempts : nat) :
  forall sock,
    concat sock = [] ->
    exists sock', login_loop attempts sock = Ok (false, sock').
Proof.
  induction attempts as [|n IH]; intros sock Hcat; [eexists; reflexivity|].
  cbn [login_loop]. rewrite (receive_packet_closed sock Hcat). cbn [bind].
  apply IH. reflexivity.
Qed.

(** The login loop over frames that are not answers to the login. *)
Lemma login_loop_skips (ps : list bytes) :
  forall (attempts : nat) (sock : socket) (rest : bytes),
    Forall well_formed_frame ps ->
    Forall (fun p => has_type 0x30 0x60 p = false) ps ->
    concat sock = concat ps ++ rest ->
    length ps <= attempts ->
    exists sock',
      login_loop attempts sock = login_loop (attempts - length ps) sock'
      /\ concat sock' = rest.
Proof.
  induction ps as [|p ps IH]; intros attempts sock rest Hwf Htype Hcat Hlen.
  - exists sock. rewrite Nat.sub_0_r. auto.
  - inversion Hwf as [|? ? Hp Hps]; subst.
    inversion Htype as [|? ? Htp Htps]; subst.
    destruct attempts as [|n]; [cbn in Hlen; lia|].
    cbn [concat] in Hcat. rewrite <- app_assoc in Hcat.
    destruct (receive_packet_frame sock p _ Hp Hcat) as (sock1 & Hrecv & Hcat1).
    destruct (well_formed_frame_cons p Hp) as (t & tail & ->).
    destruct (IH n sock1 rest Hps Htps Hcat1 ltac:(cbn in Hlen; lia))
      as (sock' & Hloop & Hrest).
    exists sock'. split; [|exact Hrest].
    cbn [login_loop]. rewrite Hrecv. cbn [bind].
    cbn [has_type] in Htp. rewrite Htp. exact Hloop.
Qed.

Lemma wait_loop_closed (attempts : nat) :
  forall sock,
    concat sock = [] ->
    exists sock', wait_loop attempts sock [] = Ok ([], sock').
Proof.
  induction attempts as [|n IH]; intros sock Hcat; [eexists; reflexivity|].
  cbn [wait_loop]. rewrite (receive_packet_closed sock Hcat). cbn [bind].
  apply IH. reflexivity.
Qed.

(** The wait loop over frames that do not end the wait. *)
Lemma wait_loop_skips (ps : list bytes) :
  forall (attempts : nat) (sock : socket) (rest : bytes),
    Forall well_formed_frame ps ->
    Forall yields_nothing ps ->
    concat sock = concat ps ++ rest ->
    length ps <= attempts ->
    exists sock',
      wait_loop attempts sock [] = wait_loop (attempts - length ps) sock' []
      /\ concat sock' = rest.
Proof.
  induction ps as [|p ps IH]; intros attempts sock rest Hwf Hnone Hcat Hlen.
  - exists sock. rewrite Nat.sub_0_r. auto.
  - inversion Hwf as [|? ? Hp Hps]; subst.
    inversion Hnone as [|? ? Hnp Hnps]; subst.
    destruct attempts as [|n]; [cbn in Hlen; lia|].
    cbn [concat] in Hcat. rewrite <- app_assoc in Hcat.
    destruct (receive_packet_frame sock p _ Hp Hcat) as (sock1 & Hrecv & Hcat1).
    destruct (well_formed_frame_cons p Hp) as (t & tail & ->).
    destruct (IH n sock1 rest Hps Hnps Hcat1 ltac:(cbn in Hlen; lia))
      as (sock' & Hloop & Hrest).
    exists sock'. split; [|exact Hrest].
    cbn [wait_loop]. rewrite Hrecv. cbn [bind].
    unfold yields_nothing in Hnp. cbn [has_type] in Hnp.
    destruct ((byte_val t =? 64) || (byte_val t =? 96))%Z.
    + destruct Hnp as [Hnp|Hnp]; [discriminate|].
      rewrite Hnp. cbn [bind]. exact Hloop.
    + exact Hloop.
Qed.

(** The wait loop when it runs out of attempts or of stream over frames
    that do not end the wait. *)
Lemma wait_loop_nothing (attempts : nat) :
  forall (ps : list bytes) (sock : socket),
    Forall well_formed_frame ps ->
    Forall yields_nothing ps ->
    concat sock = concat ps ->
    exists sock', wait_loop attempts sock [] = Ok ([], sock').
Proof.
  induction attempts as [|n IH]; intros ps sock Hwf Hnone Hcat;
    [eexists; reflexivity|].
  destruct ps as [|p ps].
  - apply wait_loop_closed. exact Hcat.
  - inversion Hwf as [|? ? Hp Hps]; subst.
    inversion Hnone as [|? ? Hnp Hnps]; subst.
    destruct (wait_loop_skips [p] (S n) sock (concat ps)
                              ltac:(auto) ltac:(auto)) as (sock1 & Hloop & Hcat1).
    { cbn [concat] in *. rewrite app_nil_r. exact Hcat. }
    { cbn. lia. }
    rewrite Hloop. cbn [length]. replace (S n - 1) with n by lia.
    apply (IH ps sock1 Hps Hnps Hcat1).
Qed.

Lemma login_loop_nothing (attempts : nat) :
  forall (ps : list bytes) (sock : socket),
    Forall well_formed_frame ps ->
    Forall (fun p => has_type 0x30 0x60 p = false) ps ->
    concat sock = concat ps ->
    exists sock', login_loop attempts sock = Ok (false, sock').
Proof.
  induction attempts as [|n IH]; intros ps sock Hwf Htype Hcat;
    [eexists; reflexivity|].
  destruct ps as [|p ps].
  - apply login_loop_closed. exact Hcat.
  - inversion Hwf as [|? ? Hp Hps]; subst.
    inversion Htype as [|? ? Htp Htps]; subst.
    destruct (login_loop_skips [p] (S n) sock (concat ps)
                               ltac:(auto) ltac:(auto)) as (sock1 & Hloop & Hcat1).
    { cbn [concat] in *. rewrite app_nil_r. exact Hcat. }
    { cbn. lia. }
    rewrite Hloop. cbn [length]. replace (S n - 1) with n by lia.
    apply (IH ps sock1 Hps Htps Hcat1).
Qed.

(** X11. When the server sends only frames of other types than 0x30 and
    0x60 and closes, or closes at once, the login fails: whatever the
    number of attempts, [fetch_theme_list] raises [RuntimeError], and it
    has sent the login message only. *)
Theorem fetch_login_fails (login_cmd : bytes) (max_wait_packets : nat)
        (sock : socket) (ps : list bytes) :
  Forall well_formed_frame ps ->
  Forall (fun p => has_type 0x30 0x60 p = false) ps ->
  concat sock = concat ps ->
  fetch_theme_list login_cmd max_wait_packets sock
  = (Fails RuntimeError, [login_cmd]).
Proof.
  intros Hwf Htype Hcat. unfold fetch_theme_list. cbn zeta.
  destruct (login_loop_nothing max_wait_packets ps sock Hwf Htype Hcat)
    as (sock' & ->).
  reflexivity.
Qed.

Lemma fetch_login_fails_witness :
  fetch_theme_list [x01; x02] 20 [[x11; x00]; [x00; x40; x00; x01; x07]]
  = (Fails RuntimeError, [[x01; x02]]).
Proof.
  apply (fetch_login_fails [x01; x02] 20 [[x11; x00]; [x00; x40; x00; x01; x07]]
                           [[x11; x00; x00]; [x40; x00; x01; x07]]).
  - repeat constructor.
    + exists x11, x00, x00, []. split; reflexivity.
    + exists x40, x00, x01, [x07]. split; reflexivity.
  - repeat constructor.
  - reflexivity.
Defined.

Lemma forall_firstn {A} (P : A -> Prop) (n : nat) (l : list A) :
  Forall P l -> Forall P (firstn n l).
Proof.
  intros H. revert n. induction H as [|x l Hx Hl IH]; intros [|n];
    cbn [firstn]; auto.
Qed.

Lemma login_loop_ack (attempts : nat) (sock : socket) (ack rest : bytes) :
  well_formed_frame ack ->
  has_type 0x30 0x60 ack = true ->
  concat sock = ack ++ rest ->
  exists sock',
    login_loop (S attempts) sock = Ok (true, sock') /\ concat sock' = rest.
Proof.
  intros Hwf Htype Hcat.
  destruct (receive_packet_frame sock ack rest Hwf Hcat) as (sock' & Hrecv & Hrest).
  destruct (well_formed_frame_cons ack Hwf) as (t & tail & ->).
  exists sock'. split; [|exact Hrest].
  cbn [login_loop]. rewrite Hrecv. cbn [bind].
  cbn [has_type] in Htype. rewrite Htype. reflexivity.
Qed.

(** X12. A session in which the server answers the login.  Before the
    answer (a frame of type 0x30 or 0x60) it may send fewer frames of
    other types than there are attempts; behind it, frames that do not end
    the wait: frames of other types than 0x40 and 0x60, or with an empty
    catalog.  Then: if the server closes, or the attempts run out, the
    result is the empty list and no error; if a frame of type 0x40 or 0x60
    with a non-empty catalog follows within the attempts, the result is
    that catalog; if the extraction of such a frame raises, the error
    reaches the caller.  In each case the login message, the heartbeat and
    the request have been sent, in this order. *)
Theorem fetch_after_login (login_cmd : bytes) (max_wait_packets : nat)
        (sock : socket) (skip1 : list bytes) (ack : bytes)
        (skip2 : list bytes) (tail : bytes) :
  Forall well_formed_frame skip1 ->
  Forall (fun p => has_type 0x30 0x60 p = false) skip1 ->
  length skip1 < max_wait_packets ->
  well_formed_frame ack ->
  has_type 0x30 0x60 ack = true ->
  Forall well_formed_frame skip2 ->
  Forall yields_nothing skip2 ->
  concat sock = concat skip1 ++ ack ++ concat skip2 ++ tail ->
  let sent := [login_cmd; heartbeat_cmd; THEME_CMD] in
  (tail = [] ->
   fetch_theme_list login_cmd max_wait_packets sock = (Returns [], sent))
  /\ (max_wait_packets <= length skip2 ->
      fetch_theme_list login_cmd max_wait_packets sock = (Returns [], sent))
  /\ (forall data rest,
         tail = data ++ rest ->
         well_formed_frame data ->
         has_type 0x40 0x60 data = true ->
         length skip2 < max_wait_packets ->
         (forall out,
             _extract_theme_list_from_packet data = Ok out ->
             out <> [] ->
             fetch_theme_list login_cmd max_wait_packets sock
             = (Returns out, sent))
         /\ (forall e,
                _extract_theme_list_from_packet data = Raise e ->
                fetch_theme_list login_cmd max_wait_packets sock
                = (Fails (Propagated e), sent))).
Proof.
  intros Hwf1 Hty1 Hlen1 Hack Htack Hwf2 Hnone2 Hcat sent.
  destruct (login_loop_skips skip1 max_wait_packets sock _ Hwf1 Hty1 Hcat
                             ltac:(lia)) as (sock1 & Hlogin1 & Hcat1).
  destruct (max_wait_packets - length skip1) as [|m] eqn:Hm; [lia|].
  destruct (login_loop_ack m sock1 ack _ Hack Htack Hcat1)
    as (sock2 & Hlogin2 & Hcat2).
  assert (Hfetch : fetch_theme_list login_cmd max_wait_packets sock
                   = match wait_loop max_wait_packets sock2 [] with
                     | Ok (theme_list, _) => (Returns theme_list, sent)
                     | Raise e => (Fails (Propagated e), sent)
                     | OutOfFuel => (NoFuel, sent)
                     end).
  { unfold fetch_theme_list. rewrite Hlogin1, Hlogin2. reflexivity. }
  rewrite Hfetch. clear Hfetch Hlogin1 Hlogin2.
  split; [|split].
  - intros ->. rewrite app_nil_r in Hcat2.
    destruct (wait_loop_nothing max_wait_packets skip2 sock2 Hwf2 Hnone2 Hcat2)
      as (sock' & ->).
    reflexivity.
  - intros Hout.
    rewrite <- (firstn_skipn max_wait_packets skip2) in Hcat2.
    rewrite concat_app, <- app_assoc in Hcat2.
    destruct (wait_loop_skips (firstn max_wait_packets skip2) max_wait_packets
                              sock2 _
                              (forall_firstn _ _ _ Hwf2)
                              (forall_firstn _ _ _ Hnone2)
                              Hcat2 ltac:(rewrite length_firstn; lia))
      as (sock' & Hloop & _).
    rewrite Hloop, length_firstn.
    replace (max_wait_packets - Nat.min max_wait_packets (length skip2))
      with 0 by lia.
    reflexivity.
  - intros data rest -> Hdata Htdata Hlen2.
    destruct (wait_loop_skips skip2 max_wait_packets sock2 _ Hwf2 Hnone2 Hcat2
                              ltac:(lia)) as (sock3 & Hloop & Hcat3).
    rewrite Hloop.
    destruct (max_wait_packets - length skip2) as [|k] eqn:Hk; [lia|].
    destruct (receive_packet_frame sock3 data rest Hdata Hcat3)
      as (sock4 & Hrecv & _).
    destruct (well_formed_frame_cons data Hdata) as (t & body & ->).
    cbn [wait_loop]. rewrite Hrecv. cbn [bind].
    cbn [has_type] in Htdata. rewrite Htdata.
    split.
    + intros out Hex Hne. rewrite Hex. cbn [bind].
      destruct out; [congruence|reflexivity].
    + intros e Hex. rewrite Hex. reflexivity.
Qed.

Lemma fetch_after_login_witness :
  fetch_theme_list [x01] 3
    [[x11; x00; x00; x30]; [x00; x00; x11; x00; x00];
     [x40; x00; x08]; [x0a; x03; x35; x30; x30; x12; x01; x41]]
  = (Returns [ThemeRecord [53; 48; 48]%Z [65%Z] None 0],
     [[x01]; heartbeat_cmd; THEME_CMD]).
Proof.
  apply (proj1
           (proj2 (proj2 (fetch_after_login
              [x01] 3
              [[x11; x00; x00; x30]; [x00; x00; x11; x00; x00];
               [x40; x00; x08]; [x0a; x03; x35; x30; x30; x12; x01; x41]]
              [[x11; x00; x00]] [x30; x00; x00] [[x11; x00; x00]]
              [x40; x00; x08; x0a; x03; x35; x30; x30; x12; x01; x41]
              ltac:(repeat constructor; exists x11, x00, x00, []; split; reflexivity)
              ltac:(repeat constructor)
              ltac:(cbn; lia)
              ltac:(exists x30, x00, x00, []; split; reflexivity)
              eq_refl
              ltac:(repeat constructor; exists x11, x00, x00, []; split; reflexivity)
              ltac:(repeat constructor; left; reflexivity)
              eq_refl))
              [x40; x00; x08; x0a; x03; x35; x30; x30; x12; x01; x41] []
              eq_refl
              ltac:(exists x40, x00, x08, [x0a; x03; x35; x30; x30; x12; x01; x41];
                    split; reflexivity)
              eq_refl
              ltac:(cbn; lia))
           [ThemeRecord [53; 48; 48]%Z [65%Z] None 0]
           eq_refl
           ltac:(discriminate)).
Defined.

(** ** fetch_theme_list: what it can return or raise *)

Lemma extract_outcome (packet : bytes) :
  (exists out, _extract_theme_list_from_packet packet = Ok out)
  \/ _extract_theme_list_from_packet packet = Raise IndexError.
Proof.
  unfold _extract_theme_list_from_packet.
  destruct packet as [|t [|hi [|lo body]]]; try (left; eexists; reflexivity).
  destruct (negb _); [left; eexists; reflexivity|].
  destruct (_ <? _); [left; eexists; reflexivity|].
  destruct (scan_chunks_outcome body) as [[themes ->]| ->]; cbn [bind];
    [left; eexists; reflexivity|right; reflexivity].
Qed.

Lemma recv_from_spec (incoming : list Transport.arrival) (bufsize : nat) :
  (forall e, In (Transport.RecvRaises e)
                (snd (Transport.recv_from incoming bufsize)) ->
             In (Transport.RecvRaises e) incoming)
  /\ (forall e, fst (Transport.recv_from incoming bufsize) = inl e ->
                In (Transport.RecvRaises e) incoming).
Proof.
  induction incoming as [|a incoming IH]; cbn [Transport.recv_from].
  - split; [intros e []|discriminate].
  - destruct a as [[|b segment]|e0].
    + destruct IH as [IH1 IH2]. split; intros e H; right; auto.
    + destruct (length (b :: segment) <=? bufsize); cbn [fst snd].
      * split; [intros e H; right; exact H|discriminate].
      * split; [|discriminate].
        intros e [H|H]; [discriminate|right; exact H].
    + cbn [fst snd]. split.
      * intros e H. right. exact H.
      * intros e H. injection H as <-. left. reflexivity.
Qed.

Lemma reads_only_ret {A : Type} (scans : Prop) (a : A) (post : A -> Prop) :
  post a -> Transport.reads_only scans (Transport.ret a) post.
Proof.
  intros H w. cbn. auto.
Qed.

Lemma reads_only_bind {A B : Type} (scans : Prop) (m : Transport.io A)
      (k : A -> Transport.io B) (mid : A -> Prop) (post : B -> Prop) :
  Transport.reads_only scans m mid ->
  (forall a, mid a -> Transport.reads_only scans (k a) post) ->
  Transport.reads_only scans (Transport.bind m k) post.
Proof.
  intros Hm Hk w. unfold Transport.bind.
  destruct (Hm w) as (Hs & Hf & Hi & Hr).
  destruct (m w) as [[a|e|] w1]; cbn [fst snd] in *.
  - destruct (Hk a Hr w1) as (Hs' & Hf' & Hi' & Hr').
    rewrite Hs', Hf', Hs, Hf. split; [reflexivity|]. split; [reflexivity|].
    split; [auto|].
    destruct (fst (k a w1)) as [b|[|e'|e']|]; auto.
  - auto.
  - destruct Hr.
Qed.

Lemma reads_only_weaken {A : Type} (scans scans' : Prop) (m : Transport.io A)
      (post post' : A -> Prop) :
  Transport.reads_only scans m post ->
  (scans -> scans') ->
  (forall a, post a -> post' a) ->
  Transport.reads_only scans' m post'.
Proof.
  intros Hm Hsc Himp w. destruct (Hm w) as (Hs & Hf & Hi & Hr).
  split; [exact Hs|]. split; [exact Hf|]. split; [exact Hi|].
  destruct (fst (m w)) as [a|[|e|e]|]; auto.
  destruct Hr. auto.
Qed.

Lemma recv_reads_only (bufsize : nat) :
  Transport.reads_only False (Transport.recv bufsize) (fun _ => True).
Proof.
  intros w. unfold Transport.recv.
  destruct (recv_from_spec (Transport.incoming w) bufsize) as [H1 H2].
  destruct (Transport.recv_from (Transport.incoming w) bufsize)
    as [[e|chunk] rest]; cbn [fst snd Transport.sent Transport.send_faults
                                  Transport.incoming] in *; auto.
Qed.

(** The receive loop never runs out of its fuel, and the buffer it
    returns has the length asked for, at least. *)
Lemma recv_loop_reads_only (fuel : nat) :
  forall want buf,
    want - length buf <= fuel ->
    Transport.reads_only
      False (Transport.recv_loop fuel want buf)
      (fun r => match r with
                | Some buf' => want <= length buf'
                | None => True
                end).
Proof.
  induction fuel as [|fuel IH]; intros want buf Hfuel; cbn [Transport.recv_loop];
    destruct (Nat.ltb_spec (length buf) want) as [Hlt|Hge];
    try (apply reads_only_ret; exact Hge); [lia|].
  apply (reads_only_bind _ _ _ (fun _ => True)); [apply recv_reads_only|].
  intros [|b chunk] _; [apply reads_only_ret; exact I|].
  apply IH. rewrite length_app. cbn [length]. lia.
Qed.

Lemma receive_packet_reads_only :
  Transport.reads_only False Transport.receive_packet (fun _ => True).
Proof.
  unfold Transport.receive_packet.
  eapply reads_only_bind; [apply recv_loop_reads_only; cbn; lia|].
  cbv beta. intros [header|] Hlen; [|apply reads_only_ret; exact I].
  destruct header as [|t [|hi [|lo tail]]];
    try (cbn [length] in Hlen; lia).
  eapply reads_only_bind; [apply recv_loop_reads_only; cbn; lia|].
  cbv beta. intros [body|] _; apply reads_only_ret; exact I.
Qed.

Lemma login_loop_reads_only (attempts : nat) :
  Transport.reads_only False (Transport.login_loop attempts) (fun _ => True).
Proof.
  induction attempts as [|n IH]; cbn [Transport.login_loop];
    [apply reads_only_ret; exact I|].
  apply (reads_only_bind _ _ _ (fun _ => True));
    [apply receive_packet_reads_only|].
  intros [[|t tail]|] _; try exact IH.
  destruct (_ || _)%bool; [apply reads_only_ret; exact I|exact IH].
Qed.

Lemma lift_extract_reads_only (packet : bytes) :
  Transport.reads_only
    True (Transport.lift (_extract_theme_list_from_packet packet))
    (fun l => _extract_theme_list_from_packet packet = Ok l).
Proof.
  intros w.
  destruct (extract_outcome packet) as [[out Hex]|Hex]; rewrite Hex;
    cbn; auto.
Qed.

Lemma wait_loop_reads_only (attempts : nat) :
  forall theme_list,
    Transport.reads_only
      True (Transport.wait_loop attempts theme_list)
      (fun l => l = theme_list
                \/ exists packet, _extract_theme_list_from_packet packet = Ok l).
Proof.
  induction attempts as [|n IH]; intros theme_list; cbn [Transport.wait_loop];
    [apply reads_only_ret; left; reflexivity|].
  apply (reads_only_bind _ _ _ (fun _ => True));
    [eapply reads_only_weaken;
     [apply receive_packet_reads_only|intros []|auto]|].
  intros [[|t tail]|] _; try apply IH.
  destruct (_ || _)%bool; [|apply IH].
  eapply reads_only_bind; [apply lift_extract_reads_only|].
  cbv beta. intros [|r out] Hex.
  - eapply reads_only_weaken; [apply (IH [])|auto|].
    cbv beta. intros l [->|H]; right; [exists (t :: tail); exact Hex|exact H].
  - apply reads_only_ret. right. exists (t :: tail). exact Hex.
Qed.

(** A list the wait loop returns, started with the empty list. *)
Lemma returned_list_invariant (l : list theme_record) :
  l = [] \/ (exists packet, _extract_theme_list_from_packet packet = Ok l) ->
  NoDup (map rec_id l)
  /\ (forall r, In r l ->
                isdigit (rec_id r) = true
                /\ 1 <= length (rec_id r) <= 10
                /\ 1 <= length (rec_name r) <= 100
                /\ existsb invalid_char (rec_name r) = false).
Proof.
  intros [->|(packet & Hex)].
  - split; [constructor|]. intros r [].
  - split.
    + destruct (extract_cases _ _ Hex) as [->|(themes & _ & ->)];
        [constructor|apply simplify_spec].
    + intros r Hin. exact (catalog_record_invariant packet l r Hex Hin).
Qed.

(** The session behind the heartbeat. *)
Lemma request_outcomes (login_cmd : bytes) (max_wait_packets : nat)
      (incoming : list Transport.arrival) (faults : list (option os_error)) :
  match
    Transport.bind (Transport.sendall THEME_CMD)
                   (fun _ => Transport.wait_loop max_wait_packets [])
                   (Transport.Wire incoming faults [login_cmd; heartbeat_cmd])
  with
  | (Transport.Done theme_list, w) =>
      Transport.sent w = [login_cmd; heartbeat_cmd; THEME_CMD]
      /\ NoDup (map rec_id theme_list)
      /\ (forall r, In r theme_list ->
                    isdigit (rec_id r) = true
                    /\ 1 <= length (rec_id r) <= 10
                    /\ 1 <= length (rec_name r) <= 100
                    /\ existsb invalid_char (rec_name r) = false)
  | (Transport.Throws Transport.RuntimeError, w) => False
  | (Transport.Throws (Transport.ScanError e), w) =>
      e = IndexError
      /\ Transport.sent w = [login_cmd; heartbeat_cmd; THEME_CMD]
  | (Transport.Throws (Transport.OSError e), w) =>
      (In (Some e) (firstn 1 faults)
       /\ Transport.sent w = [login_cmd; heartbeat_cmd])
      \/ (In (Transport.RecvRaises e) incoming
          /\ Transport.sent w = [login_cmd; heartbeat_cmd; THEME_CMD])
  | (Transport.NoFuel, _) => False
  end.
Proof.
  assert (Hwait : forall faults',
             match
               Transport.wait_loop
                 max_wait_packets []
                 (Transport.Wire incoming faults'
                                 [login_cmd; heartbeat_cmd; THEME_CMD])
             with
             | (Transport.Done theme_list, w) =>
                 Transport.sent w = [login_cmd; heartbeat_cmd; THEME_CMD]
                 /\ NoDup (map rec_id theme_list)
                 /\ (forall r, In r theme_list ->
                               isdigit (rec_id r) = true
                               /\ 1 <= length (rec_id r) <= 10
                               /\ 1 <= length (rec_name r) <= 100
                               /\ existsb invalid_char (rec_name r) = false)
             | (Transport.Throws Transport.RuntimeError, w) => False
             | (Transport.Throws (Transport.ScanError e), w) =>
                 e = IndexError
                 /\ Transport.sent w = [login_cmd; heartbeat_cmd; THEME_CMD]
             | (Transport.Throws (Transport.OSError e), w) =>
                 (In (Some e) (firstn 1 faults)
                  /\ Transport.sent w = [login_cmd; heartbeat_cmd])
                 \/ (In (Transport.RecvRaises e) incoming
                     /\ Transport.sent w
                        = [login_cmd; heartbeat_cmd; THEME_CMD])
             | (Transport.NoFuel, _) => False
             end).
  { intros faults'.
    destruct (wait_loop_reads_only
                max_wait_packets []
                (Transport.Wire incoming faults'
                                [login_cmd; heartbeat_cmd; THEME_CMD]))
      as (Hs & _ & _ & Hr).
    destruct (Transport.wait_loop _ _ _) as [[l|[|e|e]|] w];
      cbn [fst snd Transport.sent Transport.incoming] in *.
    - split; [exact Hs|]. apply returned_list_invariant. exact Hr.
    - exact Hr.
    - split; [apply Hr|exact Hs].
    - right. split; [exact Hr|exact Hs].
    - exact Hr. }
  unfold Transport.bind at 1, Transport.sendall.
  cbn [Transport.send_faults Transport.incoming Transport.sent app].
  destruct faults as [|[e1|] faults']; cbn [firstn].
  - apply (Hwait []).
  - left. split; [left; reflexivity|reflexivity].
  - apply (Hwait faults').
Qed.

(** The session behind the login message. *)
Lemma session_outcomes (login_cmd : bytes) (max_wait_packets : nat)
      (incoming : list Transport.arrival) (faults : list (option os_error)) :
  match
    Transport.bind
      (Transport.login_loop max_wait_packets)
      (fun logged_in =>
         if negb logged_in then Transport.throw Transport.RuntimeError
         else
           Transport.bind
             Transport.send_heartbeat
             (fun _ =>
                Transport.bind
                  (Transport.sendall THEME_CMD)
                  (fun _ => Transport.wait_loop max_wait_packets [])))
      (Transport.Wire incoming faults [login_cmd])
  with
  | (Transport.Done theme_list, w) =>
      Transport.sent w = [login_cmd; heartbeat_cmd; THEME_CMD]
      /\ NoDup (map rec_id theme_list)
      /\ (forall r, In r theme_list ->
                    isdigit (rec_id r) = true
                    /\ 1 <= length (rec_id r) <= 10
                    /\ 1 <= length (rec_name r) <= 100
                    /\ existsb invalid_char (rec_name r) = false)
  | (Transport.Throws Transport.RuntimeError, w) =>
      Transport.sent w = [login_cmd]
  | (Transport.Throws (Transport.ScanError e), w) =>
      e = IndexError
      /\ Transport.sent w = [login_cmd; heartbeat_cmd; THEME_CMD]
  | (Transport.Throws (Transport.OSError e), w) =>
      (In (Some e) (firstn 2 faults)
       /\ (Transport.sent w = [login_cmd]
           \/ Transport.sent w = [login_cmd; heartbeat_cmd]))
      \/ (In (Transport.RecvRaises e) incoming
          /\ (Transport.sent w = [login_cmd]
              \/ Transport.sent w = [login_cmd; heartbeat_cmd; THEME_CMD]))
  | (Transport.NoFuel, _) => False
  end.
Proof.
  unfold Transport.bind at 1.
  destruct (login_loop_reads_only
              max_wait_packets (Transport.Wire incoming faults [login_cmd]))
    as (Hs & Hf & Hi & Hr).
  destruct (Transport.login_loop _ _) as [[logged_in|[|e|e]|] [incoming1 faults1 sent1]];
    cbn [fst snd Transport.sent Transport.send_faults Transport.incoming] in *;
    try (destruct Hr; fail).
  2:{ destruct Hr as [[] _]. }
  2:{ right. split; [exact Hr|left; exact Hs]. }
  subst sent1 faults1.
  destruct logged_in; cbn [negb]; [|reflexivity].
  unfold Transport.send_heartbeat, Transport.bind at 1, Transport.sendall at 1.
  cbn [Transport.send_faults Transport.incoming Transport.sent app].
  pose proof (request_outcomes login_cmd max_wait_packets incoming1) as Hreq.
  destruct faults as [|[e1|] faults']; cbn [firstn].
  - specialize (Hreq []).
    destruct (Transport.bind _ _ _) as [[l|[|e|e]|] w]; try exact Hreq;
      try contradiction.
    destruct Hreq as [[Hin _]|[Hin Hsent]]; [destruct Hin|].
    right. split; [apply Hi; exact Hin|right; exact Hsent].
  - left. split; [left; reflexivity|left; reflexivity].
  - specialize (Hreq faults').
    destruct (Transport.bind _ _ _) as [[l|[|e|e]|] w]; try exact Hreq;
      try contradiction.
    destruct Hreq as [[Hin Hsent]|[Hin Hsent]].
    + left. split; [right; exact Hin|right; exact Hsent].
    + right. split; [apply Hi; exact Hin|right; exact Hsent].
Qed.

(** X13. Whatever the connection does, [fetch_theme_list] ends in one
    of four ways.  It returns a list, after sending the login message, the
    heartbeat and the request: the empty list or the catalog of one
    packet, so the ids of the list are pairwise different and every
    record has an id of one to ten digits and a name of 1 to 100
    characters without control characters other than tab, newline and
    carriage return.  It raises [RuntimeError], having sent the login
    message only.  It lets the [IndexError] of a scan through, all three
    messages sent.  Or it lets an exception of the transport through
    unchanged: the one raised while connecting (nothing sent), by one of
    the three calls of [sendall], or by a [recv], such as the
    [TimeoutError] of a server that stays silent.  The last three
    statements give these cases: a failed connect, a failed first send,
    and a [recv] that raises before any byte of an answer has arrived. *)
Theorem fetch_outcomes (login_cmd : bytes) (max_wait_packets : nat) :
  (forall (connect_fault : option os_error)
          (incoming : list Transport.arrival)
          (send_faults : list (option os_error)),
      match
        Transport.fetch_theme_list login_cmd max_wait_packets connect_fault
                                   (Transport.Wire incoming send_faults [])
      with
      | (Transport.Done theme_list, w) =>
          connect_fault = None
          /\ Transport.sent w = [login_cmd; heartbeat_cmd; THEME_CMD]
          /\ NoDup (map rec_id theme_list)
          /\ (forall r, In r theme_list ->
                        isdigit (rec_id r) = true
                        /\ 1 <= length (rec_id r) <= 10
                        /\ 1 <= length (rec_name r) <= 100
                        /\ existsb invalid_char (rec_name r) = false)
      | (Transport.Throws Transport.RuntimeError, w) =>
          connect_fault = None /\ Transport.sent w = [login_cmd]
      | (Transport.Throws (Transport.ScanError e), w) =>
          connect_fault = None
          /\ e = IndexError
          /\ Transport.sent w = [login_cmd; heartbeat_cmd; THEME_CMD]
      | (Transport.Throws (Transport.OSError e), w) =>
          (connect_fault = Some e /\ Transport.sent w = [])
          \/ (connect_fault = None
              /\ In (Some e) (firstn 3 send_faults)
              /\ (Transport.sent w = []
                  \/ Transport.sent w = [login_cmd]
                  \/ Transport.sent w = [login_cmd; heartbeat_cmd]))
          \/ (connect_fault = None
              /\ In (Transport.RecvRaises e) incoming
              /\ (Transport.sent w = [login_cmd]
                  \/ Transport.sent w = [login_cmd; heartbeat_cmd; THEME_CMD]))
      | (Transport.NoFuel, _) => False
      end)
  /\ (forall e incoming send_faults,
         Transport.fetch_theme_list login_cmd max_wait_packets (Some e)
                                    (Transport.Wire incoming send_faults [])
         = (Transport.Throws (Transport.OSError e),
            Transport.Wire incoming send_faults []))
  /\ (forall e incoming send_faults,
         Transport.fetch_theme_list
           login_cmd max_wait_packets None
           (Transport.Wire incoming (Some e :: send_faults) [])
         = (Transport.Throws (Transport.OSError e),
            Transport.Wire incoming send_faults []))
  /\ (forall e incoming send_faults,
         0 < max_wait_packets ->
         Transport.fetch_theme_list
           login_cmd max_wait_packets None
           (Transport.Wire (Transport.RecvRaises e :: incoming)
                           (None :: send_faults) [])
         = (Transport.Throws (Transport.OSError e),
            Transport.Wire incoming send_faults [login_cmd])).
Proof.
  split; [|split; [|split]]; try reflexivity.
  2:{ intros e incoming send_faults Hpos.
      destruct max_wait_packets as [|n]; [lia|]. reflexivity. }
  intros connect_fault incoming send_faults.
  unfold Transport.fetch_theme_list.
  destruct connect_fault as [e|]; [left; split; reflexivity|].
  unfold Transport.bind at 1, Transport.sendall at 1.
  cbn [Transport.send_faults Transport.incoming Transport.sent app].
  pose proof (session_outcomes login_cmd max_wait_packets incoming) as Hses.
  destruct send_faults as [|[e1|] faults].
  - specialize (Hses []).
    destruct (Transport.bind _ _ _) as [[l|[|e|e]|] w]; auto.
    destruct Hses as [[Hin _]|[Hin Hsent]]; [destruct Hin|]. right. right. auto.
  - right. left. split; [reflexivity|].
    split; [left; reflexivity|left; reflexivity].
  - specialize (Hses faults).
    destruct (Transport.bind _ _ _) as [[l|[|e|e]|] w]; auto.
    destruct Hses as [[Hin Hsent]|[Hin Hsent]].
    + right. left. split; [reflexivity|]. split; [right; exact Hin|].
      right. exact Hsent.
    + right. right. auto.
Qed.

(** ** The two models of the session *)

Lemma recv_from_segments (sock : socket) (bufsize : nat) :
  Transport.recv_from (map Transport.Segment sock) bufsize
  = (inr (fst (recv sock bufsize)),
     map Transport.Segment (snd (recv sock bufsize))).
Proof.
  induction sock as [|segment sock IH]; [reflexivity|].
  cbn [map Transport.recv_from recv].
  destruct segment as [|b segment]; [exact IH|].
  destruct (length (b :: segment) <=? bufsize); reflexivity.
Qed.

Lemma recv_loop_agrees (fuel : nat) :
  forall want buf,
    Transport.agrees (Transport.recv_loop fuel want buf)
                     (recv_loop fuel want buf).
Proof.
  induction fuel as [|fuel IH]; intros want buf sock faults out;
    cbn [Transport.recv_loop recv_loop];
    destruct (length buf <? want); try reflexivity.
  - eexists. reflexivity.
  - unfold Transport.bind, Transport.recv.
    cbn [Transport.incoming Transport.send_faults Transport.sent].
    rewrite recv_from_segments.
    destruct (recv sock (want - length buf)) as [chunk sock1]. cbn [fst snd].
    destruct chunk as [|b chunk]; [reflexivity|].
    apply IH.
Qed.

Lemma receive_packet_agrees :
  Transport.agrees Transport.receive_packet receive_packet.
Proof.
  intros sock faults out. unfold receive_packet.
  pose proof (recv_loop_agrees 3 3 [] sock faults out) as H1.
  unfold Transport.receive_packet, Transport.bind.
  destruct (recv_loop 3 3 [] sock) as [[header sock1]|e|]; cbn [bind].
  2,3: destruct H1 as (inc & ->); eauto.
  rewrite H1.
  destruct header as [header|]; [|reflexivity].
  destruct header as [|t [|hi [|lo tail]]];
    try (eexists; reflexivity).
  pose proof (recv_loop_agrees (unpack_be16 hi lo) (unpack_be16 hi lo) []
                               sock1 faults out) as H2.
  destruct (recv_loop _ _ [] sock1) as [[body sock2]|e|]; cbn [bind].
  2,3: destruct H2 as (inc & ->); eauto.
  rewrite H2. destruct body; reflexivity.
Qed.

Lemma login_loop_agrees (attempts : nat) :
  Transport.agrees (Transport.login_loop attempts) (login_loop attempts).
Proof.
  induction attempts as [|n IH]; intros sock faults out;
    cbn [Transport.login_loop login_loop]; [reflexivity|].
  pose proof (receive_packet_agrees sock faults out) as H.
  unfold Transport.bind.
  destruct (receive_packet sock) as [[packet sock1]|e|]; cbn [bind].
  2,3: destruct H as (inc & ->); eauto.
  rewrite H.
  destruct packet as [[|t tail]|]; try apply IH.
  destruct (_ || _)%bool; [reflexivity|apply IH].
Qed.

Lemma wait_loop_agrees (attempts : nat) :
  forall theme_list,
    Transport.agrees (Transport.wait_loop attempts theme_list)
                     (fun sock => wait_loop attempts sock theme_list).
Proof.
  induction attempts as [|n IH]; intros theme_list sock faults out;
    cbn [Transport.wait_loop wait_loop]; [reflexivity|].
  pose proof (receive_packet_agrees sock faults out) as H.
  unfold Transport.bind.
  destruct (receive_packet sock) as [[packet sock1]|e|]; cbn [bind].
  2,3: destruct H as (inc & ->); eauto.
  rewrite H.
  destruct packet as [[|t tail]|]; try apply IH.
  destruct (_ || _)%bool; [|apply IH].
  destruct (_extract_theme_list_from_packet (t :: tail)) as [l|e|];
    cbn [bind Transport.lift Transport.ret Transport.throw
              Transport.out_of_fuel]; try (eexists; reflexivity).
  destruct l; [apply IH|reflexivity].
Qed.

(** On a connection without failures the session over the transport is
    the session on a stream that delivers and closes: the same result
    and the same messages sent. *)
Lemma fetch_theme_list_agrees (login_cmd : bytes) (max_wait_packets : nat)
      (sock : socket) (faults : list (option os_error)) :
  Forall (fun fault => fault = None) faults ->
  match
    Transport.fetch_theme_list login_cmd max_wait_packets None
                               (Transport.Wire (map Transport.Segment sock)
                                               faults [])
  with
  | (Transport.Done theme_list, w) =>
      fetch_theme_list login_cmd max_wait_packets sock
      = (Returns theme_list, Transport.sent w)
  | (Transport.Throws Transport.RuntimeError, w) =>
      fetch_theme_list login_cmd max_wait_packets sock
      = (Fails RuntimeError, Transport.sent w)
  | (Transport.Throws (Transport.ScanError e), w) =>
      fetch_theme_list login_cmd max_wait_packets sock
      = (Fails (Propagated e), Transport.sent w)
  | (Transport.Throws (Transport.OSError e), _) => False
  | (Transport.NoFuel, w) =>
      fetch_theme_list login_cmd max_wait_packets sock
      = (NoFuel, Transport.sent w)
  end.
Proof.
  intros Hfaults.
  assert (Hsend : forall data incoming fs out,
             Forall (fun fault => fault = None) fs ->
             exists fs',
               Transport.sendall data (Transport.Wire incoming fs out)
               = (Transport.Done tt, Transport.Wire incoming fs' (out ++ [data]))
               /\ Forall (fun fault => fault = None) fs').
  { intros data incoming fs out Hfs. unfold Transport.sendall.
    cbn [Transport.send_faults Transport.incoming Transport.sent].
    destruct Hfs as [|fault fs -> Hfs]; eauto. }
  unfold Transport.fetch_theme_list, fetch_theme_list. cbn zeta.
  unfold Transport.bind at 1.
  destruct (Hsend login_cmd (map Transport.Segment sock) faults [] Hfaults)
    as (fs1 & -> & Hfs1). cbn [app].
  unfold Transport.bind at 1.
  pose proof (login_loop_agrees max_wait_packets sock fs1 [login_cmd]) as Hl.
  destruct (login_loop max_wait_packets sock) as [[logged_in sock1]|e|].
  2,3: destruct Hl as (inc & ->); reflexivity.
  rewrite Hl. destruct logged_in; cbn [negb]; [|reflexivity].
  unfold Transport.send_heartbeat, Transport.bind at 1.
  destruct (Hsend heartbeat_cmd (map Transport.Segment sock1) fs1 [login_cmd]
                  Hfs1) as (fs2 & -> & Hfs2). cbn [app].
  unfold Transport.bind at 1.
  destruct (Hsend THEME_CMD (map Transport.Segment sock1) fs2
                  [login_cmd; heartbeat_cmd] Hfs2) as (fs3 & -> & Hfs3).
  cbn [app].
  pose proof (wait_loop_agrees max_wait_packets [] sock1 fs3
                               [login_cmd; heartbeat_cmd; THEME_CMD]) as Hw.
  cbv beta in Hw.
  destruct (wait_loop max_wait_packets sock1 []) as [[l sock2]|e|].
  2,3: destruct Hw as (inc & ->); reflexivity.
  rewrite Hw. reflexivity.
Qed.

(** ** limit_up_count: bounds *)

Lemma parse_varint_nonneg (data : bytes) (start_index : nat) (value : Z)
      (consumed : nat) :
  parse_varint data start_index = Ok (value, consumed) -> (0 <= value)%Z.
Proof.
  unfold parse_varint. intros Hrun.
  apply (varint_loop_result (skipn start_index data) start_index 0 0 start_index)
    in Hrun as (n & _ & _ & _ & -> & _); [|lia].
  change (7 * Z.of_nat 0)%Z with 0%Z. rewrite Z.shiftl_0_r, Z.lor_0_l.
  apply varint_value_range.
Qed.

(** The invariant of the trailing-field loop again, for properties that
    hold because a decoded varint is not negative. *)
Lemma field_loop_invariant_nonneg (P : theme_data -> list field_entry -> Prop) :
  (forall d af n v,
      (0 <= v)%Z -> P d af -> P (store_field n v d) (af ++ [VarintEntry n v])) ->
  (forall d af n len, P d af -> P d (af ++ [LengthDelimitedEntry n len])) ->
  forall fuel theme_body theme_end current_pos d af d' af',
    P d af ->
    field_loop fuel theme_body theme_end current_pos d af = Ok (d', af') ->
    P d' af'.
Proof.
  intros Hvar Hlen.
  induction fuel as [|fuel IH];
    intros theme_body theme_end current_pos d af d' af' HP Hrun.
  - cbn [field_loop] in Hrun.
    destruct (current_pos <? theme_end); [discriminate|].
    injection Hrun as <- <-. exact HP.
  - cbn [field_loop] in Hrun.
    destruct (current_pos <? theme_end);
      [|injection Hrun as <- <-; exact HP].
    destruct (length theme_body <=? current_pos);
      [injection Hrun as <- <-; exact HP|].
    destruct (getitem theme_body current_pos) as [tag|e|]; cbn [bind] in Hrun;
      try discriminate.
    destruct (Z.land (byte_val tag) 7 =? 0)%Z.
    + destruct (parse_varint theme_body (current_pos + 1)) as [[v c]|e|] eqn:Hv;
        try discriminate.
      * apply (IH _ _ _ _ _ _ _ (Hvar _ _ _ _ (parse_varint_nonneg _ _ _ _ Hv) HP)
                  Hrun).
      * injection Hrun as <- <-. exact HP.
    + destruct (Z.land (byte_val tag) 7 =? 2)%Z;
        [|injection Hrun as <- <-; exact HP].
      destruct (length theme_body <=? current_pos + 1);
        [injection Hrun as <- <-; exact HP|].
      destruct (getitem theme_body (current_pos + 1)) as [lb|e|];
        cbn [bind] in Hrun; try discriminate.
      destruct (length theme_body <? current_pos + 1 + 1 + Byte.to_nat lb);
        [injection Hrun as <- <-; exact HP|].
      apply (IH _ _ _ _ _ _ _ (Hlen _ _ _ _ HP) Hrun).
Qed.

Lemma store_field_in_range (d : theme_data) (n v : Z) :
  (0 <= v)%Z ->
  limit_up_count_in_range d -> limit_up_count_in_range (store_field n v d).
Proof.
  intros Hv Hd. unfold store_field.
  destruct (n =? 5)%Z; [exact Hd|].
  destruct (n =? 6)%Z; [exact Hd|].
  destruct (n =? 7)%Z.
  { destruct (Z.leb_spec v 100); [|exact Hd].
    unfold limit_up_count_in_range. cbn. lia. }
  destruct (n =? 8)%Z.
  { destruct (Z.leb_spec v 100); cbn [andb]; [|exact Hd].
    destruct (negb _); [|exact Hd].
    unfold limit_up_count_in_range. cbn. lia. }
  destruct (n =? 9)%Z; [exact Hd|].
  destruct (n =? 10)%Z; [exact Hd|].
  destruct (n =? 11)%Z; exact Hd.
Qed.

Lemma scanned_in_range (theme_body : bytes) (d : theme_data) :
  scanned theme_body d -> limit_up_count_in_range d.
Proof.
  intros [(theme_id & ->)|Hfull]; [exact I|].
  destruct Hfull as (theme_id & theme_name & d1 & raw & fuel & theme_end & pos
                     & df & af & Hd1 & _ & Hloop & ->).
  cbn zeta in Hd1.
  change (limit_up_count_in_range df).
  apply (field_loop_invariant_nonneg
           (fun d _ => limit_up_count_in_range d)
           (fun d af n v Hv H => store_field_in_range d n v Hv H)
           (fun d af n len H => H)
           fuel theme_body theme_end pos (set_raw_data raw d1) [] df af);
    [|exact Hloop].
  destruct Hd1 as [->|(code & ->)]; exact I.
Qed.

(** X14. The count of limit-up stocks is never negative and never above
    100: in a record the scan of a window returns the key is absent or
    holds such a value (a decoded varint is not negative, and fields 7 and
    8 are kept as the count only when they are at most 100), and every
    record of a catalog carries a count between 0 and 100, 0 when the key
    was absent. *)
Theorem limit_up_count_bounds :
  (forall theme_body l d,
      parse_theme_list theme_body = Ok l ->
      In d l ->
      limit_up_count_in_range d)
  /\ (forall packet out r,
         _extract_theme_list_from_packet packet = Ok out ->
         In r out ->
         (0 <= rec_limit_up_count r <= 100)%Z).
Proof.
  split.
  - intros theme_body l d Hparse Hin.
    apply parse_theme_list_scanned in Hparse.
    rewrite Forall_forall in Hparse.
    exact (scanned_in_range theme_body d (Hparse d Hin)).
  - intros packet out r Hex Hin.
    destruct (extract_cases _ _ Hex) as [->|(themes & Hscan & ->)];
      [contradiction|].
    destruct (simplify_origin _ _ Hin) as (theme & Hth & Hc).
    rewrite scan_chunks_windows in Hscan.
    apply scan_windows_scanned in Hscan.
    rewrite Forall_forall in Hscan.
    destruct (Hscan _ Hth) as (w & _ & Hsc).
    apply scanned_in_range in Hsc.
    unfold valid_candidate in Hc.
    destruct (td_id theme); [|discriminate].
    destruct (td_name theme); [|discriminate].
    cbn zeta in Hc.
    match type of Hc with (if ?c then _ else _) = _ => destruct c end;
      [|discriminate].
    injection Hc as <-. cbn [rec_limit_up_count].
    unfold get_limit_up_count_or_0, limit_up_count_in_range in *.
    destruct (td_limit_up_count theme); lia.
Qed.

Lemma limit_up_count_bounds_witness :
  (0 <= rec_limit_up_count (ThemeRecord [53; 48; 48]%Z [65%Z] None 5) <= 100)%Z.
Proof.
  apply (proj2 limit_up_count_bounds
               [x40; x00; x0a; x0a; x03; x35; x30; x30; x12; x01; x41; x38; x05]
               [ThemeRecord [53; 48; 48]%Z [65%Z] None 5]).
  - reflexivity.
  - left. reflexivity.
Defined.

(** ** The scan reads forward only *)

Lemma ltb_shift (p a b : nat) : (p + a <? p + b) = (a <? b).
Proof.
  destruct (Nat.ltb_spec a b), (Nat.ltb_spec (p + a) (p + b));
    first [reflexivity | lia].
Qed.

Lemma leb_shift (p a b : nat) : (p + a <=? p + b) = (a <=? b).
Proof.
  destruct (Nat.leb_spec a b), (Nat.leb_spec (p + a) (p + b));
    first [reflexivity | lia].
Qed.

Lemma leb_pred_shift (p n i : nat) : (p + n - 1 <=? p + i) = (n - 1 <=? i).
Proof.
  destruct (Nat.leb_spec (n - 1) i), (Nat.leb_spec (p + n - 1) (p + i));
    first [reflexivity | lia].
Qed.

Lemma skipn_shift (pre rest : bytes) (i : nat) :
  skipn (length pre + i) (pre ++ rest) = skipn i rest.
Proof.
  rewrite skipn_app, skipn_all2 by lia.
  replace (length pre + i - length pre) with i by lia. reflexivity.
Qed.

Lemma getitem_shift (pre rest : bytes) (i : nat) :
  getitem (pre ++ rest) (length pre + i) = getitem rest i.
Proof.
  unfold getitem. rewrite nth_error_app2 by lia.
  replace (length pre + i - length pre) with i by lia. reflexivity.
Qed.

Lemma slice_shift (pre rest : bytes) (i j : nat) :
  slice (pre ++ rest) (length pre + i) (length pre + j) = slice rest i j.
Proof.
  unfold slice. rewrite skipn_shift.
  replace (length pre + j - (length pre + i)) with (j - i) by lia.
  reflexivity.
Qed.

Lemma find_from_shift (sub : bytes) (p : nat) (l : bytes) :
  forall pos,
    find_from sub l (p + pos) = option_map (Nat.add p) (find_from sub l pos).
Proof.
  induction l as [|b l IH]; intros pos; cbn [find_from].
  - destruct (starts_with sub []); reflexivity.
  - destruct (starts_with sub (b :: l)); [reflexivity|].
    rewrite <- IH. f_equal. lia.
Qed.

Lemma find_shift (sub pre rest : bytes) (i : nat) :
  find sub (pre ++ rest) (length pre + i)
  = option_map (Nat.add (length pre)) (find sub rest i).
Proof.
  unfold find. rewrite length_app, ltb_shift, skipn_shift.
  destruct (length rest <? i); [reflexivity|]. apply find_from_shift.
Qed.

Lemma varint_loop_shift (p : nat) (l : bytes) :
  forall start r shift pos,
    start <= pos ->
    varint_loop l (p + start) r shift (p + pos) = varint_loop l start r shift pos.
Proof.
  induction l as [|b l IH]; intros start r shift pos Hpos; cbn [varint_loop].
  - do 2 f_equal. lia.
  - destruct (Z.land (byte_val b) 128 =? 0)%Z; [do 2 f_equal; lia|].
    destruct (64 <=? shift + 7)%Z; [reflexivity|].
    rewrite <- Nat.add_succ_r. apply IH. lia.
Qed.

Lemma parse_varint_shift (pre rest : bytes) (i : nat) :
  parse_varint (pre ++ rest) (length pre + i) = parse_varint rest i.
Proof.
  unfold parse_varint. rewrite skipn_shift. apply varint_loop_shift. lia.
Qed.

Ltac shift_norm :=
  rewrite ?length_app, <- ?Nat.add_assoc, ?ltb_shift, ?leb_shift,
    ?leb_pred_shift, ?getitem_shift, ?parse_varint_shift, ?slice_shift,
    ?find_shift.

Lemma field_loop_shift (pre rest : bytes) (fuel : nat) :
  forall theme_end current_pos d af,
    field_loop fuel (pre ++ rest) (length pre + theme_end)
               (length pre + current_pos) d af
    = field_loop fuel rest theme_end current_pos d af.
Proof.
  induction fuel as [|fuel IH]; intros theme_end current_pos d af;
    cbn [field_loop]; shift_norm; [reflexivity|].
  destruct (current_pos <? theme_end); [|reflexivity].
  destruct (length rest <=? current_pos); [reflexivity|].
  destruct (getitem rest current_pos) as [tag|e|]; cbn [bind]; try reflexivity.
  shift_norm.
  destruct (Z.land (byte_val tag) 7 =? 0)%Z.
  - destruct (parse_varint rest (current_pos + 1)) as [[v c]|e|]; try reflexivity.
    shift_norm. apply IH.
  - destruct (Z.land (byte_val tag) 7 =? 2)%Z; [|reflexivity].
    destruct (length rest <=? current_pos + 1); [reflexivity|].
    destruct (getitem rest (current_pos + 1)) as [lb|e|]; cbn [bind];
      try reflexivity.
    shift_norm.
    destruct (length rest <? _); [reflexivity|]. apply IH.
Qed.

Lemma parse_code_shift (pre rest : bytes) (index : nat) (d : theme_data) :
  parse_code (pre ++ rest) (length pre + index) d
  = ('(index1, d1) <- parse_code rest index d ;; Ok (length pre + index1, d1)).
Proof.
  unfold parse_code. shift_norm.
  destruct (index <? length rest); [|reflexivity].
  destruct (getitem rest index) as [tag|e|]; cbn [bind]; try reflexivity.
  destruct (byte_val tag =? 34)%Z; [|reflexivity].
  shift_norm.
  destruct (getitem rest (index + 1)) as [cb|e|]; cbn [bind]; try reflexivity.
  shift_norm.
  destruct (_ <=? length rest); reflexivity.
Qed.

Lemma finish_theme_shift (pre rest : bytes) (theme_start index : nat)
      (d : theme_data) (theme_list : list theme_data) :
  finish_theme (pre ++ rest) (length pre + theme_start) (length pre + index)
               d theme_list
  = (ctl <- finish_theme rest theme_start index d theme_list ;;
     Ok (shift_ctl (length pre) ctl)).
Proof.
  unfold finish_theme. rewrite parse_code_shift.
  destruct (parse_code rest index d) as [[index1 d1]|e|]; cbn [bind];
    try reflexivity.
  rewrite find_shift, length_app.
  set (next := match find [x0a] rest index1 with
               | Some p => p
               | None => length rest
               end).
  replace (match option_map (Nat.add (length pre)) (find [x0a] rest index1) with
           | Some p => p
           | None => length pre + length rest
           end) with (length pre + next)
    by (subst next; destruct (find [x0a] rest index1); reflexivity).
  rewrite slice_shift, field_loop_shift.
  replace (length pre + next - (length pre + index1)) with (next - index1)
    by lia.
  destruct (field_loop _ _ _ _ _ _) as [[df af]|e|]; cbn [bind];
    try reflexivity.
  rewrite leb_shift.
  destruct (next <=? theme_start); shift_norm;
    destruct (length rest <=? _); reflexivity.
Qed.

Lemma scan_iteration_shift (pre rest : bytes) (index : nat)
      (theme_list : list theme_data) :
  scan_iteration (pre ++ rest) (length pre + index) theme_list
  = (ctl <- scan_iteration rest index theme_list ;;
     Ok (shift_ctl (length pre) ctl)).
Proof.
  unfold scan_iteration. rewrite find_shift.
  destruct (find [x0a] rest index) as [next_id|]; cbn [option_map bind];
    [|reflexivity].
  shift_norm.
  destruct (length rest <=? next_id + 2); [reflexivity|].
  destruct (getitem rest (next_id + 1)) as [ib|e|]; cbn [bind]; try reflexivity.
  shift_norm.
  destruct (length rest <? _); [reflexivity|].
  destruct (20 <? Byte.to_nat ib); [reflexivity|].
  destruct (negb _ || negb _)%bool; [reflexivity|].
  destruct (10 <? _); [reflexivity|].
  destruct (length rest - 1 <=? _); [reflexivity|].
  destruct (getitem rest _) as [tag|e|]; cbn [bind]; try reflexivity.
  destruct (byte_val tag =? 18)%Z; [|reflexivity].
  destruct (getitem rest _) as [nb|e|]; cbn [bind]; try reflexivity.
  shift_norm.
  destruct (length rest <? _); [reflexivity|].
  apply finish_theme_shift.
Qed.

(** The outer loop on a window behind a prefix is the loop on the window
    alone, and the number of passes allowed plays no part once it covers
    the bytes that are left. *)
Lemma scan_loop_shift (pre rest : bytes) (fuel1 : nat) :
  forall fuel2 index theme_list,
    length rest - index <= fuel1 ->
    length rest - index <= fuel2 ->
    scan_loop fuel1 (pre ++ rest) (length pre + index) theme_list
    = scan_loop fuel2 rest index theme_list.
Proof.
  induction fuel1 as [|fuel1 IH]; intros fuel2 index theme_list H1 H2.
  - cbn [scan_loop]. rewrite length_app, ltb_shift.
    destruct (Nat.ltb_spec index (length rest)); [lia|].
    destruct fuel2; cbn [scan_loop];
      destruct (Nat.ltb_spec index (length rest)); first [lia|reflexivity].
  - cbn [scan_loop]. rewrite length_app, ltb_shift.
    destruct fuel2 as [|fuel2]; cbn [scan_loop];
      destruct (Nat.ltb_spec index (length rest)) as [Hlt|];
      try reflexivity; [lia|].
    rewrite scan_iteration_shift.
    destruct (scan_iteration_advances rest index theme_list) as (Hadv & _ & _).
    destruct (scan_iteration rest index theme_list) as [[l|index' l]|e|];
      cbn [bind shift_ctl]; try reflexivity.
    destruct (Hadv _ _ eq_refl) as (next_id & _ & Hnext).
    apply IH; lia.
Qed.

(** X15. The scan of a window reads forward only: it starts behind the
    first start marker (at the first byte when there is none) and the
    bytes before the index where it starts play no part.  Two windows
    that hold the same bytes from that index on give the same result,
    records or exception; in particular a window without a marker gives
    what the same bytes give behind a header that ends with the first
    marker, whatever the header holds. *)
Theorem scan_ignores_bytes_before_start (pre1 pre2 rest : bytes) :
  initial_index (pre1 ++ rest) = length pre1 ->
  initial_index (pre2 ++ rest) = length pre2 ->
  parse_theme_list (pre1 ++ rest) = parse_theme_list (pre2 ++ rest).
Proof.
  intros H1 H2. unfold parse_theme_list. rewrite H1, H2.
  rewrite <- (Nat.add_0_r (length pre1)), <- (Nat.add_0_r (length pre2)).
  rewrite (scan_loop_shift pre1 rest _ (length rest) 0 [])
    by (rewrite ?length_app; lia).
  rewrite (scan_loop_shift pre2 rest _ (length rest) 0 [])
    by (rewrite ?length_app; lia).
  reflexivity.
Qed.

Lemma scan_ignores_bytes_before_start_witness :
  parse_theme_list
    ([x0a; x01; x39; x12; x01; x5a; x0b; xc1; x00; x00; x00]
       ++ [x0a; x03; x35; x30; x30; x12; x01; x41; x38; x05])
  = parse_theme_list ([] ++ [x0a; x03; x35; x30; x30; x12; x01; x41; x38; x05]).
Proof.
  apply (scan_ignores_bytes_before_start
           [x0a; x01; x39; x12; x01; x5a; x0b; xc1; x00; x00; x00] []
           [x0a; x03; x35; x30; x30; x12; x01; x41; x38; x05]);
    reflexivity.
Defined.
